(** * Ergodic information harvesting: the trajectory optimiser and its job queue

    A shallow embedding of [ErgodicHarvestingLib/ergodic.py] (classes
    [ProjectionBasedOpt] and [ErgodicOpt]) and of the worker loop and the
    trajectory normalisation of [ErgodicHarvestingLib/SimulationMainQueue.py].

    Conventions of the embedding.
    - NumPy [float64] values are idealised as real numbers ([R]); an operation
      whose floating-point result is [nan] or [inf] (a division by zero, a
      mean of nothing), or that raises a Python exception, yields [None].
    - NumPy [int64] values are integers ([Z]) with the wrap-around written out
      ([wrap64]).
    - The state and the control are one-dimensional ([nx = nu = 1]), as the
      constants written by [dfdx] and [dfdu] and the one-element [P1] of the
      source require; a trajectory of shape [(n, 1)] is a [list R].
    - An instance is a record; a method that assigns attributes returns the
      updated record. *)

From Stdlib Require Import Reals Lra Lia Psatz List ZArith Bool.
Import ListNotations.
Open Scope R_scope.

(** ** The option monad: exceptions and non-finite results *)

Definition obind {A B : Type} (m : option A) (k : A -> option B) : option B :=
  match m with
  | Some a => k a
  | None => None
  end.

Notation "x <- m ;; k" := (obind m (fun x => k))
  (at level 61, m at next level, right associativity).

Fixpoint omap_list {A B : Type} (f : A -> option B) (l : list A) : option (list B) :=
  match l with
  | [] => Some []
  | a :: l' => b <- f a ;; bs <- omap_list f l' ;; Some (b :: bs)
  end.

(** ** NumPy and SciPy primitives *)

(** [x / y] on floats: a zero divisor gives [inf] or [nan]. *)
Definition fdiv (x y : R) : option R :=
  if Req_dec_T y 0 then None else Some (x / y).

(** [np.sum]. *)
Definition np_sum (l : list R) : R := fold_right Rplus 0 l.

(** [np.mean]: the sum over the number of elements. *)
Definition np_mean (l : list R) : option R := fdiv (np_sum l) (INR (length l)).

(** [np.max]; the empty array raises [ValueError]. *)
Fixpoint np_max (l : list R) : option R :=
  match l with
  | [] => None
  | x :: l' =>
      match np_max l' with
      | None => Some x
      | Some m => Some (Rmax x m)
      end
  end.

(** [np.linspace(a, b, n)]: [n] points, [a + i * (b - a) / (n - 1)]. *)
Definition linspace (a b : R) (n : nat) : list R :=
  map (fun i => a + INR i * ((b - a) / INR (n - 1))) (seq 0 n).

(** The sum behind [trapz(y, x)]:
    [sum(diff(x) * (y[1:] + y[:-1]) / 2.0)]. *)
Fixpoint trapz_sum (y x : list R) : R :=
  match y, x with
  | y0 :: ((y1 :: _) as y'), x0 :: ((x1 :: _) as x') =>
      (x1 - x0) * (y0 + y1) / 2 + trapz_sum y' x'
  | _, _ => 0
  end.

(** [scipy.integrate.trapz(y, x)]; arrays of different lengths do not
    broadcast and raise [ValueError]. *)
Definition trapz (y x : list R) : option R :=
  if Nat.eqb (length y) (length x) then Some (trapz_sum y x) else None.

(** Two's-complement wrap-around of [int64] arithmetic. *)
Definition wrap64 (z : Z) : Z :=
  ((z + 2 ^ 63) mod 2 ^ 64 - 2 ^ 63)%Z.

(** [x ** y] on floats (C [pow]): a positive base uses [exp (y * ln x)]; a
    base that is not positive is defined for an integral exponent only, apart
    from [0 ** y = 0] for [y > 0]; the other cases are [nan] or [inf]. *)
Definition float_power (x y : R) : option R :=
  if Rlt_dec 0 x then Some (Rpower x y)
  else if Req_dec_T y (IZR (Int_part y)) then
    if Req_dec_T x 0 then
      if Rlt_dec y 0 then None else Some (powerRZ x (Int_part y))
    else Some (powerRZ x (Int_part y))
  else if Req_dec_T x 0 then
    if Rlt_dec 0 y then Some 0 else None
  else None.

(** [scipy.integrate.quad(lambda x: np.cos(x * w) ** 2, 0.0, 1.0)[0]]: the
    adaptive quadrature is idealised as the value of the integral,
    [1/2 + sin (2 w) / (4 w)], and [1] at [w = 0]. *)
Definition quad_cos_sq (w : R) : R :=
  if Req_dec_T w 0 then 1 else 1 / 2 + sin (2 * w) / (4 * w).

(** ** Parameters (SimParameters.py) *)

Module ErgodicParameters.
Record t : Type := mk {
  nFourier : Z;
  wBarrCost : R;
  wErgCost : R;
  wControl : R;
  wInitCtrl : R;
  tRes : nat;
  res : Z;
  time : list R;
  eidTime : list R
}.
End ErgodicParameters.

(** ** The optimiser instance *)

(** The attributes of an [ErgodicOpt] instance (those of its base class
    [ProjectionBasedOpt] first).  Left out are the attributes that no
    modelled method reads: the dimensions [nx = nu = 1], [mass], [Q],
    [odeParam] (see [odeIntegrator]), and the copies [K], [P_current],
    [R_current] and [erg] of values that the methods also return. *)
Record ErgodicOpt : Type := mkErgodicOpt {
  (* ProjectionBasedOpt.__init__ *)
  R_weight : R;            (* self.R = R * np.eye(nu) *)
  Quinit : R;
  P1 : R;
  Qn : R;
  Rn : R;
  Qk : R;
  Rk : R;
  time : list R;
  (* set by update_traj *)
  X_current : list R;
  U_current : list R;
  A_current : list R;
  B_current : list R;
  a_current : list R;
  b_current : list R;
  (* ErgodicOpt.__init__ *)
  barrcost : R;
  ergcost : R;
  Nfourier : Z;
  uinit : R;
  dimw : Z;
  wlimit : R;
  tRes : nat;
  res : Z;
  eidTime : list R;
  xlist : list R;
  Lambdak : list R;
  klist : list R;
  hk : list R;
  (* set by set_pdf, ckeval, akeval *)
  pdf : list R;
  uk : list R;
  ck : list R;
  ak : list R
}.

(** [np.arange(n)]: the [int64] array [0, 1, ..., n - 1]. *)
Definition np_arange (n : Z) : list Z :=
  map Z.of_nat (seq 0 (Z.to_nat n)).

(** One entry of [1.0 / (1.0 + klist ** 2) ** s]: the square is taken on
    [int64] and wraps; the sum, the power and the quotient are on floats. *)
Definition Lambdak_at (s : R) (k : Z) : option R :=
  b <- float_power (1 + IZR (wrap64 (k * k))) s ;; fdiv 1 b.

(** One entry of [klist / self.wlimit * np.pi]. *)
Definition klist_at (wl : R) (k : Z) : option R :=
  q <- fdiv (IZR k) wl ;; Some (q * PI).

(** One entry of [hk]: [np.sqrt(quad(cos(x * klist[index]) ** 2, 0, 1)[0])]. *)
Definition hk_at (w : R) : R := sqrt (quad_cos_sq w).

(** [ErgodicOpt.__init__] with [nx = nu = 1] (it runs
    [ProjectionBasedOpt.__init__] first, which reads [time[1]] and [time[0]]
    for the integrator's step).  [np.arange] of a negative number is empty,
    but [np.zeros(self.Nfourier)] raises [ValueError] for it.  An attribute
    that the constructor does not assign is the empty list here.  The memory
    and the time that the arrays and the quadrature loop take are not
    modelled; the statements about the constructor bound the number of
    modes. *)
Definition ErgodicOpt_init (ergParam : ErgodicParameters.t) (uinit0 : R)
  : option ErgodicOpt :=
  let tm := ErgodicParameters.time ergParam in
  if (length tm <? 2)%nat then None else
  let dimw0 := 1%Z in
  let wlimit0 := 1 in
  let ks := np_arange (ErgodicParameters.nFourier ergParam) in
  let s := (IZR dimw0 + 1) / 2 in
  Lk <- omap_list (Lambdak_at s) ks ;;
  kl <- omap_list (klist_at wlimit0) ks ;;
  if (ErgodicParameters.nFourier ergParam <? 0)%Z then None else
  Some {|
    R_weight := ErgodicParameters.wControl ergParam;
    Quinit := ErgodicParameters.wInitCtrl ergParam;
    P1 := 1; Qn := 1; Rn := 1; Qk := 1; Rk := 1;
    time := tm;
    X_current := []; U_current := [];
    A_current := []; B_current := []; a_current := []; b_current := [];
    barrcost := ErgodicParameters.wBarrCost ergParam;
    ergcost := ErgodicParameters.wErgCost ergParam;
    Nfourier := ErgodicParameters.nFourier ergParam;
    uinit := uinit0;
    dimw := dimw0;
    wlimit := wlimit0;
    tRes := ErgodicParameters.tRes ergParam;
    res := ErgodicParameters.res ergParam;
    eidTime := ErgodicParameters.eidTime ergParam;
    xlist := linspace 0 1 (ErgodicParameters.tRes ergParam);
    Lambdak := Lk;
    klist := kl;
    hk := map hk_at kl;
    pdf := []; uk := []; ck := []; ak := []
  |}.

(** ** Ergodic metric *)

(** [self.Lambdak * (self.ck - self.uk) ** 2], elementwise, for three arrays
    of one length (the constructor, [ckeval] and [calculate_uk] give each
    [Nfourier] entries).  Arrays of different lengths broadcast or raise in
    NumPy; every statement about the metric assumes the common length. *)
Fixpoint erg_terms (L c u : list R) : list R :=
  match L, c, u with
  | l :: L', x :: c', y :: u' => l * (x - y) ^ 2 :: erg_terms L' c' u'
  | _, _, _ => []
  end.

(** [ErgodicOpt.calculate_ergodicity]:
    [np.sum(self.Lambdak * (self.ck - self.uk) ** 2)]. *)
Definition calculate_ergodicity (self : ErgodicOpt) : R :=
  np_sum (erg_terms (Lambdak self) (ck self) (uk self)).

(** ** Workspace barrier *)

(** The entry of [barr_cost] for one sample: [np.square(x - wlimit)] where
    [x > wlimit], and [np.square(x)] added where [x < 0]. *)
Definition barr_point (wl x : R) : R :=
  (if Rlt_dec wl x then Rsqr (x - wl) else 0) +
  (if Rlt_dec x 0 then Rsqr x else 0).

(** [ErgodicOpt.barrier]. *)
Definition barrier (self : ErgodicOpt) (xk : list R) : option R :=
  trapz (map (barr_point (wlimit self)) xk) (time self).

(** ** Attribute assignment ([self.attr = v]; for [Quinit], the same instance
    built with another weight) *)

Definition set_Quinit (v : R) (self : ErgodicOpt) : ErgodicOpt :=
  {| R_weight := R_weight self; Quinit := v; P1 := P1 self; Qn := Qn self; Rn
     := Rn self; Qk := Qk self; Rk := Rk self; time := time self; X_current
     := X_current self; U_current := U_current self; A_current := A_current
     self; B_current := B_current self; a_current := a_current self;
     b_current := b_current self; barrcost := barrcost self; ergcost :=
     ergcost self; Nfourier := Nfourier self; uinit := uinit self; dimw :=
     dimw self; wlimit := wlimit self; tRes := tRes self; res := res self;
     eidTime := eidTime self; xlist := xlist self; Lambdak := Lambdak self;
     klist := klist self; hk := hk self; pdf := pdf self; uk := uk self; ck
     := ck self; ak := ak self |}.

Definition set_X_current (v : list R) (self : ErgodicOpt) : ErgodicOpt :=
  {| R_weight := R_weight self; Quinit := Quinit self; P1 := P1 self; Qn :=
     Qn self; Rn := Rn self; Qk := Qk self; Rk := Rk self; time := time self;
     X_current := v; U_current := U_current self; A_current := A_current
     self; B_current := B_current self; a_current := a_current self;
     b_current := b_current self; barrcost := barrcost self; ergcost :=
     ergcost self; Nfourier := Nfourier self; uinit := uinit self; dimw :=
     dimw self; wlimit := wlimit self; tRes := tRes self; res := res self;
     eidTime := eidTime self; xlist := xlist self; Lambdak := Lambdak self;
     klist := klist self; hk := hk self; pdf := pdf self; uk := uk self; ck
     := ck self; ak := ak self |}.

Definition set_U_current (v : list R) (self : ErgodicOpt) : ErgodicOpt :=
  {| R_weight := R_weight self; Quinit := Quinit self; P1 := P1 self; Qn :=
     Qn self; Rn := Rn self; Qk := Qk self; Rk := Rk self; time := time self;
     X_current := X_current self; U_current := v; A_current := A_current
     self; B_current := B_current self; a_current := a_current self;
     b_current := b_current self; barrcost := barrcost self; ergcost :=
     ergcost self; Nfourier := Nfourier self; uinit := uinit self; dimw :=
     dimw self; wlimit := wlimit self; tRes := tRes self; res := res self;
     eidTime := eidTime self; xlist := xlist self; Lambdak := Lambdak self;
     klist := klist self; hk := hk self; pdf := pdf self; uk := uk self; ck
     := ck self; ak := ak self |}.

Definition set_A_current (v : list R) (self : ErgodicOpt) : ErgodicOpt :=
  {| R_weight := R_weight self; Quinit := Quinit self; P1 := P1 self; Qn :=
     Qn self; Rn := Rn self; Qk := Qk self; Rk := Rk self; time := time self;
     X_current := X_current self; U_current := U_current self; A_current :=
     v; B_current := B_current self; a_current := a_current self; b_current
     := b_current self; barrcost := barrcost self; ergcost := ergcost self;
     Nfourier := Nfourier self; uinit := uinit self; dimw := dimw self;
     wlimit := wlimit self; tRes := tRes self; res := res self; eidTime :=
     eidTime self; xlist := xlist self; Lambdak := Lambdak self; klist :=
     klist self; hk := hk self; pdf := pdf self; uk := uk self; ck := ck
     self; ak := ak self |}.

Definition set_B_current (v : list R) (self : ErgodicOpt) : ErgodicOpt :=
  {| R_weight := R_weight self; Quinit := Quinit self; P1 := P1 self; Qn :=
     Qn self; Rn := Rn self; Qk := Qk self; Rk := Rk self; time := time self;
     X_current := X_current self; U_current := U_current self; A_current :=
     A_current self; B_current := v; a_current := a_current self; b_current
     := b_current self; barrcost := barrcost self; ergcost := ergcost self;
     Nfourier := Nfourier self; uinit := uinit self; dimw := dimw self;
     wlimit := wlimit self; tRes := tRes self; res := res self; eidTime :=
     eidTime self; xlist := xlist self; Lambdak := Lambdak self; klist :=
     klist self; hk := hk self; pdf := pdf self; uk := uk self; ck := ck
     self; ak := ak self |}.

Definition set_a_current (v : list R) (self : ErgodicOpt) : ErgodicOpt :=
  {| R_weight := R_weight self; Quinit := Quinit self; P1 := P1 self; Qn :=
     Qn self; Rn := Rn self; Qk := Qk self; Rk := Rk self; time := time self;
     X_current := X_current self; U_current := U_current self; A_current :=
     A_current self; B_current := B_current self; a_current := v; b_current
     := b_current self; barrcost := barrcost self; ergcost := ergcost self;
     Nfourier := Nfourier self; uinit := uinit self; dimw := dimw self;
     wlimit := wlimit self; tRes := tRes self; res := res self; eidTime :=
     eidTime self; xlist := xlist self; Lambdak := Lambdak self; klist :=
     klist self; hk := hk self; pdf := pdf self; uk := uk self; ck := ck
     self; ak := ak self |}.

Definition set_b_current (v : list R) (self : ErgodicOpt) : ErgodicOpt :=
  {| R_weight := R_weight self; Quinit := Quinit self; P1 := P1 self; Qn :=
     Qn self; Rn := Rn self; Qk := Qk self; Rk := Rk self; time := time self;
     X_current := X_current self; U_current := U_current self; A_current :=
     A_current self; B_current := B_current self; a_current := a_current
     self; b_current := v; barrcost := barrcost self; ergcost := ergcost
     self; Nfourier := Nfourier self; uinit := uinit self; dimw := dimw self;
     wlimit := wlimit self; tRes := tRes self; res := res self; eidTime :=
     eidTime self; xlist := xlist self; Lambdak := Lambdak self; klist :=
     klist self; hk := hk self; pdf := pdf self; uk := uk self; ck := ck
     self; ak := ak self |}.

Definition set_pdf_array (v : list R) (self : ErgodicOpt) : ErgodicOpt :=
  {| R_weight := R_weight self; Quinit := Quinit self; P1 := P1 self; Qn :=
     Qn self; Rn := Rn self; Qk := Qk self; Rk := Rk self; time := time self;
     X_current := X_current self; U_current := U_current self; A_current :=
     A_current self; B_current := B_current self; a_current := a_current
     self; b_current := b_current self; barrcost := barrcost self; ergcost :=
     ergcost self; Nfourier := Nfourier self; uinit := uinit self; dimw :=
     dimw self; wlimit := wlimit self; tRes := tRes self; res := res self;
     eidTime := eidTime self; xlist := xlist self; Lambdak := Lambdak self;
     klist := klist self; hk := hk self; pdf := v; uk := uk self; ck := ck
     self; ak := ak self |}.

Definition set_uk (v : list R) (self : ErgodicOpt) : ErgodicOpt :=
  {| R_weight := R_weight self; Quinit := Quinit self; P1 := P1 self; Qn :=
     Qn self; Rn := Rn self; Qk := Qk self; Rk := Rk self; time := time self;
     X_current := X_current self; U_current := U_current self; A_current :=
     A_current self; B_current := B_current self; a_current := a_current
     self; b_current := b_current self; barrcost := barrcost self; ergcost :=
     ergcost self; Nfourier := Nfourier self; uinit := uinit self; dimw :=
     dimw self; wlimit := wlimit self; tRes := tRes self; res := res self;
     eidTime := eidTime self; xlist := xlist self; Lambdak := Lambdak self;
     klist := klist self; hk := hk self; pdf := pdf self; uk := v; ck := ck
     self; ak := ak self |}.

Definition set_ck (v : list R) (self : ErgodicOpt) : ErgodicOpt :=
  {| R_weight := R_weight self; Quinit := Quinit self; P1 := P1 self; Qn :=
     Qn self; Rn := Rn self; Qk := Qk self; Rk := Rk self; time := time self;
     X_current := X_current self; U_current := U_current self; A_current :=
     A_current self; B_current := B_current self; a_current := a_current
     self; b_current := b_current self; barrcost := barrcost self; ergcost :=
     ergcost self; Nfourier := Nfourier self; uinit := uinit self; dimw :=
     dimw self; wlimit := wlimit self; tRes := tRes self; res := res self;
     eidTime := eidTime self; xlist := xlist self; Lambdak := Lambdak self;
     klist := klist self; hk := hk self; pdf := pdf self; uk := uk self; ck
     := v; ak := ak self |}.

Definition set_ak (v : list R) (self : ErgodicOpt) : ErgodicOpt :=
  {| R_weight := R_weight self; Quinit := Quinit self; P1 := P1 self; Qn :=
     Qn self; Rn := Rn self; Qk := Qk self; Rk := Rk self; time := time self;
     X_current := X_current self; U_current := U_current self; A_current :=
     A_current self; B_current := B_current self; a_current := a_current
     self; b_current := b_current self; barrcost := barrcost self; ergcost :=
     ergcost self; Nfourier := Nfourier self; uinit := uinit self; dimw :=
     dimw self; wlimit := wlimit self; tRes := tRes self; res := res self;
     eidTime := eidTime self; xlist := xlist self; Lambdak := Lambdak self;
     klist := klist self; hk := hk self; pdf := pdf self; uk := uk self; ck
     := ck self; ak := v |}.

(** ** Pointwise cost and its control gradient (ProjectionBasedOpt) *)

(** Modelled from the spec: [ErgodicHarvestingLib.utils.matmult], which the
    sources import but do not contain.  The specification writes the products
    it forms as plain products ([K(t) = B(t)·P(t)], control effort weighted by
    [R]); on the one-dimensional state and control it is the left-to-right
    product of its arguments. *)
Definition matmult (xs : list R) : R :=
  match xs with
  | [] => 1
  | x :: xs' => fold_left Rmult xs' x
  end.

(** [for tindex, _ in np.ndenumerate(self.time): out[tindex] = f(X[tindex],
    U[tindex])]: one entry per grid point; a trajectory shorter than the grid
    raises [IndexError]. *)
Fixpoint per_sample (f : R -> R -> R) (tm X U : list R) : option (list R) :=
  match tm with
  | [] => Some []
  | _ :: tm' =>
      match X, U with
      | x :: X', u :: U' => r <- per_sample f tm' X' U' ;; Some (f x u :: r)
      | _, _ => None
      end
  end.

(** [ProjectionBasedOpt.cost_pointwise]. *)
Definition cost_pointwise (self : ErgodicOpt) (x u : R) : R :=
  0.5 * matmult [u; R_weight self; u].

(** [ProjectionBasedOpt.cost]. *)
Definition cost (self : ErgodicOpt) (X U : list R) : option R :=
  c <- per_sample (cost_pointwise self) (time self) X U ;;
  trapz c (time self).

(** [ProjectionBasedOpt.eval_cost]. *)
Definition eval_cost (self : ErgodicOpt) : option R :=
  cost self (X_current self) (U_current self).

(** [ProjectionBasedOpt.dldu_pointwise]. *)
Definition dldu_pointwise (self : ErgodicOpt) (x u : R) : R :=
  matmult [R_weight self; u].

(** [ProjectionBasedOpt.dldu]: the control gradient at every grid point, with
    [self.uinit * self.Quinit] added to the first entry. *)
Definition dldu (self : ErgodicOpt) : option ErgodicOpt :=
  dldul <- per_sample (dldu_pointwise self) (time self)
             (X_current self) (U_current self) ;;
  match dldul with
  | [] => None
  | d0 :: rest => Some (set_b_current ((d0 + uinit self * Quinit self) :: rest) self)
  end.

(** The cost as the specification words it: the running cost is the quadratic
    control effort, plus, at the first grid point, the initial-control term
    weighted by [Quinit] (the term whose control gradient [dldu] adds there);
    the running cost is integrated by [trapz]. *)
Fixpoint spec_running_cost (self : ErgodicOpt) (first : bool) (U : list R)
  : list R :=
  match U with
  | [] => []
  | u :: U' =>
      (0.5 * u * R_weight self * u +
       (if first then Quinit self * uinit self * u else 0))
      :: spec_running_cost self false U'
  end.

Definition spec_cost (self : ErgodicOpt) (X U : list R) : option R :=
  trapz (spec_running_cost self true U) (time self).

(** ** Normalisation of the moth tracking data (SimulationMainQueue.py) *)

(** [normalize(s, t, mid, gain)]; [s] and [t] are distinct arrays (two
    columns of the loaded trial), so the in-place updates of one do not touch
    the other. *)
Definition normalize (s t : list R) (mid gain : R)
  : option (list R * list R) :=
  (* Remove offset *)
  sMean <- np_mean s ;;
  m <- np_mean s ;;
  let s := map (fun x => x - m) s in
  let t := map (fun x => x - sMean) t in
  (* Scale *)
  mx <- np_max s ;;
  ginv <- float_power gain (-1) ;;
  let sScale := mx * ginv in
  s <- omap_list (fun x => fdiv x sScale) s ;;
  t <- omap_list (fun x => fdiv x sScale) t ;;
  (* Offset *)
  Some (map (fun x => x + mid) s, map (fun x => x + mid) t).

(** ** Interpolants and the fixed-step integrator *)

(** The linear piece of [scipy.interpolate.interp1d] on an increasing grid:
    the segment is the first one whose right end is not below [x]
    ([searchsorted] from the left), and the value is
    [slope * (x - x_lo) + y_lo]. *)
Fixpoint interp_segments (xs ys : list R) (x : R) : option R :=
  match xs, ys with
  | x0 :: ((x1 :: _) as xs'), y0 :: ((y1 :: _) as ys') =>
      if Rle_dec x x1
      then slope <- fdiv (y1 - y0) (x1 - x0) ;; Some (slope * (x - x0) + y0)
      else interp_segments xs' ys' x
  | _, _ => None
  end.

(** [interp1d(xs, ys)] with the default [bounds_error]: the constructor
    raises [ValueError] when the arrays differ in length, and the interpolant
    raises [ValueError] at a point outside [[xs[0], xs[-1]]].  The grids of
    this program come from [linspace] and are increasing, so the sorting that
    [interp1d] performs first is the identity. *)
Definition interp1d (xs ys : list R) : option (R -> option R) :=
  if Nat.eqb (length xs) (length ys)
  then Some (fun x =>
               if Rlt_dec x (hd 0 xs) then None
               else if Rlt_dec (last xs 0) x then None
               else interp_segments xs ys x)
  else None.

(** The guard that opens every right-hand side:
    [t > self.time[-1] or t < self.time[0]]. *)
Definition out_of_horizon (self : ErgodicOpt) (t : R) : bool :=
  if Rlt_dec (last (time self) 0) t then true
  else if Rlt_dec t (hd 0 (time self)) then true else false.

(** [ProjectionBasedOpt.peqns]; [Al] and [Bl] are interpolants. *)
Definition peqns (self : ErgodicOpt) (t pp : R) (Al Bl : R -> option R)
           (Rn0 Qn0 : R) : option R :=
  if out_of_horizon self t then Some 0 else
  A <- Al t ;; B <- Bl t ;;
  Some (matmult [pp; A] + matmult [A; pp] - matmult [pp; B; B; pp] + Qn0).

(** [ProjectionBasedOpt.reqns]; after the guard the time is replaced by
    [self.time[-1] - t]. *)
Definition reqns (self : ErgodicOpt) (t rr : R)
           (Al Bl a b Psol : R -> option R) (Rn0 Qn0 : R) : option R :=
  if out_of_horizon self t then Some 0 else
  let t := last (time self) 0 - t in
  A <- Al t ;; B <- Bl t ;; P <- Psol t ;; a0 <- a t ;; b0 <- b t ;;
  Some (matmult [A - matmult [B; B; P]; rr] + a0 - matmult [P; B; b0]).

(** [ProjectionBasedOpt.veqns], on values. *)
Definition veqns (zz Al Bl a b Psol Rsol Rn0 Qn0 : R) : R :=
  matmult [- Bl; Psol; zz] - matmult [Bl; Rsol] - b.

(** [ProjectionBasedOpt.zeqns]. *)
Definition zeqns (self : ErgodicOpt) (t zz : R)
           (Al Bl a b Psol Rsol : R -> option R) (Rn0 Qn0 : R) : option R :=
  if out_of_horizon self t then Some 0 else
  A <- Al t ;; B <- Bl t ;; a0 <- a t ;; b0 <- b t ;;
  P <- Psol t ;; r <- Rsol t ;;
  let vmateq := veqns zz A B a0 b0 P r Rn0 Qn0 in
  Some (matmult [A; zz] + matmult [B; vmateq]).

(** [ProjectionBasedOpt.fofx]; [U] is an interpolant. *)
Definition fofx (self : ErgodicOpt) (t X : R) (U : R -> option R) : option R :=
  if out_of_horizon self t then Some 0 else U t.

(** [ProjectionBasedOpt.proj]. *)
Definition proj (self : ErgodicOpt) (t X : R) (K mu alpha : R -> option R)
  : option R :=
  if out_of_horizon self t then Some 0 else
  m <- mu t ;; k <- K t ;; a <- alpha t ;;
  Some (m + matmult [k; a - X]).

(** [ProjectionBasedOpt.projcontrol]. *)
Definition projcontrol (X K mu alpha : R) : R :=
  mu + matmult [K; alpha - X].

(** One step of the explicit Runge-Kutta pair of order 3(2) that
    [method="RK23"] selects (Bogacki-Shampine: nodes [0, 1/2, 3/4], weights
    [2/9, 1/3, 4/9]); the derivative at the new point is evaluated as well,
    since the solver keeps it for the next step. *)
Definition rk23_step (f : R -> R -> option R) (h t y : R) : option R :=
  k1 <- f t y ;;
  k2 <- f (t + 1 / 2 * h) (y + h * (1 / 2 * k1)) ;;
  k3 <- f (t + 3 / 4 * h) (y + h * (3 / 4 * k2)) ;;
  let y_new := y + h * (2 / 9 * k1 + 1 / 3 * k2 + 4 / 9 * k3) in
  _ <- f (t + h) y_new ;;
  Some y_new.

(** [n] steps of size [h] from [(t, y)]: the samples at the step ends, the
    start included. *)
Fixpoint rk23_steps (f : R -> R -> option R) (h : R) (n : nat) (t y : R)
  : option (list R) :=
  match n with
  | O => Some [y]
  | S n' =>
      y_new <- rk23_step f h t y ;;
      rest <- rk23_steps f h n' (t + h) y_new ;;
      Some (y :: rest)
  end.

(** [odeDeltaT = time[1] - time[0]]. *)
Definition odeDeltaT (self : ErgodicOpt) : R :=
  nth 1 (time self) 0 - nth 0 (time self) 0.

(** [self.odeIntegrator(fun, y0)]: [solve_ivp] with [method="RK23"],
    [first_step = max_step = odeDeltaT], [t_span = (time[0], time[-1])] and
    [t_eval = time], flattened.  SciPy is not part of the sources; following
    the specification (a fixed-step explicit Runge-Kutta integrator whose step
    is the grid spacing and whose output is sampled at the grid points) it is
    one [rk23_step] of size [odeDeltaT] per grid interval, starting at
    [time[0]]; on the uniform grids of [linspace] the steps end on the grid
    points.  The solver itself also estimates the error of each step and
    repeats a step with a shorter one when the estimate exceeds
    [atol + rtol·|y|] ([atol = 1e-7], [rtol = 1e-4]); the model gives the
    solver's samples where the steps of size [odeDeltaT] are accepted, as
    on the fine default grid. *)
Definition odeIntegrator (self : ErgodicOpt) (f : R -> R -> option R) (y0 : R)
  : option (list R) :=
  rk23_steps f (odeDeltaT self) (length (time self) - 1) (hd 0 (time self)) y0.

(** ** Linearisation and trajectory update *)

(** [ProjectionBasedOpt.dfdx]: [A_current[tindex, :] = [0]]. *)
Definition dfdx (self : ErgodicOpt) : ErgodicOpt :=
  set_A_current (map (fun _ => 0) (time self)) self.

(** [ProjectionBasedOpt.dfdu]: [B_current[tindex, :] = [1]]. *)
Definition dfdu (self : ErgodicOpt) : ErgodicOpt :=
  set_B_current (map (fun _ => 1) (time self)) self.

(** The linearisation arrays are the ones written by [dfdx] and [dfdu], as
    after every [update_traj]. *)
Definition linearised (self : ErgodicOpt) : Prop :=
  A_current self = A_current (dfdx self) /\
  B_current self = B_current (dfdu self).

(** The interpolants rebuilt by [update_traj]; they are kept as functions of
    the arrays they interpolate. *)
Definition A_interp (self : ErgodicOpt) : option (R -> option R) :=
  interp1d (time self) (A_current self).
Definition B_interp (self : ErgodicOpt) : option (R -> option R) :=
  interp1d (time self) (B_current self).
Definition a_interp (self : ErgodicOpt) : option (R -> option R) :=
  interp1d (time self) (a_current self).
Definition b_interp (self : ErgodicOpt) : option (R -> option R) :=
  interp1d (time self) (b_current self).

(** ** Gain, adjoint, simulation and projection *)

(** [ProjectionBasedOpt.Psol]: the samples returned by the integrator, in the
    order in which it produced them. *)
Definition Psol (self : ErgodicOpt) (X U tm : list R) : option (list R) :=
  let P1 := 1 in
  Al <- A_interp self ;; Bl <- B_interp self ;;
  odeIntegrator self
    (fun t y => peqns self t y Al Bl (Rn self) (Qn self)) P1.

(** One row of the loop of [Ksol]:
    [K[tindex, :] = matmult(B_current[tindex, 0], psoln[tindex])]. *)
Fixpoint gain_rows (tm Bc psoln : list R) : option (list R) :=
  match tm with
  | [] => Some []
  | _ :: tm' =>
      match Bc, psoln with
      | b :: Bc', p :: psoln' =>
          r <- gain_rows tm' Bc' psoln' ;; Some (matmult [b; p] :: r)
      | _, _ => None
      end
  end.

(** [ProjectionBasedOpt.Ksol]; the returned array is also what [self.K]
    holds afterwards. *)
Definition Ksol (self : ErgodicOpt) (X U : list R) : option (list R) :=
  let P1 := 1 in
  Al <- A_interp self ;; Bl <- B_interp self ;;
  psoln <- odeIntegrator self
             (fun t y => peqns self t y Al Bl (Rk self) (Qk self)) P1 ;;
  gain_rows (time self) (B_current self) psoln.

(** [ProjectionBasedOpt.Rsol]: here the samples are flipped before they are
    returned. *)
Definition Rsol (self : ErgodicOpt) (X U : list R) (P_interp : R -> option R)
           (tm : list R) : option (list R) :=
  let rinit2 := 0 in
  let Qn0 := 1 in
  let Rn0 := 1 in
  Al <- A_interp self ;; Bl <- B_interp self ;;
  al <- a_interp self ;; bl <- b_interp self ;;
  soln <- odeIntegrator self
            (fun t y => reqns self t y Al Bl al bl P_interp Rn0 Qn0) rinit2 ;;
  Some (rev soln).

(** [ProjectionBasedOpt.simulate]. *)
Definition simulate (self : ErgodicOpt) (X0 : R) (U : list R)
  : option (list R) :=
  U_interp <- interp1d (time self) U ;;
  odeIntegrator self (fun t y => fofx self t y U_interp) X0.

(** The loop of [project] that fills [usoln]. *)
Fixpoint projcontrol_rows (tm xsoln Ks mu alpha : list R) : option (list R) :=
  match tm with
  | [] => Some []
  | _ :: tm' =>
      match xsoln, Ks, mu, alpha with
      | x :: xsoln', k :: Ks', m :: mu', a :: alpha' =>
          r <- projcontrol_rows tm' xsoln' Ks' mu' alpha' ;;
          Some (projcontrol x k m a :: r)
      | _, _, _, _ => None
      end
  end.

(** [ProjectionBasedOpt.project]; [traj] is the pair [(alpha, mu)] and the
    result the pair [(xsoln, usoln)]. *)
Definition project (self : ErgodicOpt) (X0 : R) (traj : list R * list R)
  : option (list R * list R) :=
  let alpha := fst traj in
  let mu := snd traj in
  Ks <- Ksol self alpha mu ;;
  K_interp <- interp1d (time self) Ks ;;
  mu_interp <- interp1d (time self) mu ;;
  alpha_interp <- interp1d (time self) alpha ;;
  xsoln <- odeIntegrator self
             (fun t y => proj self t y K_interp mu_interp alpha_interp) X0 ;;
  usoln <- projcontrol_rows (time self) xsoln Ks mu alpha ;;
  Some (xsoln, usoln).


(** ** Well-formed grids *)

(** A time grid: at least two samples, strictly increasing. *)
Fixpoint increasing (l : list R) : Prop :=
  match l with
  | x :: ((y :: _) as l') => x < y /\ increasing l'
  | _ => True
  end.

Definition time_grid (l : list R) : Prop :=
  (2 <= length l)%nat /\ increasing l.

(** A uniform grid, as [linspace] produces: the spacing of every interval is
    [time[1] - time[0]], the step given to the integrator. *)
Definition uniform_grid (tm : list R) : Prop :=
  time_grid tm /\
  forall i, (S i < length tm)%nat ->
    nth (S i) tm 0 - nth i tm 0 = nth 1 tm 0 - nth 0 tm 0.

(** The update of one [rk23_step] when the right-hand side at the fraction
    [theta] of the step is [F theta y]. *)
Definition rk23_value (F : R -> R -> R) (h y : R) : R :=
  let k1 := F 0 y in
  let k2 := F (1 / 2) (y + h * (1 / 2 * k1)) in
  let k3 := F (3 / 4) (y + h * (3 / 4 * k2)) in
  y + h * (2 / 9 * k1 + 1 / 3 * k2 + 4 / 9 * k3).

(** The samples of [m] steps that start in grid interval [k]. *)
Fixpoint rk23_samples (F : nat -> R -> R -> R) (h : R) (m k : nat) (y : R)
  : list R :=
  match m with
  | O => [y]
  | S m' => y :: rk23_samples F h m' (S k) (rk23_value (F k) h y)
  end.


(** The right-hand side that [project] integrates, at the fraction [theta]
    of grid interval [k], for the gain [K = 1]: [mu + K·(alpha - X)] with
    [mu] and [alpha] interpolated. *)
Definition feedback_rhs (alpha mu : list R) (k : nat) (theta y : R) : R :=
  (nth k mu 0 + theta * (nth (S k) mu 0 - nth k mu 0)) +
  1 * ((nth k alpha 0 + theta * (nth (S k) alpha 0 - nth k alpha 0)) - y).


(** ** Target density and its Fourier coefficients (ErgodicOpt) *)

(** An elementwise operation on two arrays; arrays of different lengths do
    not broadcast and raise [ValueError]. *)
Fixpoint zip_with_opt (f : R -> R -> option R) (a b : list R)
  : option (list R) :=
  match a, b with
  | [], [] => Some []
  | x :: a', y :: b' =>
      v <- f x y ;; r <- zip_with_opt f a' b' ;; Some (v :: r)
  | _, _ => None
  end.

(** [ErgodicOpt.normalize_pdf]:
    [self.pdf /= np.sum(self.pdf) / np.product(self.pdf.shape)]. *)
Definition normalize_pdf (self : ErgodicOpt) : option ErgodicOpt :=
  let total := np_sum (pdf self) in
  let count := INR (length (pdf self)) in
  p <- omap_list (fun x => d <- fdiv total count ;; fdiv x d) (pdf self) ;;
  Some (set_pdf_array p self).

(** One pass of the loop of [calculate_uk], for the wavenumber [kv] and the
    basis norm [hkv]:
    [uk_interior = pdf / hk[index]],
    [uk_interior *= self.wlimit / self.res * np.cos(klist[index] * xlist)],
    [np.sum(uk_interior)]. *)
Definition uk_entry (self : ErgodicOpt) (pdf0 : list R) (kv hkv : R)
  : option R :=
  c <- fdiv (wlimit self) (IZR (res self)) ;;
  uk_interior <- zip_with_opt
                   (fun p x => q <- fdiv p hkv ;; Some (q * (c * cos (kv * x))))
                   pdf0 (xlist self) ;;
  Some (np_sum uk_interior).

(** [ErgodicOpt.calculate_uk]: one entry per [index in range(Nfourier)]. *)
Definition calculate_uk (self : ErgodicOpt) (pdf0 : list R)
  : option ErgodicOpt :=
  uks <- omap_list
           (fun index =>
              kv <- nth_error (klist self) index ;;
              hkv <- nth_error (hk self) index ;;
              uk_entry self pdf0 kv hkv)
           (seq 0 (Z.to_nat (Nfourier self))) ;;
  Some (set_uk uks self).

(** The first two lines of [set_pdf]:
    [interp1d(self.eidTime, pdf)(self.xlist)]. *)
Definition resample_pdf (self : ErgodicOpt) (pdf0 : list R)
  : option (list R) :=
  pdfInterp <- interp1d (eidTime self) pdf0 ;;
  omap_list pdfInterp (xlist self).

(** [ErgodicOpt.set_pdf]. *)
Definition set_pdf (self : ErgodicOpt) (pdf0 : list R) : option ErgodicOpt :=
  p <- resample_pdf self pdf0 ;;
  self <- normalize_pdf (set_pdf_array p self) ;;
  calculate_uk self (pdf self).

(** The sum of the claim: [Σ pdf · cos(k · x)] over the grid points. *)
Fixpoint cos_sum (kv : R) (p xs : list R) : R :=
  match p, xs with
  | q :: p', x :: xs' => q * cos (kv * x) + cos_sum kv p' xs'
  | _, _ => 0
  end.

(** ** The worker loop (SimulationMainQueue.py) *)

(** The exceptions a worker can meet: [queue.Empty], any other subclass of
    [Exception], and the exceptions outside [Exception]
    ([KeyboardInterrupt], [SystemExit]). *)
Inductive exception : Type :=
| Empty
| Exception (cls : nat)
| BaseException (cls : nat).

(** The class numbers used for the exceptions raised by the loop itself. *)
Definition IndexError : exception := Exception 0.

(** A work item: the flat argument list of a wiggle-attenuation simulation,
    or the tuple [(ergParam, eidParam, False)] of the other simulations, of
    which the loop reads [eidParam.filename] and whether [eidParam.rawTraj]
    names the moth data. *)
Inductive work_item : Type :=
| ArgList (args : list nat)
| ParamTuple (filename : nat) (moth : bool).

(** What one call of [mp_queue.get(block=True, timeout=5.0)] does: it hands
    over an item, or raises ([Empty] when the timeout expires). *)
Inductive get_result : Type :=
| Item (w : work_item)
| GetRaises (e : exception).

(** How a worker leaves the loop: by [return], or with an exception. *)
Inductive worker_exit : Type :=
| Returned
| Raised (e : exception).

(** The functions the loop calls and the sources do not contain
    ([EIH_Sim], [EIDSim], [loadMothData] reading the data file): each either
    returns ([None]) or raises. *)
Record simulators : Type := {
  EIH_Sim : list nat -> option exception;
  EIDSim : nat -> option exception;
  loadMothData : option exception
}.

(** The body of the [try]: the steps after a successful [get]. *)
Definition run_item (sim : simulators) (w : work_item) : option exception :=
  match w with
  | ArgList args =>
      (* the message reads args[3] *)
      match nth_error args 3 with
      | None => Some IndexError
      | Some _ => EIH_Sim sim args
      end
  | ParamTuple filename moth =>
      if moth then
        match loadMothData sim with
        | Some e => Some e
        | None => EIDSim sim filename
        end
      else EIDSim sim filename
  end.

(** The two handlers: [except Empty: return] and [except Exception: raise];
    an exception outside [Exception] matches neither and propagates. *)
Definition handle (e : exception) : worker_exit :=
  match e with
  | Empty => Returned
  | _ => Raised e
  end.

(** [QueueWorker] against the successive outcomes of [get]: the items whose
    execution was started, and how the loop was left; [None] when the
    outcomes are used up and the worker is waiting in [get]. *)
Fixpoint QueueWorker (sim : simulators) (gets : list get_result)
  : list work_item * option worker_exit :=
  match gets with
  | [] => ([], None)
  | GetRaises e :: _ => ([], Some (handle e))
  | Item w :: gets' =>
      match run_item sim w with
      | Some e => ([w], Some (handle e))
      | None =>
          let (started, exit) := QueueWorker sim gets' in
          (w :: started, exit)
      end
  end.

(** ** Realised coefficients, state gradient and total cost (ErgodicOpt) *)

(** One pass of the loop of [ckeval]:
    [trapz(1.0 / (hk[index] * T) * np.cos(klist[index] * W), time)]. *)
Definition ck_entry (self : ErgodicOpt) (kv hkv : R) : option R :=
  let T := last (time self) 0 in
  ck_interior <- fdiv 1 (hkv * T) ;;
  trapz (map (fun w => ck_interior * cos (kv * w)) (X_current self))
        (time self).

(** [ErgodicOpt.ckeval]. *)
Definition ckeval (self : ErgodicOpt) : option ErgodicOpt :=
  cks <- omap_list
           (fun index =>
              kv <- nth_error (klist self) index ;;
              hkv <- nth_error (hk self) index ;;
              ck_entry self kv hkv)
           (seq 0 (Z.to_nat (Nfourier self))) ;;
  Some (set_ck cks self).

(** One entry of
    [outerchain = 2.0 * Lambdak * (ck - uk) / (hk * T)]. *)
Definition outerchain_entry (self : ErgodicOpt) (index : nat) : option R :=
  let T := last (time self) 0 in
  l <- nth_error (Lambdak self) index ;;
  c <- nth_error (ck self) index ;;
  u <- nth_error (uk self) index ;;
  h <- nth_error (hk self) index ;;
  fdiv (2 * l * (c - u)) (h * T).

(** [ErgodicOpt.akeval]: for every sample the sum over the modes of
    [outerchain[index] * (-klist[index] * sin(klist[index] * x))].  Without
    any mode the list [ak] is empty, [np.sum(np.array([]), axis=0)] is the
    scalar [0.0], and the stored array has the single entry 0. *)
Definition akeval (self : ErgodicOpt) : option ErgodicOpt :=
  terms <- omap_list
             (fun index =>
                o <- outerchain_entry self index ;;
                kv <- nth_error (klist self) index ;;
                Some (o, kv))
             (seq 0 (Z.to_nat (Nfourier self))) ;;
  let summed_ak :=
    match terms with
    | [] => [0]
    | _ :: _ =>
        map (fun x =>
               np_sum (map (fun ok => fst ok * (- snd ok * sin (snd ok * x)))
                           terms))
            (X_current self)
    end in
  Some (set_ak summed_ak self).

(** One entry of [Dbarrier]: [2.0 * (x - wlimit)] where [x > wlimit],
    overwritten by [2.0 * x] where [x < 0]. *)
Definition Dbarr_point (wl x : R) : R :=
  if Rlt_dec x 0 then 2 * x
  else if Rlt_dec wl x then 2 * (x - wl) else 0.

(** [ErgodicOpt.Dbarrier]. *)
Definition Dbarrier (self : ErgodicOpt) (xk : list R) : list R :=
  map (Dbarr_point (wlimit self)) xk.

(** An elementwise operation on two column arrays with NumPy's broadcasting:
    a column of one row is repeated along the other; otherwise the numbers
    of rows must agree. *)
Definition broadcast_with (f : R -> R -> R) (a b : list R)
  : option (list R) :=
  match a, b with
  | [x], _ => Some (map (f x) b)
  | _, [y] => Some (map (fun x => f x y) a)
  | _, _ => zip_with_opt (fun x y => Some (f x y)) a b
  end.

(** [ErgodicOpt.dldx]:
    [a_current = ergcost * ak + barrcost * Dbarrier(X)]. *)
Definition dldx (self : ErgodicOpt) : option ErgodicOpt :=
  a <- broadcast_with
         (fun g d => ergcost self * g + barrcost self * d)
         (ak self) (Dbarrier self (X_current self)) ;;
  Some (set_a_current a self).

(** [ErgodicOpt.update_traj]; the four interpolants it rebuilds are
    [A_interp], [B_interp], [a_interp] and [b_interp] above. *)
Definition update_traj (self : ErgodicOpt) (X U : list R)
  : option ErgodicOpt :=
  let self := set_X_current X self in
  let self := set_U_current U self in
  self <- ckeval self ;;
  self <- akeval self ;;
  let self := dfdx self in
  let self := dfdu self in
  self <- dldx self ;;
  self <- dldu self ;;
  _ <- A_interp self ;; _ <- B_interp self ;;
  _ <- a_interp self ;; _ <- b_interp self ;;
  Some self.

(** The attributes that a step of [update_traj] leaves alone. *)
Definition same_trajectory_frame (s s' : ErgodicOpt) : Prop :=
  time s' = time s /\ Qn s' = Qn s /\ Qk s' = Qk s /\
  X_current s' = X_current s /\ U_current s' = U_current s.

(** [ErgodicOpt.evalcost]. *)
Definition evalcost (self : ErgodicOpt) : option R :=
  c <- cost self (X_current self) (U_current self) ;;
  b <- barrier self (X_current self) ;;
  let barr_cost := barrcost self * b in
  let erg_cost := ergcost self * calculate_ergodicity self in
  Some (barr_cost + erg_cost + c).

(** ** Pointwise model, directional derivative and descent direction
    (ProjectionBasedOpt) *)

(** [ProjectionBasedOpt.fofx_pointwise]: the single integrator. *)
Definition fofx_pointwise (X U : R) : R := U.

(** [ProjectionBasedOpt.dfdx_pointwise] and [dfdu_pointwise]. *)
Definition dfdx_pointwise (x u : R) : R := 0.
Definition dfdu_pointwise (x u : R) : R := 1.

(** [ProjectionBasedOpt.dldx_pointwise]. *)
Definition dldx_pointwise (self : ErgodicOpt) (x u : R) : R := 0.

(** The loop of [dcost]:
    [dc[tindex] = matmult(a_current[tindex], dX[tindex])
                  + matmult(b_current[tindex], dU[tindex])]. *)
Fixpoint dcost_rows (tm a b dX dU : list R) : option (list R) :=
  match tm with
  | [] => Some []
  | _ :: tm' =>
      match a, b, dX, dU with
      | a0 :: a', b0 :: b', x :: dX', u :: dU' =>
          r <- dcost_rows tm' a' b' dX' dU' ;;
          Some (matmult [a0; x] + matmult [b0; u] :: r)
      | _, _, _, _ => None
      end
  end.

(** [ProjectionBasedOpt.dcost]; [descdir] is the pair [(dX, dU)]. *)
Definition dcost (self : ErgodicOpt) (descdir : list R * list R) : option R :=
  let dX := fst descdir in
  let dU := snd descdir in
  dc <- dcost_rows (time self) (a_current self) (b_current self) dX dU ;;
  trapz dc (time self).

(** The loop of [descentdirection] that fills [vsoln]. *)
Fixpoint veqns_rows (tm zsoln Ac Bc ac bc Ps Rs : list R) (Rn0 Qn0 : R)
  : option (list R) :=
  match tm with
  | [] => Some []
  | _ :: tm' =>
      match zsoln, Ac, Bc, ac, bc, Ps, Rs with
      | z :: zsoln', A :: Ac', B :: Bc', a :: ac', b :: bc', P :: Ps',
        r :: Rs' =>
          rest <- veqns_rows tm' zsoln' Ac' Bc' ac' bc' Ps' Rs' Rn0 Qn0 ;;
          Some (veqns z A B a b P r Rn0 Qn0 :: rest)
      | _, _, _, _, _, _, _ => None
      end
  end.

(** [ProjectionBasedOpt.descentdirection]: the pair [(zsoln, vsoln)].  The
    initial perturbation reads both interpolants at the literal time [0].
    [vsoln = np.empty(U.shape)] has one row per row of [U_current]: the loop
    writes the rows at the grid indices and raises [IndexError] when
    [U_current] has fewer; the rows beyond the grid keep what [np.empty]
    found in memory and are [None] here. *)
Definition descentdirection (self : ErgodicOpt)
  : option (list R * list (option R)) :=
  let X := X_current self in
  let U := U_current self in
  let tm := time self in
  Ps <- Psol self X U tm ;;
  P_interp <- interp1d tm Ps ;;
  Rs <- Rsol self X U P_interp tm ;;
  r_interp <- interp1d tm Rs ;;
  p0 <- P_interp 0 ;;
  pinv <- float_power p0 (-1) ;;
  r0 <- r_interp 0 ;;
  let zinit := - matmult [pinv; r0] in
  Al <- A_interp self ;; Bl <- B_interp self ;;
  al <- a_interp self ;; bl <- b_interp self ;;
  zsoln <- odeIntegrator self
             (fun t y => zeqns self t y Al Bl al bl P_interp r_interp
                               (Rn self) (Qn self)) zinit ;;
  if (length U <? length tm)%nat then None else
  vsoln <- veqns_rows tm zsoln (A_current self) (B_current self)
             (a_current self) (b_current self) Ps Rs (Rn self) (Qn self) ;;
  Some (zsoln, map Some vsoln ++ repeat None (length U - length tm)).

(** The attributes that no step of [update_traj] assigns: the grid, the
    Fourier basis with its weights and targets, and the cost weights. *)
Definition same_parameters (s s' : ErgodicOpt) : Prop :=
  time s' = time s /\ Lambdak s' = Lambdak s /\ uk s' = uk s /\
  hk s' = hk s /\ klist s' = klist s /\ Nfourier s' = Nfourier s /\
  R_weight s' = R_weight s /\ uinit s' = uinit s /\ Quinit s' = Quinit s /\
  ergcost s' = ergcost s /\ barrcost s' = barrcost s /\ wlimit s' = wlimit s.


(** ** Concrete instances used to exercise the definitions *)

(** The default parameters of [SimParameters.py] on a three-point grid with
    three Fourier modes. *)
Definition params_small : ErgodicParameters.t :=
  {| ErgodicParameters.nFourier := 3;
     ErgodicParameters.wBarrCost := 100;
     ErgodicParameters.wErgCost := 5;
     ErgodicParameters.wControl := 1 / 20;
     ErgodicParameters.wInitCtrl := 0;
     ErgodicParameters.tRes := 3;
     ErgodicParameters.res := 3;
     ErgodicParameters.time := [0; 1 / 2; 1];
     ErgodicParameters.eidTime := [0; 1 / 2; 1] |}.

(** An instance on the three-point grid with the given coefficient arrays;
    [Lambdak] holds the weights of the first three modes. *)
Definition opt_with_coefficients (c u : list R) : ErgodicOpt :=
  {| R_weight := 1 / 20; Quinit := 0;
     P1 := 1; Qn := 1; Rn := 1; Qk := 1; Rk := 1;
     time := [0; 1 / 2; 1];
     X_current := []; U_current := [];
     A_current := []; B_current := []; a_current := []; b_current := [];
     barrcost := 100; ergcost := 5; Nfourier := 3; uinit := 0;
     dimw := 1; wlimit := 1; tRes := 3; res := 3;
     eidTime := [0; 1 / 2; 1]; xlist := [0; 1 / 2; 1];
     Lambdak := [1; 1 / 2; 1 / 5];
     klist := [0; PI; 2 * PI];
     hk := [1; sqrt (1 / 2); sqrt (1 / 2)];
     pdf := []; uk := u; ck := c; ak := [] |}.

(** An instance on the three-point grid with the given control weight,
    initial-control weight, initial control and current trajectory. *)
Definition opt_on_grid (Rw Qu ui : R) (X U : list R) : ErgodicOpt :=
  {| R_weight := Rw; Quinit := Qu;
     P1 := 1; Qn := 1; Rn := 1; Qk := 1; Rk := 1;
     time := [0; 1 / 2; 1];
     X_current := X; U_current := U;
     A_current := []; B_current := []; a_current := []; b_current := [];
     barrcost := 100; ergcost := 5; Nfourier := 3; uinit := ui;
     dimw := 1; wlimit := 1; tRes := 3; res := 3;
     eidTime := [0; 1 / 2; 1]; xlist := [0; 1 / 2; 1];
     Lambdak := [1; 1 / 2; 1 / 5];
     klist := [0; PI; 2 * PI];
     hk := [1; sqrt (1 / 2); sqrt (1 / 2)];
     pdf := []; uk := []; ck := []; ak := [] |}.

(** An instance on the two-point grid [[0, 1/100]] (the default spacing of
    [SimParameters.py]), linearised. *)
Definition opt_fine_grid : ErgodicOpt :=
  {| R_weight := 1 / 20; Quinit := 0;
     P1 := 1; Qn := 1; Rn := 1; Qk := 1; Rk := 1;
     time := [0; 1 / 100];
     X_current := [0; 0]; U_current := [0; 0];
     A_current := [0; 0]; B_current := [1; 1];
     a_current := [0; 0]; b_current := [0; 0];
     barrcost := 100; ergcost := 5; Nfourier := 3; uinit := 0;
     dimw := 1; wlimit := 1; tRes := 2; res := 2;
     eidTime := [0; 1 / 100]; xlist := [0; 1];
     Lambdak := [1; 1 / 2; 1 / 5];
     klist := [0; PI; 2 * PI];
     hk := [1; sqrt (1 / 2); sqrt (1 / 2)];
     pdf := []; uk := []; ck := []; ak := [] |}.

(** Simulators that always return, and simulators whose [EIDSim] raises the
    given exception. *)
Definition sim_ok : simulators :=
  {| EIH_Sim := fun _ => None; EIDSim := fun _ => None; loadMothData := None |}.

Definition sim_raising (e : exception) : simulators :=
  {| EIH_Sim := fun _ => None; EIDSim := fun _ => Some e;
     loadMothData := None |}.

(** A linearised instance on the grid [[1, 2]], which does not start at
    [t = 0]. *)
Definition opt_shifted_grid : ErgodicOpt :=
  {| R_weight := 1 / 20; Quinit := 0;
     P1 := 1; Qn := 1; Rn := 1; Qk := 1; Rk := 1;
     time := [1; 2];
     X_current := [0; 0]; U_current := [0; 0];
     A_current := [0; 0]; B_current := [1; 1];
     a_current := [0; 0]; b_current := [0; 0];
     barrcost := 100; ergcost := 5; Nfourier := 3; uinit := 0;
     dimw := 1; wlimit := 1; tRes := 2; res := 2;
     eidTime := [0; 1]; xlist := [0; 1];
     Lambdak := [1; 1 / 2; 1 / 5];
     klist := [0; PI; 2 * PI];
     hk := [1; sqrt (1 / 2); sqrt (1 / 2)];
     pdf := []; uk := []; ck := []; ak := [] |}.



(** * Properties *)

Section ErgodicMetric.

Lemma np_sum_erg_cons (l x y : R) (L c u : list R) :
  np_sum (erg_terms (l :: L) (x :: c) (y :: u)) =
  l * (x - y) ^ 2 + np_sum (erg_terms L c u).
Proof. reflexivity. Qed.

Lemma np_sum_erg_nonneg (L c u : list R) :
  Forall (fun l => 0 < l) L -> 0 <= np_sum (erg_terms L c u).
Proof.
  intros HL. revert c u.
  induction HL as [|l L Hl _ IH]; intros [|x c] [|y u];
    try (simpl; lra).
  rewrite np_sum_erg_cons. specialize (IH c u).
  pose proof (pow2_ge_0 (x - y)). nra.
Qed.

Lemma np_sum_erg_zero (L c u : list R) :
  Forall (fun l => 0 < l) L ->
  length c = length L -> length u = length L ->
  np_sum (erg_terms L c u) = 0 -> c = u.
Proof.
  intros HL. revert c u.
  induction HL as [|l L Hl HL IH]; intros [|x c] [|y u];
    try (simpl; discriminate); auto.
  rewrite np_sum_erg_cons. simpl length. intros Hc Hu Hs.
  pose proof (np_sum_erg_nonneg L c u HL) as Hge.
  pose proof (pow2_ge_0 (x - y)) as Hsq.
  assert (Hprod : 0 <= l * (x - y) ^ 2) by nra.
  assert (Hxy : l * (x - y) ^ 2 = 0) by lra.
  assert (Htl : np_sum (erg_terms L c u) = 0) by lra.
  f_equal.
  - assert (H0 : (x - y) ^ 2 = 0) by nra.
    assert (x - y = 0) by nra. lra.
  - apply IH; auto.
Qed.

Lemma np_sum_erg_refl (L c : list R) : np_sum (erg_terms L c c) = 0.
Proof.
  revert c. induction L as [|l L IH]; intros [|x c]; auto.
  rewrite np_sum_erg_cons, IH. ring.
Qed.

Lemma np_sum_erg_abs_eq (L c u c' u' : list R) :
  length c = length L -> length u = length L ->
  length c' = length L -> length u' = length L ->
  (forall i, (i < length L)%nat ->
     Rabs (nth i c' 0 - nth i u' 0) = Rabs (nth i c 0 - nth i u 0)) ->
  np_sum (erg_terms L c' u') = np_sum (erg_terms L c u).
Proof.
  revert c u c' u'.
  induction L as [|l L IH]; intros [|x c] [|y u] [|x' c'] [|y' u'];
    try (simpl; discriminate); auto.
  rewrite !np_sum_erg_cons. simpl length. intros Hc Hu Hc' Hu' Hall.
  rewrite (IH c u c' u') by
    (try lia; intros i Hi; apply (Hall (S i)); lia).
  pose proof (Hall O ltac:(lia)) as H0. simpl in H0.
  rewrite <- (pow2_abs (x' - y')), <- (pow2_abs (x - y)), H0. reflexivity.
Qed.

Lemma np_sum_erg_mono (L c u c' u' : list R) (j : nat) :
  Forall (fun l => 0 < l) L ->
  length c = length L -> length u = length L ->
  length c' = length L -> length u' = length L ->
  (j < length L)%nat ->
  (forall i, (i < length L)%nat -> i <> j ->
     Rabs (nth i c' 0 - nth i u' 0) = Rabs (nth i c 0 - nth i u 0)) ->
  Rabs (nth j c 0 - nth j u 0) < Rabs (nth j c' 0 - nth j u' 0) ->
  np_sum (erg_terms L c u) < np_sum (erg_terms L c' u').
Proof.
  intros HL. revert c u c' u' j.
  induction HL as [|l L Hl HL IH]; intros [|x c] [|y u] [|x' c'] [|y' u'] j;
    try (simpl; discriminate); try (simpl; lia).
  rewrite !np_sum_erg_cons. simpl length.
  intros Hc Hu Hc' Hu' Hj Hall Hlt.
  destruct j as [|j]; simpl in Hlt.
  - rewrite (np_sum_erg_abs_eq L c u c' u') by
      (try lia; intros i Hi; apply (Hall (S i)); lia).
    assert (Hsq : (x - y) ^ 2 < (x' - y') ^ 2).
    { rewrite <- (pow2_abs (x' - y')), <- (pow2_abs (x - y)).
      pose proof (Rabs_pos (x - y)). nra. }
    nra.
  - pose proof (Hall O ltac:(lia) ltac:(lia)) as H0. simpl in H0.
    assert (Hsq : (x - y) ^ 2 = (x' - y') ^ 2).
    { rewrite <- (pow2_abs (x' - y')), <- (pow2_abs (x - y)), H0.
      reflexivity. }
    rewrite Hsq.
    assert (np_sum (erg_terms L c u) < np_sum (erg_terms L c' u')).
    { apply (IH c u c' u' j); try lia; auto.
      intros i Hi Hij. apply (Hall (S i)); lia. }
    lra.
Qed.

End ErgodicMetric.

(** ** Generic facts about [omap_list] and [np_arange] *)

Section OptionLists.
Context {A B : Type}.

Lemma omap_list_length (f : A -> option B) (l : list A) (r : list B) :
  omap_list f l = Some r -> length r = length l.
Proof.
  revert r. induction l as [|a l IH]; simpl; intros r H.
  - inversion H; reflexivity.
  - destruct (f a) as [b|]; simpl in H; [|discriminate].
    destruct (omap_list f l) as [bs|]; simpl in H; [|discriminate].
    inversion H; subst; simpl. f_equal. apply IH; reflexivity.
Qed.

Lemma omap_list_nth (f : A -> option B) (l : list A) (r : list B)
      (da : A) (db : B) (i : nat) :
  omap_list f l = Some r -> (i < length l)%nat ->
  f (nth i l da) = Some (nth i r db).
Proof.
  revert r i. induction l as [|a l IH]; simpl; intros r i H Hi; [lia|].
  destruct (f a) as [b|] eqn:Hb; simpl in H; [|discriminate].
  destruct (omap_list f l) as [bs|]; simpl in H; [|discriminate].
  inversion H; subst. destruct i as [|i]; simpl; auto.
  apply IH; auto; lia.
Qed.

Lemma omap_list_total (f : A -> option B) (l : list A) :
  (forall a, In a l -> exists b, f a = Some b) ->
  exists r, omap_list f l = Some r.
Proof.
  induction l as [|a l IH]; simpl; intros H.
  - eexists; reflexivity.
  - destruct (H a (or_introl eq_refl)) as [b Hb]. rewrite Hb. simpl.
    destruct IH as [bs Hbs]; [intros; apply H; auto|].
    rewrite Hbs. simpl. eexists; reflexivity.
Qed.

End OptionLists.

Lemma np_arange_length (n : Z) : length (np_arange n) = Z.to_nat n.
Proof. unfold np_arange. rewrite length_map, length_seq. reflexivity. Qed.

Lemma np_arange_nth (n : Z) (i : nat) :
    (i < Z.to_nat n)%nat -> nth i (np_arange n) 0%Z = Z.of_nat i.
Proof.
    intros Hi. unfold np_arange.
    rewrite (nth_indep _ 0%Z (Z.of_nat 0)) by (rewrite length_map, length_seq; lia).
    rewrite map_nth, seq_nth by lia. reflexivity.
Qed.

(** ** Spectral smoothing weights *)

Section SmoothingWeights.

Lemma wrap64_small (z : Z) :
  (- 2 ^ 63 <= z < 2 ^ 63)%Z -> wrap64 z = z.
Proof. intros H. unfold wrap64. rewrite Z.mod_small; lia. Qed.

Lemma wrap64_mod4 (z : Z) : (wrap64 z mod 4 = z mod 4)%Z.
Proof.
  unfold wrap64.
  pose proof (Z.div_mod (z + 2 ^ 63) (2 ^ 64) ltac:(lia)) as H.
  set (q := ((z + 2 ^ 63) / 2 ^ 64)%Z) in *.
  set (r := ((z + 2 ^ 63) mod 2 ^ 64)%Z) in *.
  replace (r - 2 ^ 63)%Z with (z + (- q * 2 ^ 62) * 4)%Z by lia.
  apply Z.mod_add. lia.
Qed.

Lemma square_mod4 (k : Z) : ((k * k) mod 4 = 0 \/ (k * k) mod 4 = 1)%Z.
Proof.
  pose proof (Z.div_mod k 4 ltac:(lia)) as H.
  pose proof (Z.mod_pos_bound k 4 ltac:(lia)) as Hr.
  set (q := (k / 4)%Z) in *. set (r := (k mod 4)%Z) in *.
  replace (k * k)%Z with (r * r + (4 * q * q + 2 * q * r) * 4)%Z by nia.
  rewrite Z.mod_add by lia.
  assert (Hc : (r = 0 \/ r = 1 \/ r = 2 \/ r = 3)%Z) by lia.
  destruct Hc as [-> | [-> | [-> | ->]]]; cbn; auto.
Qed.

(** The base of the power is never zero, also after an overflow. *)
Lemma wrapped_square_base_nonzero (k : Z) : 1 + IZR (wrap64 (k * k)) <> 0.
Proof.
  intros H.
  assert (Hw : wrap64 (k * k) = (-1)%Z).
  { apply eq_IZR. lra. }
  pose proof (wrap64_mod4 (k * k)) as Hm. rewrite Hw in Hm.
  change ((-1) mod 4)%Z with 3%Z in Hm.
  destruct (square_mod4 k); lia.
Qed.

Lemma Int_part_1 : Int_part 1 = 1%Z.
Proof. symmetry. apply Int_part_spec. simpl. lra. Qed.

Lemma float_power_1 (x : R) : x <> 0 -> float_power x 1 = Some x.
Proof.
  intros Hx. unfold float_power.
  destruct (Rlt_dec 0 x) as [Hp|Hn].
  - rewrite Rpower_1 by assumption. reflexivity.
  - rewrite Int_part_1.
    destruct (Req_dec_T 1 1) as [_|Hc]; [|contradiction].
    destruct (Req_dec_T x 0) as [Hz|_]; [contradiction|].
    f_equal. simpl. ring.
Qed.

(** With [dimw = 1] the exponent is [1.0] and the weight is the reciprocal
    of the (possibly wrapped) base. *)
Lemma Lambdak_at_1 (k : Z) :
  Lambdak_at 1 k = Some (1 / (1 + IZR (wrap64 (k * k)))).
Proof.
  unfold Lambdak_at.
  rewrite float_power_1 by apply wrapped_square_base_nonzero.
  simpl. unfold fdiv.
  destruct (Req_dec_T _ 0) as [H|_]; auto.
  exfalso. exact (wrapped_square_base_nonzero k H).
Qed.

Lemma klist_at_1 (k : Z) : klist_at 1 k = Some (IZR k * PI).
Proof.
  unfold klist_at, fdiv.
  destruct (Req_dec_T 1 0) as [H|_]; [lra|].
  simpl. f_equal. field.
Qed.

(** The constructor succeeds on every grid of two or more samples, for
    every number of modes that is not negative. *)
Lemma ErgodicOpt_init_defined (p : ErgodicParameters.t) (u0 : R) :
  (2 <= length (ErgodicParameters.time p))%nat ->
  (0 <= ErgodicParameters.nFourier p)%Z ->
  exists Lk kl self,
    omap_list (Lambdak_at 1) (np_arange (ErgodicParameters.nFourier p)) = Some Lk /\
    omap_list (klist_at 1) (np_arange (ErgodicParameters.nFourier p)) = Some kl /\
    ErgodicOpt_init p u0 = Some self /\
    Lambdak self = Lk /\ klist self = kl /\ hk self = map hk_at kl /\
    time self = ErgodicParameters.time p /\
    wlimit self = 1 /\ dimw self = 1%Z /\
    Nfourier self = ErgodicParameters.nFourier p /\
    res self = ErgodicParameters.res p /\
    eidTime self = ErgodicParameters.eidTime p /\
    xlist self = linspace 0 1 (ErgodicParameters.tRes p) /\
    R_weight self = ErgodicParameters.wControl p /\
    Quinit self = ErgodicParameters.wInitCtrl p /\
    uinit self = u0.
Proof.
  intros Hlen Hnn.
  destruct (omap_list_total (Lambdak_at 1)
              (np_arange (ErgodicParameters.nFourier p))) as [Lk HLk].
  { intros a _. rewrite Lambdak_at_1. eexists; reflexivity. }
  destruct (omap_list_total (klist_at 1)
              (np_arange (ErgodicParameters.nFourier p))) as [kl Hkl].
  { intros a _. rewrite klist_at_1. eexists; reflexivity. }
  exists Lk, kl. unfold ErgodicOpt_init.
  destruct (Nat.ltb_spec (length (ErgodicParameters.time p)) 2) as [Hc|_];
    [lia|].
  replace ((IZR 1 + 1) / 2) with 1 by field.
  rewrite HLk, Hkl. cbn [obind].
  destruct (Z.ltb_spec (ErgodicParameters.nFourier p) 0) as [Hc|_]; [lia|].
  eexists. repeat split; reflexivity.
Qed.

(** What a returned instance says about the parameters. *)
Lemma ErgodicOpt_init_inv (p : ErgodicParameters.t) (u0 : R)
      (self : ErgodicOpt) :
  ErgodicOpt_init p u0 = Some self ->
  (2 <= length (ErgodicParameters.time p))%nat /\
  (0 <= ErgodicParameters.nFourier p)%Z /\
  time self = ErgodicParameters.time p /\
  Nfourier self = ErgodicParameters.nFourier p /\
  uk self = [] /\ Qn self = 1 /\ Qk self = 1.
Proof.
  unfold ErgodicOpt_init. intros Hinit.
  destruct (Nat.ltb_spec (length (ErgodicParameters.time p)) 2) as [|Hlen];
    [discriminate|].
  destruct (omap_list _ _) as [Lk|]; [|discriminate]. cbn [obind] in Hinit.
  destruct (omap_list _ _) as [kl|]; [|discriminate]. cbn [obind] in Hinit.
  destruct (Z.ltb_spec (ErgodicParameters.nFourier p) 0) as [|Hnn];
    [discriminate|].
  inversion Hinit. repeat split; auto.
Qed.

End SmoothingWeights.

Section SmoothingWeightsClaims.

Lemma INR_square_IZR (k : nat) :
  IZR (Z.of_nat k * Z.of_nat k) = INR k ^ 2.
Proof. rewrite mult_IZR, <- INR_IZR_INZ. ring. Qed.

Lemma Lambdak_nth (p : ErgodicParameters.t) (u0 : R) (self : ErgodicOpt)
      (k : nat) :
  ErgodicOpt_init p u0 = Some self ->
  (2 <= length (ErgodicParameters.time p))%nat ->
  (k < Z.to_nat (ErgodicParameters.nFourier p))%nat ->
  nth k (Lambdak self) 0 =
    1 / (1 + IZR (wrap64 (Z.of_nat k * Z.of_nat k))).
Proof.
  intros Hinit Hlen Hk.
  destruct (ErgodicOpt_init_defined p u0 Hlen ltac:(lia))
    as (Lk & kl & self' & HLk & _ & Hinit' & HL & _).
  rewrite Hinit in Hinit'. inversion Hinit'; subst self'.
  pose proof (omap_list_nth _ _ _ 0%Z 0 k HLk) as Hn.
  rewrite np_arange_length in Hn. specialize (Hn Hk).
  rewrite np_arange_nth, Lambdak_at_1 in Hn by assumption.
  rewrite HL. inversion Hn. reflexivity.
Qed.

(** C7: for every number of Fourier modes from 0 up to 3037000500 (a bound
    far above any array the constructor can build, under which the squares
    [klist ** 2] are exact in [int64]), the constructor stores
    [Lambdak[k] = (1 + k^2) ^ (-(dimw + 1) / 2) = 1 / (1 + k^2)] for every
    [k] in [0 .. nFourier - 1]; every weight is strictly positive, and the
    weights strictly decrease with the mode index [k]. *)
Theorem Lambdak_positive_decreasing
        (p : ErgodicParameters.t) (u0 : R) :
  (2 <= length (ErgodicParameters.time p))%nat ->
  (0 <= ErgodicParameters.nFourier p <= 3037000500)%Z ->
  exists self,
    ErgodicOpt_init p u0 = Some self /\
    length (Lambdak self) = Z.to_nat (ErgodicParameters.nFourier p) /\
    (forall k, (k < Z.to_nat (ErgodicParameters.nFourier p))%nat ->
       nth k (Lambdak self) 0 =
         Rpower (1 + INR k ^ 2) (- (IZR (dimw self) + 1) / 2) /\
       nth k (Lambdak self) 0 = 1 / (1 + INR k ^ 2) /\
       0 < nth k (Lambdak self) 0) /\
    (forall j k, (j < k)%nat ->
       (k < Z.to_nat (ErgodicParameters.nFourier p))%nat ->
       nth k (Lambdak self) 0 < nth j (Lambdak self) 0).
Proof.
  intros Hlen [Hnn Hn].
  destruct (ErgodicOpt_init_defined p u0 Hlen Hnn)
    as (Lk & kl & self & HLk & _ & Hinit & HL & _ & _ & _ & _ & Hd & _).
  assert (Hval : forall k,
    (k < Z.to_nat (ErgodicParameters.nFourier p))%nat ->
    nth k (Lambdak self) 0 = 1 / (1 + INR k ^ 2)).
  { intros k Hk. rewrite (Lambdak_nth p u0 self k Hinit Hlen Hk).
    rewrite wrap64_small by nia.
    rewrite INR_square_IZR. reflexivity. }
  assert (Hpos : forall k : nat, 0 < 1 + INR k ^ 2).
  { intros k. pose proof (pow2_ge_0 (INR k)). lra. }
  exists self. split; [exact Hinit|]. split.
  { rewrite HL, (omap_list_length _ _ _ HLk). apply np_arange_length. }
  split.
  - intros k Hk. rewrite (Hval k Hk). repeat split.
    + rewrite Hd.
      replace (- (IZR 1 + 1) / 2) with (- (1)) by field.
      rewrite Rpower_Ropp, Rpower_1 by apply Hpos.
      unfold Rdiv. ring.
    + apply Rdiv_lt_0_compat; [lra | apply Hpos].
  - intros j k Hjk Hk.
    rewrite (Hval k Hk), (Hval j) by lia.
    unfold Rdiv. rewrite !Rmult_1_l.
    apply Rinv_0_lt_contravar; [apply Hpos|].
    pose proof (lt_INR j k Hjk). pose proof (pos_INR j). nra.
Qed.

Lemma Lambdak_positive_decreasing_witness :
  exists self,
    ErgodicOpt_init params_small 0 = Some self /\
    length (Lambdak self) =
      Z.to_nat (ErgodicParameters.nFourier params_small) /\
    (forall k, (k < Z.to_nat (ErgodicParameters.nFourier params_small))%nat ->
       nth k (Lambdak self) 0 =
         Rpower (1 + INR k ^ 2) (- (IZR (dimw self) + 1) / 2) /\
       nth k (Lambdak self) 0 = 1 / (1 + INR k ^ 2) /\
       0 < nth k (Lambdak self) 0) /\
    (forall j k, (j < k)%nat ->
       (k < Z.to_nat (ErgodicParameters.nFourier params_small))%nat ->
       nth k (Lambdak self) 0 < nth j (Lambdak self) 0).
Proof.
  apply (Lambdak_positive_decreasing params_small 0).
  - simpl. lia.
  - simpl. lia.
Defined.

(** A negative number of modes is refused. *)
Lemma ErgodicOpt_init_negative (p : ErgodicParameters.t) (u0 : R) :
  (ErgodicParameters.nFourier p < 0)%Z -> ErgodicOpt_init p u0 = None.
Proof.
  intros Hneg. unfold ErgodicOpt_init.
  destruct (length (ErgodicParameters.time p) <? 2)%nat; [reflexivity|].
  destruct (omap_list _ _) as [Lk|]; [|reflexivity]. cbn [obind].
  destruct (omap_list _ _) as [kl|]; [|reflexivity]. cbn [obind].
  destruct (Z.ltb_spec (ErgodicParameters.nFourier p) 0); [reflexivity | lia].
Qed.

End SmoothingWeightsClaims.

Section ErgodicMetricClaims.

(** C1: for an instance whose [Lambdak], [ck] and [uk] have [Nfourier]
    entries and whose weights are all strictly positive,
    [calculate_ergodicity] returns 0 exactly when [ck = uk] elementwise and
    is strictly positive otherwise; and for a second instance with the same
    weights in which one [|ck[j] - uk[j]|] is larger and all the others are
    unchanged, the returned value is strictly larger. *)
Theorem calculate_ergodicity_zero_iff_equal (self : ErgodicOpt) :
  length (Lambdak self) = Z.to_nat (Nfourier self) ->
  length (ck self) = Z.to_nat (Nfourier self) ->
  length (uk self) = Z.to_nat (Nfourier self) ->
  Forall (fun l => 0 < l) (Lambdak self) ->
  (calculate_ergodicity self = 0 <-> ck self = uk self) /\
  (ck self <> uk self -> 0 < calculate_ergodicity self) /\
  (forall (self' : ErgodicOpt) (j : nat),
      Lambdak self' = Lambdak self ->
      length (ck self') = Z.to_nat (Nfourier self) ->
      length (uk self') = Z.to_nat (Nfourier self) ->
      (j < Z.to_nat (Nfourier self))%nat ->
      (forall i, (i < Z.to_nat (Nfourier self))%nat -> i <> j ->
         Rabs (nth i (ck self') 0 - nth i (uk self') 0) =
         Rabs (nth i (ck self) 0 - nth i (uk self) 0)) ->
      Rabs (nth j (ck self) 0 - nth j (uk self) 0) <
      Rabs (nth j (ck self') 0 - nth j (uk self') 0) ->
      calculate_ergodicity self < calculate_ergodicity self').
Proof.
  intros HL Hc Hu Hpos. unfold calculate_ergodicity.
  assert (Hiff : np_sum (erg_terms (Lambdak self) (ck self) (uk self)) = 0
                 <-> ck self = uk self).
  { split.
    - apply np_sum_erg_zero; auto; congruence.
    - intros ->. apply np_sum_erg_refl. }
  split; [exact Hiff|]. split.
  - intros Hne.
    pose proof (np_sum_erg_nonneg _ (ck self) (uk self) Hpos) as Hge.
    destruct Hge as [Hlt|Heq]; [exact Hlt|].
    exfalso. apply Hne, Hiff. symmetry. exact Heq.
  - intros self' j HL' Hc' Hu' Hj Hall Hlt. rewrite HL'.
    apply (np_sum_erg_mono _ _ _ _ _ j); auto; try congruence.
    rewrite HL. exact Hall.
Qed.

Lemma calculate_ergodicity_witness :
  let self := opt_with_coefficients [1; 2; 3] [1; 2; 5] in
  (calculate_ergodicity self = 0 <-> ck self = uk self) /\
  (ck self <> uk self -> 0 < calculate_ergodicity self) /\
  (forall (self' : ErgodicOpt) (j : nat),
      Lambdak self' = Lambdak self ->
      length (ck self') = Z.to_nat (Nfourier self) ->
      length (uk self') = Z.to_nat (Nfourier self) ->
      (j < Z.to_nat (Nfourier self))%nat ->
      (forall i, (i < Z.to_nat (Nfourier self))%nat -> i <> j ->
         Rabs (nth i (ck self') 0 - nth i (uk self') 0) =
         Rabs (nth i (ck self) 0 - nth i (uk self) 0)) ->
      Rabs (nth j (ck self) 0 - nth j (uk self) 0) <
      Rabs (nth j (ck self') 0 - nth j (uk self') 0) ->
      calculate_ergodicity self < calculate_ergodicity self').
Proof.
  intros self.
  apply (calculate_ergodicity_zero_iff_equal self).
  - reflexivity.
  - reflexivity.
  - reflexivity.
  - simpl. repeat constructor; lra.
Defined.

(** On the instance of the witness the metric is [1/5 * (3 - 5)^2]. *)
Example calculate_ergodicity_example :
  calculate_ergodicity (opt_with_coefficients [1; 2; 3] [1; 2; 5]) = 4 / 5.
Proof. unfold calculate_ergodicity. simpl. field. Qed.

End ErgodicMetricClaims.

(** ** Trapezoidal quadrature and the barrier *)

Section Barrier.

Lemma trapz_sum_cons2 (y0 y1 x0 x1 : R) (y x : list R) :
  trapz_sum (y0 :: y1 :: y) (x0 :: x1 :: x) =
  (x1 - x0) * (y0 + y1) / 2 + trapz_sum (y1 :: y) (x1 :: x).
Proof. reflexivity. Qed.

Lemma trapz_defined (y x : list R) :
  length y = length x -> trapz y x = Some (trapz_sum y x).
Proof. intros H. unfold trapz. rewrite H, Nat.eqb_refl. reflexivity. Qed.

Lemma trapz_sum_zero (y x : list R) :
  Forall (fun v => v = 0) y -> trapz_sum y x = 0.
Proof.
  intros Hy. revert x.
  induction Hy as [|y0 y Hy0 Hy IH]; intros x; [reflexivity|].
  destruct y as [|y1 y]; [destruct x; reflexivity|].
  destruct x as [|x0 [|x1 x]]; try reflexivity.
  rewrite trapz_sum_cons2, IH. inversion Hy; subst. lra.
Qed.

Lemma trapz_sum_nonneg (y x : list R) :
  Forall (fun v => 0 <= v) y -> increasing x -> 0 <= trapz_sum y x.
Proof.
  intros Hy. revert x.
  induction Hy as [|y0 y Hy0 Hy IH]; intros x Hx; [simpl; lra|].
  destruct y as [|y1 y]; [destruct x; simpl; lra|].
  destruct x as [|x0 [|x1 x]]; try (simpl; lra).
  rewrite trapz_sum_cons2. destruct Hx as [Hlt Hx].
  specialize (IH _ Hx). inversion Hy; subst. nra.
Qed.

Lemma trapz_sum_pos (y x : list R) :
  Forall (fun v => 0 <= v) y -> Exists (fun v => 0 < v) y ->
  length y = length x -> (2 <= length x)%nat -> increasing x ->
  0 < trapz_sum y x.
Proof.
  intros Hy. revert x.
  induction Hy as [|y0 y Hy0 Hy IH]; intros x Hex Hlen H2 Hx;
    [inversion Hex|].
  destruct y as [|y1 y]; [simpl in Hlen; lia|].
  destruct x as [|x0 [|x1 x]]; try (simpl in H2; lia).
  rewrite trapz_sum_cons2. destruct Hx as [Hlt Hx].
  pose proof (trapz_sum_nonneg _ _ Hy Hx) as Hrest.
  assert (Hy1 : 0 <= y1) by (inversion Hy; assumption).
  inversion Hex as [? ? Hhd | ? ? Htl]; subst.
  - nra.
  - destruct y as [|y2 y].
    + inversion Htl as [? ? Hhd | ? ? Hnil]; subst; [|inversion Hnil].
      nra.
    + assert (0 < trapz_sum (y1 :: y2 :: y) (x1 :: x)).
      { apply IH; auto. simpl in *; lia. }
      nra.
Qed.

(** The two masks of [barrier] select disjoint samples when the upper limit
    is not negative, so the entry is the claimed piecewise penalty. *)
Lemma barr_point_piecewise (wl x : R) :
  0 <= wl ->
  barr_point wl x =
    if Rlt_dec wl x then (x - wl) ^ 2
    else if Rlt_dec x 0 then x ^ 2 else 0.
Proof.
  intros Hwl. unfold barr_point, Rsqr.
  destruct (Rlt_dec wl x), (Rlt_dec x 0); try lra; ring.
Qed.

Lemma barr_point_nonneg (wl x : R) : 0 <= barr_point wl x.
Proof.
  unfold barr_point.
  destruct (Rlt_dec wl x), (Rlt_dec x 0);
    pose proof (Rle_0_sqr (x - wl)); pose proof (Rle_0_sqr x); lra.
Qed.

Lemma barr_point_inside (wl x : R) : 0 <= x <= wl -> barr_point wl x = 0.
Proof.
  intros [H0 H1]. unfold barr_point.
  destruct (Rlt_dec wl x), (Rlt_dec x 0); lra.
Qed.

Lemma barr_point_outside (wl x : R) :
  0 <= wl -> ~ (0 <= x <= wl) -> 0 < barr_point wl x.
Proof.
  intros Hwl Hout. unfold barr_point.
  destruct (Rlt_dec wl x), (Rlt_dec x 0); try lra.
  - pose proof (Rlt_0_sqr (x - wl) ltac:(lra)). lra.
  - pose proof (Rlt_0_sqr x ltac:(lra)). lra.
Qed.

(** C4: on a time grid (two or more strictly increasing samples) and for a
    state trajectory with one sample per grid point, [barrier] is the
    trapezoidal quadrature of the pointwise penalty [(x - wlimit)^2] above
    the interval, [x^2] below it and 0 inside; it returns exactly 0 when
    every sample is in [[0, wlimit]] and a strictly positive value when
    some sample is outside. *)
Theorem barrier_zero_inside_positive_outside
        (self : ErgodicOpt) (xk : list R) :
  time_grid (time self) ->
  0 <= wlimit self ->
  length xk = length (time self) ->
  barrier self xk =
    trapz (map (fun x => if Rlt_dec (wlimit self) x
                         then (x - wlimit self) ^ 2
                         else if Rlt_dec x 0 then x ^ 2 else 0) xk)
          (time self) /\
  (Forall (fun x => 0 <= x <= wlimit self) xk -> barrier self xk = Some 0) /\
  (Exists (fun x => ~ (0 <= x <= wlimit self)) xk ->
   exists v, barrier self xk = Some v /\ 0 < v).
Proof.
  intros [H2 Hinc] Hwl Hlen. unfold barrier. split; [|split].
  - f_equal. apply map_ext. intros x. apply barr_point_piecewise, Hwl.
  - intros Hin. rewrite trapz_defined by (rewrite length_map; exact Hlen).
    f_equal. apply trapz_sum_zero.
    apply Forall_map. eapply Forall_impl; [|exact Hin].
    intros x Hx. apply barr_point_inside, Hx.
  - intros Hout. rewrite trapz_defined by (rewrite length_map; exact Hlen).
    eexists. split; [reflexivity|].
    apply trapz_sum_pos; auto.
    + apply Forall_map, Forall_forall. intros x _. apply barr_point_nonneg.
    + apply Exists_map. eapply Exists_impl; [|exact Hout].
      intros x Hx. apply barr_point_outside; assumption.
    + rewrite length_map. exact Hlen.
Qed.

Lemma barrier_witness :
  let self := opt_with_coefficients [] [] in
  let xk := [1 / 2; 3 / 2; - 1] in
  barrier self xk =
    trapz (map (fun x => if Rlt_dec (wlimit self) x
                         then (x - wlimit self) ^ 2
                         else if Rlt_dec x 0 then x ^ 2 else 0) xk)
          (time self) /\
  (Forall (fun x => 0 <= x <= wlimit self) xk -> barrier self xk = Some 0) /\
  (Exists (fun x => ~ (0 <= x <= wlimit self)) xk ->
   exists v, barrier self xk = Some v /\ 0 < v).
Proof.
  intros self xk.
  apply (barrier_zero_inside_positive_outside self xk).
  - split; simpl; [lia | lra].
  - simpl. lra.
  - reflexivity.
Defined.

End Barrier.

(** ** Control cost *)

Section ControlCost.

Lemma per_sample_defined (f : R -> R -> R) (tm X U : list R) :
  length X = length tm -> length U = length tm ->
  per_sample f tm X U = Some (map (fun xu => f (fst xu) (snd xu)) (combine X U)).
Proof.
  revert X U. induction tm as [|t0 tm IH]; intros [|x X] [|u U];
    simpl; try discriminate; auto.
  intros HX HU. rewrite IH by lia. reflexivity.
Qed.

Lemma map_combine_snd {A : Type} (g : R -> A) (X U : list R) :
  length X = length U ->
  map (fun xu => g (snd xu)) (combine X U) = map g U.
Proof.
  revert U. induction X as [|x X IH]; intros [|u U]; simpl;
    try discriminate; auto.
  intros H. rewrite IH by lia. reflexivity.
Qed.

Lemma cost_pointwise_quadratic (self : ErgodicOpt) (x u : R) :
  cost_pointwise self x u = 0.5 * u * R_weight self * u.
Proof. unfold cost_pointwise, matmult. simpl. ring. Qed.

(** C3, as amended: for trajectories with one sample per grid point,
    [cost] (and [eval_cost] on the current trajectory) is the trapezoidal
    quadrature of the quadratic control effort [0.5·u·R·u] alone; it does
    not depend on [Quinit], which only enters the control gradient that
    [dldu] stores, as [uinit * Quinit] added at the first grid point. *)
Theorem cost_is_trapz_of_control_effort
        (self : ErgodicOpt) (X U : list R) :
  length X = length (time self) ->
  length U = length (time self) ->
  cost self X U =
    trapz (map (fun u => 0.5 * u * R_weight self * u) U) (time self) /\
  (X_current self = X -> U_current self = U ->
   eval_cost self = cost self X U) /\
  (forall q, cost (set_Quinit q self) X U = cost self X U) /\
  (forall u0 U', U = u0 :: U' -> X_current self = X -> U_current self = U ->
     exists self', dldu self = Some self' /\
       b_current self' =
         (R_weight self * u0 + uinit self * Quinit self)
         :: map (fun u => R_weight self * u) U').
Proof.
  intros HX HU. split; [|split; [|split]].
  - unfold cost. rewrite per_sample_defined by assumption. simpl.
    f_equal. rewrite <- (map_combine_snd _ X U) by congruence.
    apply map_ext. intros [x u]. apply cost_pointwise_quadratic.
  - intros <- <-. reflexivity.
  - intros q. reflexivity.
  - intros u0 U' HU0 HXc HUc. unfold dldu.
    rewrite HXc, HUc, per_sample_defined by assumption. simpl.
    subst U. destruct X as [|x0 X']; [simpl in *; lia|]. simpl.
    eexists. split; [reflexivity|]. simpl.
    unfold dldu_pointwise at 1. simpl. f_equal.
    rewrite <- (map_combine_snd _ X' U') by (simpl in *; lia).
    apply map_ext. intros [x u]. unfold dldu_pointwise. simpl. reflexivity.
Qed.

Lemma cost_witness :
  let self := opt_on_grid (1 / 20) 2 1 [0; 0; 0] [1; 1; 1] in
  let X := [0; 0; 0] in
  let U := [1; 1; 1] in
  cost self X U =
    trapz (map (fun u => 0.5 * u * R_weight self * u) U) (time self) /\
  (X_current self = X -> U_current self = U ->
   eval_cost self = cost self X U) /\
  (forall q, cost (set_Quinit q self) X U = cost self X U) /\
  (forall u0 U', U = u0 :: U' -> X_current self = X -> U_current self = U ->
     exists self', dldu self = Some self' /\
       b_current self' =
         (R_weight self * u0 + uinit self * Quinit self)
         :: map (fun u => R_weight self * u) U').
Proof.
  intros self X U.
  apply (cost_is_trapz_of_control_effort self X U).
  - reflexivity.
  - reflexivity.
Defined.

(** C3 as stated fails: with [Quinit = 2], [uinit = 1], [R = 1/20] and the
    constant control 1 on the grid [0, 1/2, 1], [cost] returns [1/40], the
    quadrature of the control effort alone and the value it also returns
    with [Quinit = 0], while the cost with the initial-control term would be
    [21/40]. *)
Lemma cost_ignores_Quinit :
  let self := opt_on_grid (1 / 20) 2 1 [0; 0; 0] [1; 1; 1] in
  Quinit self = 2 /\ uinit self = 1 /\
  cost self [0; 0; 0] [1; 1; 1] = Some (1 / 40) /\
  eval_cost self = Some (1 / 40) /\
  cost (set_Quinit 0 self) [0; 0; 0] [1; 1; 1] = Some (1 / 40) /\
  trapz (map (fun u => 0.5 * u * R_weight self * u) [1; 1; 1]) (time self)
    = Some (1 / 40) /\
  spec_cost self [0; 0; 0] [1; 1; 1] = Some (21 / 40) /\
  cost self [0; 0; 0] [1; 1; 1] <> spec_cost self [0; 0; 0] [1; 1; 1].
Proof.
  intros self.
  assert (Hc : cost self [0; 0; 0] [1; 1; 1] = Some (1 / 40)).
  { unfold cost, trapz. simpl. f_equal.
    rewrite cost_pointwise_quadratic. simpl. lra. }
  assert (Hs : spec_cost self [0; 0; 0] [1; 1; 1] = Some (21 / 40)).
  { unfold spec_cost, trapz. simpl. f_equal. lra. }
  assert (Ht : trapz (map (fun u => 0.5 * u * R_weight self * u) [1; 1; 1])
                     (time self) = Some (1 / 40)).
  { unfold trapz. simpl. f_equal. lra. }
  repeat split; auto.
  rewrite Hc, Hs. intros H. inversion H. lra.
Qed.

End ControlCost.

(** ** Normalisation of tracking data *)

Section Normalize.

Lemma np_sum_map_affine (a b : R) (l : list R) :
  np_sum (map (fun x => a * x + b) l) = a * np_sum l + INR (length l) * b.
Proof.
  induction l as [|x l IH].
  - simpl. ring.
  - change (np_sum (map (fun x => a * x + b) (x :: l)))
      with (a * x + b + np_sum (map (fun x => a * x + b) l)).
    change (np_sum (x :: l)) with (x + np_sum l).
    change (length (x :: l)) with (S (length l)).
    rewrite IH, S_INR. ring.
Qed.

Lemma omap_list_fdiv (d : R) (l : list R) :
  d <> 0 -> omap_list (fun x => fdiv x d) l = Some (map (fun x => x / d) l).
Proof.
  intros Hd. induction l as [|x l IH]; [reflexivity|].
  simpl. unfold fdiv at 1.
  destruct (Req_dec_T d 0) as [H|_]; [contradiction|].
  simpl. rewrite IH. reflexivity.
Qed.

Lemma np_max_map_mono (g : R -> R) (l : list R) (M : R) :
  (forall x y, x <= y -> g x <= g y) ->
  np_max l = Some M -> np_max (map g l) = Some (g M).
Proof.
  intros Hg. revert M. induction l as [|x l IH]; intros M; [discriminate|].
  simpl. destruct (np_max l) as [m|] eqn:Hm.
  - rewrite (IH m eq_refl). intros H; inversion H; subst. f_equal.
    unfold Rmax. destruct (Rle_dec x m) as [Hle|Hnle];
      destruct (Rle_dec (g x) (g m)) as [Hle'|Hnle']; auto.
    + exfalso. apply Hnle', Hg, Hle.
    + apply Rle_antisym; [apply Hg; lra | exact Hle'].
  - destruct l; [|simpl in Hm; destruct (np_max l); discriminate].
    simpl. intros H; inversion H; reflexivity.
Qed.

Lemma np_sum_le_max (l : list R) (M : R) :
  np_max l = Some M -> np_sum l <= INR (length l) * M.
Proof.
  revert M. induction l as [|x l IH]; intros M; [discriminate|].
  change (np_sum (x :: l)) with (x + np_sum l).
  change (length (x :: l)) with (S (length l)). rewrite S_INR.
  simpl. destruct (np_max l) as [m|] eqn:Hm.
  - intros H; inversion H; subst. specialize (IH m eq_refl).
    pose proof (Rmax_l x m). pose proof (Rmax_r x m).
    pose proof (pos_INR (length l)). nra.
  - destruct l; [|simpl in Hm; destruct (np_max l); discriminate].
    intros H; inversion H; subst. simpl. lra.
Qed.

Lemma np_mean_inv (l : list R) (m : R) :
  np_mean l = Some m ->
  INR (length l) <> 0 /\ np_sum l = INR (length l) * m.
Proof.
  unfold np_mean, fdiv.
  destruct (Req_dec_T (INR (length l)) 0) as [|Hn]; [discriminate|].
  intros H; inversion H; subst. split; [exact Hn|]. field. exact Hn.
Qed.

(** The largest deviation from the mean is never negative. *)
Lemma max_deviation_nonneg (s : list R) (m M : R) :
  np_mean s = Some m ->
  np_max (map (fun x => x - m) s) = Some M -> 0 <= M.
Proof.
  intros Hm HM. destruct (np_mean_inv _ _ Hm) as [Hn Hs].
  pose proof (np_sum_le_max _ _ HM) as Hle.
  rewrite length_map in Hle.
  assert (Hdev : np_sum (map (fun x => x - m) s) = 0).
  { rewrite (map_ext _ (fun x => 1 * x + - m)) by (intros; ring).
    rewrite np_sum_map_affine, Hs. ring. }
  rewrite Hdev in Hle.
  assert (0 < INR (length s)).
  { pose proof (pos_INR (length s)). lra. }
  nra.
Qed.

Lemma Int_part_m1 : Int_part (-1) = (-1)%Z.
Proof. symmetry. apply Int_part_spec. simpl. lra. Qed.

Lemma float_power_m1 (g : R) : g <> 0 -> float_power g (-1) = Some (/ g).
Proof.
  intros Hg. unfold float_power.
  destruct (Rlt_dec 0 g) as [Hp|Hn].
  - replace (-1) with (- (1)) by lra.
    rewrite Rpower_Ropp, Rpower_1 by assumption. reflexivity.
  - rewrite Int_part_m1.
    destruct (Req_dec_T (-1) (-1)) as [_|Hc]; [|contradiction].
    destruct (Req_dec_T g 0) as [Hz|_]; [contradiction|].
    f_equal. simpl. rewrite Rmult_1_r. reflexivity.
Qed.

(** Both series go through the same affine map whenever the scale is
    defined, whatever the sign of the gain. *)
Lemma normalize_affine (s t : list R) (mid gain m M : R) :
  np_mean s = Some m ->
  np_max (map (fun x => x - m) s) = Some M ->
  M <> 0 -> gain <> 0 ->
  normalize s t mid gain =
    Some (map (fun x => (x - m) * gain / M + mid) s,
          map (fun x => (x - m) * gain / M + mid) t).
Proof.
  intros Hm HM HM0 Hg. unfold normalize.
  rewrite Hm. simpl. rewrite HM. simpl.
  rewrite float_power_m1 by assumption. simpl.
  assert (Hsc : M * / gain <> 0).
  { apply Rmult_integral_contrapositive_currified; auto.
    apply Rinv_neq_0_compat; assumption. }
  rewrite !omap_list_fdiv by assumption. simpl.
  rewrite !map_map. f_equal. f_equal; apply map_ext; intros x; field; auto.
Qed.

(** C10, as amended: when [max (s - mean s)] is nonzero and the gain is
    strictly positive, [normalize] applies the one affine map
    [x ↦ (x - mean s) · gain / max (s - mean s) + mid] to both series (so
    the difference [s - t] is rescaled by the common factor), and the
    returned sensor series has mean [mid] and maximum [mid + gain]. *)
Theorem normalize_affine_mean_max (s t : list R) (mid gain m M : R) :
  np_mean s = Some m ->
  np_max (map (fun x => x - m) s) = Some M ->
  M <> 0 -> 0 < gain ->
  exists s' t',
    normalize s t mid gain = Some (s', t') /\
    s' = map (fun x => (x - m) * gain / M + mid) s /\
    t' = map (fun x => (x - m) * gain / M + mid) t /\
    (forall i, (i < length s)%nat -> (i < length t)%nat ->
       nth i s' 0 - nth i t' 0 = (nth i s 0 - nth i t 0) * (gain / M)) /\
    np_mean s' = Some mid /\
    np_max s' = Some (mid + gain).
Proof.
  intros Hm HM HM0 Hg.
  pose proof (max_deviation_nonneg s m M Hm HM) as HMge.
  assert (HMpos : 0 < M) by lra.
  destruct (np_mean_inv _ _ Hm) as [Hn Hs].
  set (f := fun x => (x - m) * gain / M + mid).
  exists (map f s), (map f t).
  split; [apply normalize_affine; auto; lra|].
  split; [reflexivity|]. split; [reflexivity|]. split; [|split].
  - intros i Hi Hj.
    rewrite (nth_indep (map f s) 0 (f 0)) by (rewrite length_map; exact Hi).
    rewrite (nth_indep (map f t) 0 (f 0)) by (rewrite length_map; exact Hj).
    rewrite !map_nth. unfold f. field. lra.
  - unfold np_mean, fdiv. rewrite length_map.
    destruct (Req_dec_T (INR (length s)) 0) as [|_]; [contradiction|].
    f_equal.
    rewrite (map_ext f (fun x => gain / M * x + (mid - m * gain / M)))
      by (intros; unfold f; field; lra).
    rewrite np_sum_map_affine, Hs. field. split; auto; lra.
  - assert (Hmax : np_max (map (fun d => d * gain / M + mid)
                               (map (fun x => x - m) s))
                   = Some (M * gain / M + mid)).
    { apply (np_max_map_mono (fun d => d * gain / M + mid)); [|exact HM].
      intros x y Hxy.
      assert (0 < gain / M) by (apply Rdiv_lt_0_compat; assumption).
      unfold Rdiv in *. rewrite !Rmult_assoc. nra. }
    rewrite map_map in Hmax. fold f in Hmax. rewrite Hmax.
    f_equal. field. lra.
Qed.

Lemma normalize_witness :
  exists s' t',
    normalize [0; 2] [1; 4] (1 / 2) (1 / 10) = Some (s', t') /\
    s' = map (fun x => (x - 1) * (1 / 10) / 1 + 1 / 2) [0; 2] /\
    t' = map (fun x => (x - 1) * (1 / 10) / 1 + 1 / 2) [1; 4] /\
    (forall i, (i < length [0; 2])%nat -> (i < length [1; 4])%nat ->
       nth i s' 0 - nth i t' 0 =
         (nth i [0; 2] 0 - nth i [1; 4] 0) * (1 / 10 / 1)) /\
    np_mean s' = Some (1 / 2) /\
    np_max s' = Some (1 / 2 + 1 / 10).
Proof.
  apply (normalize_affine_mean_max [0; 2] [1; 4] (1 / 2) (1 / 10) 1 1).
  - unfold np_mean, fdiv. simpl.
    destruct (Req_dec_T (1 + 1) 0) as [H|_]; [lra|]. f_equal. lra.
  - simpl. f_equal. unfold Rmax.
    destruct (Rle_dec (0 - 1) (2 - 1)); lra.
  - lra.
  - lra.
Defined.

(** C10 as stated fails for a negative gain: for [s = [0, 2]], [mid = 0]
    and [gain = -1] the largest deviation from the mean is 1, the returned
    sensor series is [[1, -1]], and its maximum is [1], not
    [mid + gain = -1]. *)
Lemma normalize_negative_gain_maximum :
  np_mean [0; 2] = Some 1 /\
  np_max (map (fun x => x - 1) [0; 2]) = Some 1 /\
  exists s' t',
    normalize [0; 2] [1; 4] 0 (-1) = Some (s', t') /\
    s' = [1; -1] /\
    np_max s' = Some 1 /\
    np_max s' <> Some (0 + -1).
Proof.
  assert (Hm : np_mean [0; 2] = Some 1).
  { unfold np_mean, fdiv. simpl.
    destruct (Req_dec_T (1 + 1) 0) as [H|_]; [lra|]. f_equal. lra. }
  assert (HM : np_max (map (fun x => x - 1) [0; 2]) = Some 1).
  { simpl. f_equal. unfold Rmax.
    destruct (Rle_dec (0 - 1) (2 - 1)); lra. }
  split; [exact Hm|]. split; [exact HM|].
  exists [1; -1], (map (fun x => (x - 1) * -1 / 1 + 0) [1; 4]).
  assert (Hmax : np_max [1; -1] = Some 1).
  { simpl. f_equal. unfold Rmax. destruct (Rle_dec 1 (-1)); lra. }
  split; [|split; [reflexivity|split; [exact Hmax|]]].
  - rewrite (normalize_affine _ _ _ _ 1 1 Hm HM) by lra.
    simpl. repeat f_equal; lra.
  - rewrite Hmax. intros H. inversion H. lra.
Qed.

End Normalize.

(** ** Right-hand sides outside the horizon *)

Section HorizonGuard.

Lemma out_of_horizon_true (self : ErgodicOpt) (t : R) :
  t < hd 0 (time self) \/ last (time self) 0 < t ->
  out_of_horizon self t = true.
Proof.
  intros H. unfold out_of_horizon.
  destruct (Rlt_dec (last (time self) 0) t); [reflexivity|].
  destruct (Rlt_dec t (hd 0 (time self))); [reflexivity|].
  destruct H; contradiction.
Qed.

Lemma out_of_horizon_false (self : ErgodicOpt) (t : R) :
  hd 0 (time self) <= t <= last (time self) 0 ->
  out_of_horizon self t = false.
Proof.
  intros [H0 H1]. unfold out_of_horizon.
  destruct (Rlt_dec (last (time self) 0) t); [lra|].
  destruct (Rlt_dec t (hd 0 (time self))); [lra|]. reflexivity.
Qed.

(** C9: when the time argument is strictly outside [[time[0], time[-1]]],
    each of [peqns], [reqns], [zeqns] and [fofx] returns zero, whatever
    interpolants it is given (also interpolants that fail at every point):
    none of them is evaluated. *)
Theorem rhs_zero_outside_horizon (self : ErgodicOpt) (t : R) :
  t < hd 0 (time self) \/ last (time self) 0 < t ->
  (forall pp Al Bl Rn0 Qn0, peqns self t pp Al Bl Rn0 Qn0 = Some 0) /\
  (forall rr Al Bl a b P Rn0 Qn0,
      reqns self t rr Al Bl a b P Rn0 Qn0 = Some 0) /\
  (forall zz Al Bl a b P r Rn0 Qn0,
      zeqns self t zz Al Bl a b P r Rn0 Qn0 = Some 0) /\
  (forall X U, fofx self t X U = Some 0).
Proof.
  intros H. pose proof (out_of_horizon_true self t H) as Hout.
  unfold peqns, reqns, zeqns, fofx. rewrite Hout.
  repeat split; reflexivity.
Qed.

Lemma rhs_zero_outside_horizon_witness :
  let self := opt_on_grid (1 / 20) 0 0 [0; 0; 0] [1; 1; 1] in
  (forall pp Al Bl Rn0 Qn0, peqns self (5 / 4) pp Al Bl Rn0 Qn0 = Some 0) /\
  (forall rr Al Bl a b P Rn0 Qn0,
      reqns self (5 / 4) rr Al Bl a b P Rn0 Qn0 = Some 0) /\
  (forall zz Al Bl a b P r Rn0 Qn0,
      zeqns self (5 / 4) zz Al Bl a b P r Rn0 Qn0 = Some 0) /\
  (forall X U, fofx self (5 / 4) X U = Some 0).
Proof.
  intros self. apply (rhs_zero_outside_horizon self (5 / 4)).
  right. simpl. lra.
Defined.

(** Inside the horizon the interpolant is evaluated: [fofx] returns what it
    returns, a failure included. *)
Lemma fofx_inside_horizon (self : ErgodicOpt) (t X : R) (U : R -> option R) :
  hd 0 (time self) <= t <= last (time self) 0 -> fofx self t X U = U t.
Proof.
  intros H. unfold fofx. rewrite out_of_horizon_false by assumption.
  reflexivity.
Qed.

End HorizonGuard.

(** ** Interpolation on an increasing grid *)

Section Interpolation.

Lemma increasing_tail (x : R) (xs : list R) :
  increasing (x :: xs) -> increasing xs.
Proof. destruct xs as [|y xs]; simpl; tauto. Qed.

Lemma increasing_hd_le_last (x : R) (xs : list R) :
  increasing (x :: xs) -> x <= last (x :: xs) 0.
Proof.
  revert x. induction xs as [|y xs IH]; intros x Hinc.
  - simpl. lra.
  - destruct Hinc as [Hlt Hinc]. specialize (IH y Hinc).
    change (last (x :: y :: xs) 0) with (last (y :: xs) 0). lra.
Qed.

Lemma fdiv_defined (a b : R) : b <> 0 -> fdiv a b = Some (a / b).
Proof.
  intros Hb. unfold fdiv. destruct (Req_dec_T b 0); [contradiction|].
  reflexivity.
Qed.

(** A constant array interpolates to the constant. *)
Lemma interp_segments_const (c x : R) (xs : list R) :
  (2 <= length xs)%nat -> increasing xs ->
  hd 0 xs <= x <= last xs 0 ->
  interp_segments xs (map (fun _ => c) xs) x = Some c.
Proof.
  induction xs as [|x0 xs IH]; intros Hlen Hinc Hx; [simpl in Hlen; lia|].
  destruct xs as [|x1 xs]; [simpl in Hlen; lia|].
  destruct Hinc as [Hlt Hinc].
  cbn [map interp_segments].
  destruct (Rle_dec x x1) as [Hle|Hgt].
  - rewrite fdiv_defined by lra. simpl. f_equal. field. lra.
  - destruct xs as [|x2 xs].
    + simpl in Hx. lra.
    + apply IH; [simpl; lia | exact Hinc |].
      change (last (x0 :: x1 :: x2 :: xs) 0)
        with (last (x1 :: x2 :: xs) 0) in Hx.
      simpl hd. lra.
Qed.

Lemma interp1d_const (c : R) (xs : list R) :
  (2 <= length xs)%nat -> increasing xs ->
  exists g, interp1d xs (map (fun _ => c) xs) = Some g /\
            forall x, hd 0 xs <= x <= last xs 0 -> g x = Some c.
Proof.
  intros Hlen Hinc. unfold interp1d.
  rewrite length_map, Nat.eqb_refl.
  eexists. split; [reflexivity|].
  intros x Hx. cbv beta.
  destruct (Rlt_dec x (hd 0 xs)); [lra|].
  destruct (Rlt_dec (last xs 0) x); [lra|].
  apply interp_segments_const; assumption.
Qed.

End Interpolation.

(** ** The gain potential *)

Section GainPotential.

(** A state at which the right-hand side vanishes at all times is kept by
    every step. *)
Lemma rk23_step_stationary (f : R -> R -> option R) (h t y0 : R) :
  (forall s, f s y0 = Some 0) -> rk23_step f h t y0 = Some y0.
Proof.
  intros Hf. unfold rk23_step.
  rewrite Hf. simpl.
  replace (y0 + h * (1 / 2 * 0)) with y0 by ring. rewrite Hf. simpl.
  replace (y0 + h * (3 / 4 * 0)) with y0 by ring. rewrite Hf. simpl.
  replace (y0 + h * (2 / 9 * 0 + 1 / 3 * 0 + 4 / 9 * 0)) with y0 by ring.
  rewrite Hf. reflexivity.
Qed.

Lemma rk23_steps_stationary (f : R -> R -> option R) (h : R) (n : nat)
      (t y0 : R) :
  (forall s, f s y0 = Some 0) ->
  rk23_steps f h n t y0 = Some (repeat y0 (S n)).
Proof.
  intros Hf. revert t. induction n as [|n IH]; intros t; [reflexivity|].
  cbn [rk23_steps]. rewrite rk23_step_stationary by assumption. simpl obind.
  rewrite IH. reflexivity.
Qed.

(** With the linearisation of the single integrator ([A = 0], [B = 1]) and
    [Qn = 1], the right-hand side of the gain equation vanishes at [P = 1]. *)
Lemma peqns_stationary (self : ErgodicOpt) (t : R) (Al Bl : R -> option R)
      (Rn0 : R) :
  (forall x, hd 0 (time self) <= x <= last (time self) 0 -> Al x = Some 0) ->
  (forall x, hd 0 (time self) <= x <= last (time self) 0 -> Bl x = Some 1) ->
  peqns self t 1 Al Bl Rn0 1 = Some 0.
Proof.
  intros HA HB. unfold peqns, out_of_horizon.
  destruct (Rlt_dec (last (time self) 0) t); [reflexivity|].
  destruct (Rlt_dec t (hd 0 (time self))); [reflexivity|].
  rewrite HA, HB by lra. simpl. f_equal. ring.
Qed.

Lemma linearised_interpolants (self : ErgodicOpt) :
  time_grid (time self) -> linearised self ->
  exists Al Bl,
    A_interp self = Some Al /\ B_interp self = Some Bl /\
    (forall x, hd 0 (time self) <= x <= last (time self) 0 -> Al x = Some 0) /\
    (forall x, hd 0 (time self) <= x <= last (time self) 0 -> Bl x = Some 1).
Proof.
  intros [Hlen Hinc] [HA HB].
  destruct (interp1d_const 0 (time self) Hlen Hinc) as (Al & HAl & HAv).
  destruct (interp1d_const 1 (time self) Hlen Hinc) as (Bl & HBl & HBv).
  exists Al, Bl. unfold A_interp, B_interp. rewrite HA, HB. simpl.
  auto.
Qed.

Lemma gain_rows_ones (tm : list R) :
  gain_rows tm (map (fun _ => 1) tm) (repeat 1 (length tm)) =
  Some (repeat 1 (length tm)).
Proof.
  induction tm as [|t0 tm IH]; [reflexivity|].
  simpl. rewrite IH. simpl. f_equal. f_equal. ring.
Qed.

Lemma rev_repeat {A : Type} (a : A) (n : nat) : rev (repeat a n) = repeat a n.
Proof.
  induction n as [|n IH]; [reflexivity|].
  simpl. rewrite IH. symmetry. apply repeat_cons.
Qed.

Lemma last_repeat {A : Type} (a d : A) (n : nat) : last (repeat a (S n)) d = a.
Proof.
  induction n as [|n IH]; [reflexivity|].
  change (repeat a (S (S n))) with (a :: repeat a (S n)).
  change (last (a :: repeat a (S n)) d) with (last (repeat a (S n)) d).
  exact IH.
Qed.

End GainPotential.

Section GainPotentialClaims.

(** On the three-point grid [Psol] returns [[1, 1, 1]]. *)
Example Psol_example :
  Psol (dfdu (dfdx (opt_on_grid (1 / 20) 0 0 [0; 0; 0] [1; 1; 1])))
       [0; 0; 0] [1; 1; 1] [0; 1 / 2; 1] = Some [1; 1; 1].
Proof.
  set (self := dfdu (dfdx (opt_on_grid (1 / 20) 0 0 [0; 0; 0] [1; 1; 1]))).
  assert (Hgrid : time_grid (time self)) by (split; simpl; [lia | lra]).
  assert (Hlin : linearised self) by (split; reflexivity).
  destruct (linearised_interpolants self Hgrid Hlin)
    as (Al & Bl & HAl & HBl & HA & HB).
  unfold Psol. rewrite HAl, HBl. cbn [obind]. unfold odeIntegrator.
  rewrite rk23_steps_stationary; [reflexivity|].
  intros s. apply peqns_stationary; assumption.
Qed.

End GainPotentialClaims.

(** ** Interpolation between grid points *)

Section InterpolationBetweenSamples.

Lemma increasing_lt_nth (x : R) (xs : list R) (i : nat) :
  increasing (x :: xs) -> (i < length xs)%nat -> x < nth i xs 0.
Proof.
  revert x i. induction xs as [|y xs IH]; intros x i Hinc Hi;
    [simpl in Hi; lia|].
  destruct Hinc as [Hlt Hinc]. destruct i as [|i]; [exact Hlt|].
  simpl in Hi. cbn [nth]. specialize (IH y i Hinc ltac:(lia)). lra.
Qed.

Lemma increasing_hd_le_nth (xs : list R) (i : nat) :
  increasing xs -> (i < length xs)%nat -> hd 0 xs <= nth i xs 0.
Proof.
  intros Hinc Hi. destruct xs as [|x xs]; [simpl in Hi; lia|].
  destruct i as [|i]; [simpl; lra|].
  simpl in Hi. cbn [hd nth].
  pose proof (increasing_lt_nth x xs i Hinc ltac:(lia)). lra.
Qed.

Lemma increasing_nth_le_last (xs : list R) (i : nat) :
  increasing xs -> (i < length xs)%nat -> nth i xs 0 <= last xs 0.
Proof.
  revert i. induction xs as [|x xs IH]; intros i Hinc Hi;
    [simpl in Hi; lia|].
  destruct i as [|i].
  - apply increasing_hd_le_last. exact Hinc.
  - simpl in Hi. destruct xs as [|y xs]; [simpl in Hi; lia|].
    change (last (x :: y :: xs) 0) with (last (y :: xs) 0). cbn [nth].
    apply IH; [apply (increasing_tail x); exact Hinc | lia].
Qed.

Lemma increasing_nth_lt_succ (xs : list R) (k : nat) :
  increasing xs -> (S k < length xs)%nat -> nth k xs 0 < nth (S k) xs 0.
Proof.
  revert k. induction xs as [|x xs IH]; intros k Hinc Hk;
    [simpl in Hk; lia|].
  destruct k as [|k].
  - destruct xs as [|y xs]; [simpl in Hk; lia|].
    destruct Hinc as [Hlt _]. exact Hlt.
  - cbn [nth]. apply IH; [apply (increasing_tail x); exact Hinc|].
    simpl in Hk. lia.
Qed.

(** At the fraction [c] of grid interval [k] the interpolant takes the same
    fraction between the two samples. *)
Lemma interp_segments_fraction (xs ys : list R) (k : nat) (c : R) :
  increasing xs -> length xs = length ys -> (S k < length xs)%nat ->
  0 <= c <= 1 ->
  interp_segments xs ys (nth k xs 0 + c * (nth (S k) xs 0 - nth k xs 0)) =
  Some (nth k ys 0 + c * (nth (S k) ys 0 - nth k ys 0)).
Proof.
  revert ys k. induction xs as [|x0 xs IH]; intros ys k Hinc Hlen Hk [Hc0 Hc1];
    [simpl in Hk; lia|].
  destruct xs as [|x1 xs]; [simpl in Hk; lia|].
  destruct ys as [|y0 [|y1 ys]]; try (simpl in Hlen; lia).
  pose proof Hinc as [Hlt Hinc'].
  pose proof (increasing_nth_lt_succ _ k Hinc Hk) as Hstep.
  cbn [interp_segments].
  destruct k as [|k].
  - cbn [nth] in *.
    destruct (Rle_dec (x0 + c * (x1 - x0)) x1) as [_|Hgt];
      [|exfalso; apply Hgt; nra].
    rewrite fdiv_defined by lra. cbn [obind]. f_equal. field. lra.
  - assert (Hx1 : x1 <= nth (S k) (x0 :: x1 :: xs) 0).
    { cbn [nth]. destruct k as [|k]; [simpl; lra|].
      cbn [nth]. simpl in Hk.
      pose proof (increasing_lt_nth x1 xs k Hinc' ltac:(lia)). lra. }
    set (a := nth (S k) (x0 :: x1 :: xs) 0) in *.
    set (b := nth (S (S k)) (x0 :: x1 :: xs) 0) in *.
    destruct (Rle_dec (a + c * (b - a)) x1) as [Hle|Hgt].
    + assert (Hprod : 0 <= c * (b - a)) by nra.
      assert (Hk1 : a = x1) by lra.
      assert (Hcz : c = 0) by nra.
      destruct k as [|k].
      * subst c. unfold a. cbn [nth].
        rewrite fdiv_defined by lra. cbn [obind]. f_equal. field. lra.
      * exfalso. unfold a in Hk1. cbn [nth] in Hk1. simpl in Hk.
        pose proof (increasing_lt_nth x1 xs k Hinc' ltac:(lia)). lra.
    + unfold a, b. cbn [nth].
      apply (IH (y1 :: ys) k Hinc');
        [simpl in *; lia | simpl in *; lia | split; assumption].
Qed.

(** Inside the grid the interpolant of an aligned array is defined. *)
Lemma interp1d_fraction (xs ys : list R) :
  increasing xs -> length xs = length ys ->
  exists g, interp1d xs ys = Some g /\
    forall k c, (S k < length xs)%nat -> 0 <= c <= 1 ->
      g (nth k xs 0 + c * (nth (S k) xs 0 - nth k xs 0)) =
      Some (nth k ys 0 + c * (nth (S k) ys 0 - nth k ys 0)).
Proof.
  intros Hinc Hlen. unfold interp1d.
  rewrite (proj2 (Nat.eqb_eq _ _) Hlen).
  eexists. split; [reflexivity|].
  intros k c Hk [Hc0 Hc1]. cbv beta.
  pose proof (increasing_nth_lt_succ xs k Hinc Hk) as Hstep.
  pose proof (increasing_hd_le_nth xs k Hinc ltac:(lia)).
  pose proof (increasing_nth_le_last xs (S k) Hinc Hk).
  destruct (Rlt_dec _ (hd 0 xs)); [nra|].
  destruct (Rlt_dec (last xs 0) _); [nra|].
  apply interp_segments_fraction; auto.
Qed.

End InterpolationBetweenSamples.

(** ** The integrator on a uniform grid *)

Section IntegratorOnGrid.

Lemma nth_0_hd (l : list R) : nth 0 l 0 = hd 0 l.
Proof. destruct l; reflexivity. Qed.

Lemma uniform_nth (tm : list R) (k : nat) :
  uniform_grid tm -> (k < length tm)%nat ->
  nth k tm 0 = hd 0 tm + INR k * (nth 1 tm 0 - nth 0 tm 0).
Proof.
  intros [_ Hu]. induction k as [|k IH]; intros Hk.
  - rewrite nth_0_hd. simpl. ring.
  - specialize (IH ltac:(lia)). specialize (Hu k Hk).
    rewrite S_INR. lra.
Qed.

Lemma rk23_step_value (f : R -> R -> option R) (F : R -> R -> R)
      (h t y : R) :
  (forall theta z, 0 <= theta <= 1 -> f (t + theta * h) z = Some (F theta z)) ->
  rk23_step f h t y = Some (rk23_value F h y).
Proof.
  intros Hf. unfold rk23_step, rk23_value.
  replace (f t y) with (f (t + 0 * h) y) by (f_equal; ring).
  rewrite Hf by lra. cbn [obind].
  rewrite Hf by lra. cbn [obind].
  rewrite Hf by lra. cbn [obind].
  replace (t + h) with (t + 1 * h) by ring.
  rewrite Hf by lra. reflexivity.
Qed.

Lemma rk23_steps_on_grid (f : R -> R -> option R) (F : nat -> R -> R -> R)
      (tm : list R) :
  uniform_grid tm ->
  (forall k theta z, (S k < length tm)%nat -> 0 <= theta <= 1 ->
     f (nth k tm 0 + theta * (nth 1 tm 0 - nth 0 tm 0)) z =
     Some (F k theta z)) ->
  forall m k y, (k + m = length tm - 1)%nat ->
    rk23_steps f (nth 1 tm 0 - nth 0 tm 0) m (nth k tm 0) y =
    Some (rk23_samples F (nth 1 tm 0 - nth 0 tm 0) m k y).
Proof.
  intros Hgrid Hf. pose proof Hgrid as [[Hlen _] Hu].
  induction m as [|m IH]; intros k y Hkm; [reflexivity|].
  cbn [rk23_steps rk23_samples].
  rewrite (rk23_step_value f (F k)) by (intros; apply Hf; [lia | assumption]).
  cbn [obind].
  replace (nth k tm 0 + (nth 1 tm 0 - nth 0 tm 0)) with (nth (S k) tm 0)
    by (rewrite <- (Hu k) by lia; ring).
  rewrite IH by lia. reflexivity.
Qed.

Lemma rk23_samples_length (F : nat -> R -> R -> R) (h : R) (m k : nat)
      (y : R) :
  length (rk23_samples F h m k y) = S m.
Proof.
  revert k y. induction m as [|m IH]; intros k y; [reflexivity|].
  cbn [rk23_samples length]. rewrite IH. reflexivity.
Qed.


Lemma skipn_nth_cons (l : list R) (k : nat) :
  (k < length l)%nat -> skipn k l = nth k l 0 :: skipn (S k) l.
Proof.
  revert k. induction l as [|x l IH]; intros k Hk; [simpl in Hk; lia|].
  destruct k as [|k]; [reflexivity|].
  cbn [skipn nth]. apply IH. simpl in Hk. lia.
Qed.



Lemma grid_point_in_horizon (tm : list R) (k : nat) (theta : R) :
  uniform_grid tm -> (S k < length tm)%nat -> 0 <= theta <= 1 ->
  nth k tm 0 + theta * (nth 1 tm 0 - nth 0 tm 0) =
    nth k tm 0 + theta * (nth (S k) tm 0 - nth k tm 0) /\
  hd 0 tm <= nth k tm 0 + theta * (nth 1 tm 0 - nth 0 tm 0) <= last tm 0.
Proof.
  intros [[Hlen Hinc] Hu] Hk [H0 H1].
  rewrite <- (Hu k Hk). split; [reflexivity|].
  pose proof (increasing_nth_lt_succ tm k Hinc Hk).
  pose proof (increasing_hd_le_nth tm k Hinc ltac:(lia)).
  pose proof (increasing_nth_le_last tm (S k) Hinc Hk).
  split; nra.
Qed.


End IntegratorOnGrid.

(** ** Projection followed by simulation *)

Section ProjectSimulate.

Lemma nth_repeat_1 (k n : nat) : (k < n)%nat -> nth k (repeat 1 n) 0 = 1.
Proof.
  revert k. induction n as [|n IH]; intros k Hk; [lia|].
  destruct k as [|k]; [reflexivity|]. cbn [repeat nth]. apply IH. lia.
Qed.

Lemma Ksol_ones (self : ErgodicOpt) (X U : list R) :
  time_grid (time self) -> linearised self -> Qk self = 1 ->
  Ksol self X U = Some (repeat 1 (length (time self))).
Proof.
  intros Hgrid Hlin HQk.
  destruct (linearised_interpolants self Hgrid Hlin)
    as (Al & Bl & HAl & HBl & HA & HB).
  destruct Hgrid as [Hlen Hinc].
  unfold Ksol. rewrite HAl, HBl. cbn [obind]. rewrite HQk.
  unfold odeIntegrator.
  rewrite rk23_steps_stationary
    by (intros s; apply peqns_stationary; assumption).
  cbn [obind]. destruct Hlin as [_ HBc]. rewrite HBc. simpl B_current.
  replace (S (length (time self) - 1)) with (length (time self)) by lia.
  apply gain_rows_ones.
Qed.

Lemma projcontrol_rows_defined (tm xs Ks mu alpha : list R) :
  length xs = length tm -> length Ks = length tm ->
  length mu = length tm -> length alpha = length tm ->
  exists r, projcontrol_rows tm xs Ks mu alpha = Some r /\
    length r = length tm /\
    forall i, (i < length tm)%nat ->
      nth i r 0 =
      projcontrol (nth i xs 0) (nth i Ks 0) (nth i mu 0) (nth i alpha 0).
Proof.
  revert xs Ks mu alpha.
  induction tm as [|t0 tm IH]; intros xs Ks mu alpha Hx HK Hm Ha.
  - exists []. repeat split; auto. intros i Hi. simpl in Hi. lia.
  - destruct xs as [|x xs]; [discriminate|].
    destruct Ks as [|k Ks]; [discriminate|].
    destruct mu as [|m mu]; [discriminate|].
    destruct alpha as [|a alpha]; [discriminate|].
    simpl in Hx, HK, Hm, Ha.
    destruct (IH xs Ks mu alpha) as (r & Hr & Hlen & Hnth); try lia.
    exists (projcontrol x k m a :: r). cbn [projcontrol_rows].
    rewrite Hr. repeat split; [simpl; lia|].
    intros i Hi. destruct i as [|i]; [reflexivity|].
    cbn [nth]. apply Hnth. simpl in Hi. lia.
Qed.

(** [project] on a uniform grid: the states are the Runge-Kutta samples of
    the closed loop with gain 1, the controls the feedback law at those
    states. *)
Lemma project_closed_form (self : ErgodicOpt) (X0 : R) (alpha mu : list R) :
  uniform_grid (time self) -> linearised self -> Qk self = 1 ->
  length alpha = length (time self) -> length mu = length (time self) ->
  exists Up,
    project self X0 (alpha, mu) =
      Some (rk23_samples (feedback_rhs alpha mu) (odeDeltaT self)
                         (length (time self) - 1) 0 X0, Up) /\
    length Up = length (time self) /\
    forall i, (i < length (time self))%nat ->
      nth i Up 0 =
      nth i mu 0 + 1 * (nth i alpha 0 -
        nth i (rk23_samples (feedback_rhs alpha mu) (odeDeltaT self)
                            (length (time self) - 1) 0 X0) 0).
Proof.
  intros Hgrid Hlin HQk Ha Hm. pose proof Hgrid as [[Hlen Hinc] Hu].
  set (n := length (time self)) in *.
  assert (HKl : length (time self) = length (repeat 1 n))
    by (rewrite repeat_length; reflexivity).
  destruct (interp1d_fraction (time self) (repeat 1 n) Hinc HKl)
    as (gK & HgK & HgKv).
  destruct (interp1d_fraction (time self) mu Hinc (eq_sym Hm))
    as (gm & Hgm & Hgmv).
  destruct (interp1d_fraction (time self) alpha Hinc (eq_sym Ha))
    as (ga & Hga & Hgav).
  set (Xp := rk23_samples (feedback_rhs alpha mu) (odeDeltaT self) (n - 1) 0 X0).
  destruct (projcontrol_rows_defined (time self) Xp (repeat 1 n) mu alpha)
    as (Up & HUp & HUlen & HUnth);
    [unfold Xp; rewrite rk23_samples_length; fold n; lia
    | rewrite repeat_length; reflexivity | exact Hm | exact Ha |].
  exists Up. split; [|split; [exact HUlen|]].
  - unfold project. cbn [fst snd].
    rewrite (Ksol_ones self alpha mu (conj Hlen Hinc) Hlin HQk). fold n.
    cbn [obind]. rewrite HgK, Hgm, Hga. cbn [obind].
    unfold odeIntegrator. rewrite <- nth_0_hd. fold n.
    unfold odeDeltaT in *.
    rewrite (rk23_steps_on_grid _ (feedback_rhs alpha mu) (time self) Hgrid).
    + fold Xp. cbn [obind]. rewrite HUp. reflexivity.
    + intros k theta z Hk Hth.
      destruct (grid_point_in_horizon _ k theta Hgrid Hk Hth) as [Heq Hin].
      unfold proj. rewrite out_of_horizon_false by exact Hin.
      rewrite Heq, Hgmv, HgKv, Hgav by assumption. cbn [obind].
      rewrite !nth_repeat_1 by (fold n in Hk; lia).
      unfold feedback_rhs, matmult. simpl. f_equal. ring.
    + fold n. lia.
  - intros i Hi. rewrite (HUnth i Hi). unfold projcontrol.
    rewrite nth_repeat_1 by exact Hi. unfold matmult. simpl. reflexivity.
Qed.




Lemma uniform_grid_fine : uniform_grid (time opt_fine_grid).
Proof.
  split; [split; simpl; [lia | lra]|].
  intros i Hi. simpl in Hi. destruct i as [|i]; [reflexivity | lia].
Qed.

Lemma linearised_fine : linearised opt_fine_grid.
Proof. split; reflexivity. Qed.









End ProjectSimulate.

(** ** The order of the samples of the gain potential *)

Section GainPotentialOrder.






End GainPotentialOrder.

(** ** Target density *)

Section TargetDensity.

Lemma interp_segments_defined (xs ys : list R) (x : R) :
  (2 <= length xs)%nat -> increasing xs -> length xs = length ys ->
  hd 0 xs <= x <= last xs 0 ->
  exists v, interp_segments xs ys x = Some v.
Proof.
  revert ys. induction xs as [|x0 xs IH]; intros ys Hlen Hinc Hl Hx;
    [simpl in Hlen; lia|].
  destruct xs as [|x1 xs]; [simpl in Hlen; lia|].
  destruct ys as [|y0 [|y1 ys]]; try (simpl in Hl; lia).
  destruct Hinc as [Hlt Hinc].
  cbn [interp_segments].
  destruct (Rle_dec x x1) as [Hle|Hgt].
  - rewrite fdiv_defined by lra. cbn [obind]. eexists; reflexivity.
  - destruct xs as [|x2 xs].
    + simpl in Hx. lra.
    + apply (IH (y1 :: ys)); [simpl; lia | exact Hinc | simpl in *; lia |].
      change (last (x0 :: x1 :: x2 :: xs) 0)
        with (last (x1 :: x2 :: xs) 0) in Hx.
      simpl hd. lra.
Qed.

(** The points of [np.linspace(0.0, 1.0, n)] lie in [[0, 1]]. *)
Lemma linspace_unit_range (n : nat) :
  Forall (fun x => 0 <= x <= 1) (linspace 0 1 n).
Proof.
  unfold linspace. apply Forall_map, Forall_forall.
  intros i Hi. apply in_seq in Hi.
  destruct (Nat.eq_dec (n - 1) 0) as [Hz|Hnz].
  - assert (i = 0%nat) by lia. subst i. simpl. lra.
  - assert (Hpos : 0 < INR (n - 1)) by (apply lt_0_INR; lia).
    assert (Hle : INR i <= INR (n - 1)) by (apply le_INR; lia).
    pose proof (pos_INR i) as Hi0.
    replace (0 + INR i * ((1 - 0) / INR (n - 1))) with (INR i / INR (n - 1))
      by (field; lra).
    split.
    + apply Rmult_le_pos; [exact Hi0|].
      apply Rlt_le, Rinv_0_lt_compat, Hpos.
    + apply (Rmult_le_reg_r (INR (n - 1))); [exact Hpos|].
      unfold Rdiv. rewrite Rmult_assoc, Rinv_l by lra. lra.
Qed.

(** Resampling is defined when the grid of the supplied density covers the
    points of [xlist]. *)
Lemma resample_defined (ts pdf0 xs : list R) :
  (2 <= length ts)%nat -> increasing ts -> length pdf0 = length ts ->
  Forall (fun x => hd 0 ts <= x <= last ts 0) xs ->
  exists g p, interp1d ts pdf0 = Some g /\ omap_list g xs = Some p /\
              length p = length xs.
Proof.
  intros Hlen Hinc Hl Hxs. unfold interp1d.
  rewrite (proj2 (Nat.eqb_eq _ _) (eq_sym Hl)).
  eexists. 
  destruct (omap_list_total
              (fun x => if Rlt_dec x (hd 0 ts) then None
                        else if Rlt_dec (last ts 0) x then None
                        else interp_segments ts pdf0 x) xs) as [p Hp].
  { intros x Hin. rewrite Forall_forall in Hxs. specialize (Hxs x Hin).
    destruct (Rlt_dec x (hd 0 ts)); [lra|].
    destruct (Rlt_dec (last ts 0) x); [lra|].
    apply interp_segments_defined; auto. }
  exists p. split; [reflexivity|]. split; [exact Hp|].
  apply (omap_list_length _ _ _ Hp).
Qed.

Lemma np_sum_map_div (d : R) (l : list R) :
  np_sum (map (fun x => x / d) l) = np_sum l / d.
Proof.
  induction l as [|x l IH]; [simpl; unfold Rdiv; ring|].
  change (np_sum (map (fun x => x / d) (x :: l)))
    with (x / d + np_sum (map (fun x => x / d) l)).
  change (np_sum (x :: l)) with (x + np_sum l).
  rewrite IH. unfold Rdiv. ring.
Qed.

Lemma np_sum_nonzero_length (l : list R) :
  np_sum l <> 0 -> INR (length l) <> 0.
Proof.
  intros Hs. destruct l as [|x l]; [simpl in Hs; lra|].
  change (length (x :: l)) with (S (length l)). rewrite S_INR.
  pose proof (pos_INR (length l)). lra.
Qed.

(** Dividing by the mean gives an array of mean 1. *)
Lemma normalize_pdf_mean (self : ErgodicOpt) (p : list R) :
  np_sum p <> 0 ->
  normalize_pdf (set_pdf_array p self) =
    Some (set_pdf_array (map (fun x => x / (np_sum p / INR (length p))) p)
                        (set_pdf_array p self)) /\
  np_mean (map (fun x => x / (np_sum p / INR (length p))) p) = Some 1.
Proof.
  intros Hs. pose proof (np_sum_nonzero_length p Hs) as Hn.
  assert (Hd : np_sum p / INR (length p) <> 0).
  { unfold Rdiv. apply Rmult_integral_contrapositive_currified; auto.
    apply Rinv_neq_0_compat; exact Hn. }
  split.
  - unfold normalize_pdf. simpl pdf.
    rewrite (fdiv_defined _ _ Hn).
    replace (omap_list _ p)
      with (omap_list (fun x => fdiv x (np_sum p / INR (length p))) p)
      by reflexivity.
    rewrite omap_list_fdiv by exact Hd. reflexivity.
  - unfold np_mean. rewrite length_map, fdiv_defined by exact Hn.
    f_equal. rewrite np_sum_map_div. field. split; assumption.
Qed.

(** The sum formed by the loop is the sum of the claim, scaled. *)
Lemma uk_entry_value (self : ErgodicOpt) (p : list R) (kv hkv : R) :
  length p = length (xlist self) -> res self <> 0%Z -> hkv <> 0 ->
  uk_entry self p kv hkv =
    Some (cos_sum kv p (xlist self) * wlimit self / IZR (res self) / hkv).
Proof.
  intros Hlen Hres Hh. unfold uk_entry.
  assert (Hr : IZR (res self) <> 0) by (apply not_0_IZR; exact Hres).
  rewrite (fdiv_defined _ _ Hr). cbn [obind].
  set (c := wlimit self / IZR (res self)).
  assert (Hz : forall xs q, length q = length xs ->
    exists r, zip_with_opt
                (fun p0 x => q0 <- fdiv p0 hkv ;; Some (q0 * (c * cos (kv * x))))
                q xs = Some r /\
              np_sum r = cos_sum kv q xs * c / hkv).
  { induction xs as [|x xs IH]; intros [|q0 q] Hq; try discriminate.
    - exists []. split; [reflexivity|]. simpl. unfold Rdiv. ring.
    - destruct (IH q ltac:(simpl in Hq; lia)) as (r & Hr1 & Hr2).
      cbn [zip_with_opt]. rewrite (fdiv_defined _ _ Hh). cbn [obind].
      rewrite Hr1. cbn [obind]. eexists. split; [reflexivity|].
      change (np_sum (?a :: r)) with (a + np_sum r).
      cbn [cos_sum]. rewrite Hr2. field. exact Hh. }
  destruct (Hz (xlist self) p Hlen) as (r & Hr1 & Hr2).
  rewrite Hr1. cbn [obind]. f_equal. rewrite Hr2. unfold c. field.
  split; assumption.
Qed.

Lemma calculate_uk_values (self : ErgodicOpt) (p : list R) :
  length p = length (xlist self) -> res self <> 0%Z ->
  length (klist self) = Z.to_nat (Nfourier self) ->
  length (hk self) = Z.to_nat (Nfourier self) ->
  Forall (fun h => h <> 0) (hk self) ->
  exists uks, calculate_uk self p = Some (set_uk uks self) /\
    length uks = Z.to_nat (Nfourier self) /\
    forall k, (k < Z.to_nat (Nfourier self))%nat ->
      nth k uks 0 =
      cos_sum (nth k (klist self) 0) p (xlist self) * wlimit self
        / IZR (res self) / nth k (hk self) 0.
Proof.
  intros Hlen Hres Hkl Hhk Hnz. unfold calculate_uk.
  set (body := fun index =>
          kv <- nth_error (klist self) index ;;
          hkv <- nth_error (hk self) index ;;
          uk_entry self p kv hkv).
  assert (Hbody : forall k, (k < Z.to_nat (Nfourier self))%nat ->
    body k = Some (cos_sum (nth k (klist self) 0) p (xlist self) * wlimit self
                     / IZR (res self) / nth k (hk self) 0)).
  { intros k Hk. unfold body.
    rewrite (nth_error_nth' (klist self) 0) by lia.
    rewrite (nth_error_nth' (hk self) 0) by lia. cbn [obind].
    apply uk_entry_value; auto.
    rewrite Forall_forall in Hnz. apply Hnz, nth_In. lia. }
  destruct (omap_list_total body (seq 0 (Z.to_nat (Nfourier self))))
    as [uks Huks].
  { intros k Hk. apply in_seq in Hk. rewrite Hbody by lia.
    eexists; reflexivity. }
  exists uks. rewrite Huks. split; [reflexivity|].
  pose proof (omap_list_length _ _ _ Huks) as Hl. rewrite length_seq in Hl.
  split; [exact Hl|].
  intros k Hk.
  pose proof (omap_list_nth body _ _ 0%nat 0 k Huks) as Hn.
  rewrite length_seq in Hn. specialize (Hn Hk).
  rewrite seq_nth in Hn by lia. simpl in Hn.
  rewrite Hbody in Hn by exact Hk. inversion Hn. reflexivity.
Qed.

(** Resampling is defined when the grid [eidTime] of the supplied density is
    increasing, the density has one value per grid point, and the grid
    covers the points of [xlist]. *)
Lemma resample_pdf_defined (self : ErgodicOpt) (pdf0 : list R) :
  (2 <= length (eidTime self))%nat -> increasing (eidTime self) ->
  length pdf0 = length (eidTime self) ->
  Forall (fun x => hd 0 (eidTime self) <= x <= last (eidTime self) 0)
         (xlist self) ->
  exists p, resample_pdf self pdf0 = Some p /\
            length p = length (xlist self).
Proof.
  intros Hlen Hinc Hl Hxs.
  destruct (resample_defined _ pdf0 (xlist self) Hlen Hinc Hl Hxs)
    as (g & p & Hg & Hp & Hpl).
  exists p. unfold resample_pdf. rewrite Hg. cbn [obind]. auto.
Qed.

Lemma resample_pdf_length (self : ErgodicOpt) (pdf0 p : list R) :
  resample_pdf self pdf0 = Some p -> length p = length (xlist self).
Proof.
  unfold resample_pdf. destruct (interp1d (eidTime self) pdf0) as [g|];
    [|discriminate].
  cbn [obind]. apply omap_list_length.
Qed.

(** C6, as amended: for every density whose resampling onto [xlist] is
    defined (array [p], the values of its linear interpolant at the grid
    points) and does not sum to zero, and with [res] and the basis norms
    [hk] nonzero, [set_pdf] stores [p] divided by its mean, an array whose
    mean is exactly 1, and for every [k] below [Nfourier] the coefficient
    [uk[k] = Σ (pdf · cos(klist[k] · x)) · wlimit / res / hk[k]]. *)
Theorem set_pdf_normalises_and_projects
        (self : ErgodicOpt) (pdf0 p : list R) :
  resample_pdf self pdf0 = Some p ->
  np_sum p <> 0 ->
  res self <> 0%Z ->
  length (klist self) = Z.to_nat (Nfourier self) ->
  length (hk self) = Z.to_nat (Nfourier self) ->
  Forall (fun h => h <> 0) (hk self) ->
  exists self',
    set_pdf self pdf0 = Some self' /\
    pdf self' = map (fun x => x / (np_sum p / INR (length p))) p /\
    np_mean (pdf self') = Some 1 /\
    length (uk self') = Z.to_nat (Nfourier self) /\
    forall k, (k < Z.to_nat (Nfourier self))%nat ->
      nth k (uk self') 0 =
      cos_sum (nth k (klist self) 0) (pdf self') (xlist self)
        * wlimit self / IZR (res self) / nth k (hk self) 0.
Proof.
  intros Hp Hs Hres Hkl Hhk Hnz.
  pose proof (resample_pdf_length self pdf0 p Hp) as Hpl.
  destruct (normalize_pdf_mean self p Hs) as [Hnorm Hmean].
  set (q := map (fun x => x / (np_sum p / INR (length p))) p) in *.
  set (self1 := set_pdf_array q (set_pdf_array p self)) in *.
  destruct (calculate_uk_values self1 q) as (uks & Huk & Hukl & Hukv); auto.
  { unfold q. rewrite length_map. exact Hpl. }
  exists (set_uk uks self1). split; [|repeat split; auto].
  unfold set_pdf. rewrite Hp. cbn [obind].
  rewrite Hnorm. cbn [obind]. exact Huk.
Qed.

Ltac decide_reals :=
  repeat match goal with
         | |- context [Rlt_dec ?a ?b] => destruct (Rlt_dec a b); try lra
         | |- context [Rle_dec ?a ?b] => destruct (Rle_dec a b); try lra
         | |- context [Req_dec_T ?a ?b] => destruct (Req_dec_T a b); try lra
         end.

(** On the three-point grid the density [[1, 2, 1]] is resampled to
    itself. *)
Lemma resample_pdf_example :
  resample_pdf (opt_on_grid (1 / 20) 0 0 [] []) [1; 2; 1] = Some [1; 2; 1].
Proof.
  unfold resample_pdf, interp1d.
  cbn [opt_on_grid eidTime xlist length Nat.eqb obind omap_list hd last
       interp_segments].
  unfold fdiv. decide_reals. cbn [obind]. decide_reals. cbn [obind].
  repeat f_equal; field.
Qed.

Lemma set_pdf_witness :
  let self := opt_on_grid (1 / 20) 0 0 [] [] in
  let p := [1; 2; 1] in
  exists self',
    set_pdf self [1; 2; 1] = Some self' /\
    pdf self' = map (fun x => x / (np_sum p / INR (length p))) p /\
    np_mean (pdf self') = Some 1 /\
    length (uk self') = Z.to_nat (Nfourier self) /\
    forall k, (k < Z.to_nat (Nfourier self))%nat ->
      nth k (uk self') 0 =
      cos_sum (nth k (klist self) 0) (pdf self') (xlist self)
        * wlimit self / IZR (res self) / nth k (hk self) 0.
Proof.
  intros self p.
  apply (set_pdf_normalises_and_projects self [1; 2; 1] p).
  - exact resample_pdf_example.
  - simpl. lra.
  - simpl. lia.
  - reflexivity.
  - reflexivity.
  - assert (Hs : sqrt (1 / 2) <> 0)
      by (apply Rgt_not_eq, sqrt_lt_R0; lra).
    simpl. repeat constructor; auto; lra.
Defined.

(** C6 as stated fails for a density whose resampled values sum to zero: on
    the three-point grid the all-zero density is resampled to [[0, 0, 0]],
    the division by its mean has no finite result, and no array of mean 1 is
    stored. *)
Lemma set_pdf_zero_density :
  let self := opt_on_grid (1 / 20) 0 0 [] [] in
  resample_pdf self [0; 0; 0] = Some [0; 0; 0] /\
  set_pdf self [0; 0; 0] = None /\
  ~ (exists self', set_pdf self [0; 0; 0] = Some self' /\
                   np_mean (pdf self') = Some 1).
Proof.
  intros self.
  assert (Hp : resample_pdf self [0; 0; 0] = Some [0; 0; 0]).
  { destruct (interp1d_const 0 [0; 1 / 2; 1]) as (g & Hg & Hgv);
      [simpl; lia | simpl; lra |].
    change (map (fun _ : R => 0) [0; 1 / 2; 1]) with [0; 0; 0] in Hg.
    unfold resample_pdf. change (eidTime self) with [0; 1 / 2; 1].
    change (xlist self) with [0; 1 / 2; 1].
    rewrite Hg. cbn [obind omap_list].
    rewrite !Hgv by (simpl; lra). reflexivity. }
  assert (Hnone : set_pdf self [0; 0; 0] = None).
  { unfold set_pdf. rewrite Hp. cbn [obind].
    unfold normalize_pdf. cbn [pdf set_pdf_array omap_list].
    unfold fdiv at 1.
    destruct (Req_dec_T (INR (length [0; 0; 0])) 0) as [Hc|_].
    { simpl in Hc. lra. }
    cbn [obind]. unfold fdiv at 1.
    destruct (Req_dec_T (np_sum [0; 0; 0] / INR (length [0; 0; 0])) 0)
      as [_|Hc]; [reflexivity|].
    exfalso. apply Hc. simpl. lra. }
  split; [exact Hp|]. split; [exact Hnone|].
  intros (self' & Hsome & _). rewrite Hnone in Hsome. discriminate.
Qed.

End TargetDensity.

(** ** The worker loop *)

Section Worker.

Variable sim : simulators.







End Worker.

Section WorkerExamples.

(** A timeout of [get] after one completed job: the worker returns. *)
Example QueueWorker_timeout :
  QueueWorker sim_ok [Item (ParamTuple 7 false); GetRaises Empty] =
  ([ParamTuple 7 false], Some Returned).
Proof. reflexivity. Qed.

(** A numeric failure inside a job: the worker is left with that exception
    and the next item is not fetched. *)
Example QueueWorker_job_failure :
  QueueWorker (sim_raising (Exception 5))
    [Item (ParamTuple 7 false); Item (ParamTuple 8 false); GetRaises Empty] =
  ([ParamTuple 7 false], Some (Raised (Exception 5))).
Proof. reflexivity. Qed.

(** An argument list with fewer than four entries fails in the message that
    reads [args[3]]. *)
Example QueueWorker_short_arglist :
  QueueWorker sim_ok [Item (ArgList [1; 2]%nat); GetRaises Empty] =
  ([ArgList [1; 2]%nat], Some (Raised IndexError)).
Proof. reflexivity. Qed.


End WorkerExamples.

(** ** What the constructor and [update_traj] establish *)

Section Established.

Lemma quad_cos_sq_mode (k : Z) :
  quad_cos_sq (IZR k * PI) = if Z.eqb k 0 then 1 else 1 / 2.
Proof.
  unfold quad_cos_sq. pose proof PI_RGT_0 as Hpi.
  destruct (Z.eqb_spec k 0) as [->|Hk].
  - destruct (Req_dec_T (0 * PI) 0) as [_|Hc]; [reflexivity|].
    exfalso. apply Hc. ring.
  - assert (Hk' : IZR k <> 0) by (apply not_0_IZR; exact Hk).
    destruct (Req_dec_T (IZR k * PI) 0) as [Hc|_].
    + exfalso. apply Rmult_integral in Hc. destruct Hc; [contradiction | lra].
    + rewrite (sin_eq_0_1 (2 * (IZR k * PI))).
      * unfold Rdiv. ring.
      * exists (2 * k)%Z. rewrite mult_IZR. ring.
Qed.

Lemma hk_at_mode_positive (k : Z) : 0 < hk_at (IZR k * PI).
Proof.
  unfold hk_at. rewrite quad_cos_sq_mode.
  apply sqrt_lt_R0. destruct (Z.eqb k 0); lra.
Qed.

(** The spectral basis stored by the constructor: [klist[k] = k·π] (with
    [wlimit = 1]), [hk[k] = sqrt 1] for [k = 0] and [sqrt (1/2)] otherwise,
    all of them nonzero, and a spatial grid inside [[0, 1]]. *)
Lemma ErgodicOpt_init_basis (p : ErgodicParameters.t) (u0 : R)
      (self : ErgodicOpt) :
  ErgodicOpt_init p u0 = Some self ->
  (2 <= length (time self))%nat /\
  length (klist self) = Z.to_nat (Nfourier self) /\
  length (hk self) = Z.to_nat (Nfourier self) /\
  (forall k, (k < Z.to_nat (Nfourier self))%nat ->
     nth k (klist self) 0 = INR k * PI /\
     nth k (hk self) 0 = sqrt (if Nat.eqb k 0 then 1 else 1 / 2)) /\
  Forall (fun h => h <> 0) (hk self) /\
  Forall (fun x => 0 <= x <= 1) (xlist self) /\
  wlimit self = 1 /\ Qn self = 1 /\ Qk self = 1.
Proof.
  intros Hinit.
  destruct (ErgodicOpt_init_inv p u0 self Hinit)
    as (Hlen & Hnn & _ & _ & _ & HQn & HQk).
  destruct (ErgodicOpt_init_defined p u0 Hlen Hnn)
    as (Lk & kl & self' & _ & Hkl & Hinit' & _ & Hk & Hhk & Ht & Hw & _
        & HN & _ & _ & Hx & _).
  rewrite Hinit in Hinit'. inversion Hinit'; subst self'. clear Hinit'.
  assert (Hqs : Qn self = 1 /\ Qk self = 1) by (split; assumption).
  pose proof (omap_list_length _ _ _ Hkl) as Hkll.
  rewrite np_arange_length in Hkll.
  assert (Hval : forall k, (k < Z.to_nat (Nfourier self))%nat ->
            nth k kl 0 = INR k * PI).
  { intros k Hk'. rewrite HN in Hk'.
    pose proof (omap_list_nth _ _ _ 0%Z 0 k Hkl) as Hn.
    rewrite np_arange_length in Hn. specialize (Hn Hk').
    rewrite np_arange_nth, klist_at_1 in Hn by assumption.
    inversion Hn as [Hn']. rewrite <- INR_IZR_INZ. reflexivity. }
  rewrite Ht, Hk, Hhk, HN, Hx, length_map.
  split; [exact Hlen|]. split; [exact Hkll|]. split; [exact Hkll|].
  split; [|split; [|split; [apply linspace_unit_range|]]].
  - intros k Hk'. rewrite <- HN in Hk'. split; [apply Hval; exact Hk'|].
    rewrite (nth_indep _ 0 (hk_at 0)) by (rewrite length_map; lia).
    rewrite map_nth, (Hval k Hk'). unfold hk_at.
    rewrite INR_IZR_INZ, quad_cos_sq_mode.
    destruct k as [|k]; reflexivity.
  - apply Forall_map, Forall_forall. intros w Hin.
    destruct (In_nth _ _ 0 Hin) as (k & Hk' & Hw').
    rewrite Hkll, <- HN in Hk'. rewrite (Hval k Hk') in Hw'. subst w.
    rewrite INR_IZR_INZ. apply Rgt_not_eq, hk_at_mode_positive.
  - tauto.
Qed.

(** While no square overflows, the weights stored by the constructor meet
    the premise of the ergodic metric. *)
Lemma ErgodicOpt_init_weights_positive (p : ErgodicParameters.t) (u0 : R)
      (self : ErgodicOpt) :
  ErgodicOpt_init p u0 = Some self ->
  (ErgodicParameters.nFourier p <= 3037000500)%Z ->
  length (Lambdak self) = Z.to_nat (Nfourier self) /\
  Forall (fun l => 0 < l) (Lambdak self).
Proof.
  intros Hinit Hn.
  destruct (ErgodicOpt_init_inv p u0 self Hinit) as (Hlen & Hnn & _).
  destruct (ErgodicOpt_init_defined p u0 Hlen Hnn)
    as (Lk & kl & self' & HLk & _ & Hinit' & HL & _ & _ & _ & _ & _ & HN & _).
  rewrite Hinit in Hinit'. inversion Hinit'; subst self'. clear Hinit'.
  pose proof (omap_list_length _ _ _ HLk) as HLl.
  rewrite np_arange_length in HLl.
  split; [rewrite HL, HN; exact HLl|].
  apply Forall_forall. intros l Hin.
  destruct (In_nth _ _ 0 Hin) as (k & Hk & Hl). subst l.
  rewrite HL, HLl in Hk.
  rewrite (Lambdak_nth p u0 self k Hinit Hlen Hk).
  rewrite wrap64_small by nia. rewrite INR_square_IZR.
  apply Rdiv_lt_0_compat; [lra|]. pose proof (pow2_ge_0 (INR k)). lra.
Qed.

Lemma ckeval_frame (s s' : ErgodicOpt) :
  ckeval s = Some s' ->
  same_trajectory_frame s s' /\
  A_current s' = A_current s /\ B_current s' = B_current s.
Proof.
  unfold ckeval. destruct (omap_list _ _) as [cks|]; [|discriminate].
  cbn [obind]. intros H; inversion H. repeat split; reflexivity.
Qed.

Lemma akeval_frame (s s' : ErgodicOpt) :
  akeval s = Some s' ->
  same_trajectory_frame s s' /\
  A_current s' = A_current s /\ B_current s' = B_current s.
Proof.
  unfold akeval. destruct (omap_list _ _) as [tms|]; [|discriminate].
  cbn [obind]. intros H; inversion H. repeat split; reflexivity.
Qed.

Lemma dldx_frame (s s' : ErgodicOpt) :
  dldx s = Some s' ->
  same_trajectory_frame s s' /\
  A_current s' = A_current s /\ B_current s' = B_current s.
Proof.
  unfold dldx. destruct (broadcast_with _ _ _) as [a|]; [|discriminate].
  cbn [obind]. intros H; inversion H. repeat split; reflexivity.
Qed.

Lemma dldu_frame (s s' : ErgodicOpt) :
  dldu s = Some s' ->
  same_trajectory_frame s s' /\
  A_current s' = A_current s /\ B_current s' = B_current s.
Proof.
  unfold dldu. destruct (per_sample _ _ _ _) as [[|d0 dl]|];
    try discriminate.
  cbn [obind]. intros H; inversion H. repeat split; reflexivity.
Qed.

(** After [update_traj] the trajectory is stored and the linearisation is
    the one of the single integrator. *)
Lemma update_traj_linearised (self self' : ErgodicOpt) (X U : list R) :
  update_traj self X U = Some self' ->
  linearised self' /\
  X_current self' = X /\ U_current self' = U /\
  time self' = time self /\ Qn self' = Qn self /\ Qk self' = Qk self.
Proof.
  unfold update_traj.
  set (s0 := set_U_current U (set_X_current X self)).
  assert (H0 : time s0 = time self /\ Qn s0 = Qn self /\ Qk s0 = Qk self /\
               X_current s0 = X /\ U_current s0 = U)
    by (repeat split; reflexivity).
  clearbody s0.
  destruct (ckeval s0) as [s1|] eqn:H1; [|discriminate]. cbn [obind].
  destruct (akeval s1) as [s2|] eqn:H2; [|discriminate]. cbn [obind].
  set (s3 := dfdu (dfdx s2)).
  assert (H3 : same_trajectory_frame s2 s3 /\
               A_current s3 = map (fun _ => 0) (time s2) /\
               B_current s3 = map (fun _ => 1) (time s2))
    by (repeat split; reflexivity).
  clearbody s3.
  destruct (dldx s3) as [s4|] eqn:H4; [|discriminate]. cbn [obind].
  destruct (dldu s4) as [s5|] eqn:H5; [|discriminate]. cbn [obind].
  destruct (A_interp s5); [|discriminate]. cbn [obind].
  destruct (B_interp s5); [|discriminate]. cbn [obind].
  destruct (a_interp s5); [|discriminate]. cbn [obind].
  destruct (b_interp s5); [|discriminate]. cbn [obind].
  intros H; inversion H; subst self'. clear H.
  apply ckeval_frame in H1. apply akeval_frame in H2.
  apply dldx_frame in H4. apply dldu_frame in H5.
  unfold same_trajectory_frame in *.
  destruct H0 as (T0 & N0 & K0 & X0 & U0).
  destruct H1 as ((T1 & N1 & K1 & X1 & U1) & _ & _).
  destruct H2 as ((T2 & N2 & K2 & X2 & U2) & _ & _).
  destruct H3 as ((T3 & N3 & K3 & X3 & U3) & A3 & B3).
  destruct H4 as ((T4 & N4 & K4 & X4 & U4) & A4 & B4).
  destruct H5 as ((T5 & N5 & K5 & X5 & U5) & A5 & B5).
  assert (HT : time s5 = time s2) by congruence.
  repeat split; try congruence.
  - unfold dfdx. cbn [A_current set_A_current]. congruence.
  - unfold dfdu. cbn [B_current set_B_current]. congruence.
Qed.

End Established.

(** ** The grids produced by [linspace] *)

Section LinspaceGrids.

Lemma linspace_length (a b : R) (n : nat) : length (linspace a b n) = n.
Proof. unfold linspace. rewrite length_map, length_seq. reflexivity. Qed.

Lemma linspace_nth (a b : R) (n i : nat) :
  (i < n)%nat ->
  nth i (linspace a b n) 0 = a + INR i * ((b - a) / INR (n - 1)).
Proof.
  intros Hi. unfold linspace.
  set (F := fun j => a + INR j * ((b - a) / INR (n - 1))).
  transitivity (nth i (map F (seq 0 n)) (F 0%nat)).
  - apply nth_indep. rewrite length_map, length_seq. exact Hi.
  - rewrite (map_nth F), seq_nth by exact Hi. reflexivity.
Qed.

Lemma increasing_of_nth (l : list R) :
  (forall i, (S i < length l)%nat -> nth i l 0 < nth (S i) l 0) ->
  increasing l.
Proof.
  induction l as [|x l IH]; intros H; [exact I|].
  destruct l as [|y l]; [exact I|]. split.
  - apply (H 0%nat). simpl. lia.
  - apply IH. intros i Hi. apply (H (S i)). simpl in Hi |- *. lia.
Qed.

(** The time grid that the worker installs,
    [linspace(0.0, timeHorizon, tRes)], is a uniform grid when the horizon is
    positive and there are two samples or more. *)
Lemma linspace_uniform_grid (T : R) (n : nat) :
  0 < T -> (2 <= n)%nat -> uniform_grid (linspace 0 T n).
Proof.
  intros HT Hn.
  assert (Hstep : 0 < (T - 0) / INR (n - 1)).
  { apply Rdiv_lt_0_compat; [lra|]. apply lt_0_INR. lia. }
  split; [split|].
  - rewrite linspace_length. exact Hn.
  - apply increasing_of_nth. intros i Hi. rewrite linspace_length in Hi.
    rewrite !linspace_nth by lia. rewrite S_INR. lra.
  - intros i Hi. rewrite linspace_length in Hi.
    rewrite !linspace_nth by lia. rewrite S_INR. simpl. lra.
Qed.

End LinspaceGrids.

(** * Further properties of the optimiser and of the job queue *)

(** ** Gradients of the pointwise costs *)

Section PointwiseGradients.

(** The barrier penalty is continuously differentiable with a gradient of
    Lipschitz constant 2: the first-order remainder is at most [h^2]. *)
Lemma barr_point_remainder (wl x h : R) :
  0 <= wl ->
  Rabs (barr_point wl (x + h) - barr_point wl x - Dbarr_point wl x * h)
  <= h * h.
Proof.
  intros Hwl. unfold barr_point, Dbarr_point, Rsqr.
  apply Rabs_le.
  destruct (Rlt_dec wl (x + h)), (Rlt_dec (x + h) 0),
           (Rlt_dec wl x), (Rlt_dec x 0); split; nra.
Qed.

Lemma derivable_from_remainder (f : R -> R) (x l : R) :
  (forall h, Rabs (f (x + h) - f x - l * h) <= h * h) ->
  derivable_pt_lim f x l.
Proof.
  intros Hrem eps Heps. exists (mkposreal eps Heps).
  intros h Hh Hd. simpl in Hd.
  replace ((f (x + h) - f x) / h - l) with ((f (x + h) - f x - l * h) / h)
    by (field; exact Hh).
  unfold Rdiv. rewrite Rabs_mult, Rabs_inv.
  assert (Hpos : 0 < Rabs h) by (apply Rabs_pos_lt; exact Hh).
  apply (Rmult_lt_reg_r (Rabs h)); [exact Hpos|].
  rewrite Rmult_assoc, Rinv_l, Rmult_1_r by lra.
  specialize (Hrem h).
  assert (Hsq : h * h = Rabs h * Rabs h).
  { rewrite <- Rabs_mult. symmetry. apply Rabs_pos_eq. nra. }
  nra.
Qed.

(** X1: every entry of [Dbarrier(xk)] is the derivative, at the
    corresponding sample, of the pointwise penalty that [barrier]
    integrates; [Dbarrier] returns one entry per sample. *)
Theorem Dbarrier_is_gradient_of_penalty (self : ErgodicOpt) (xk : list R)
        (i : nat) :
  0 <= wlimit self -> (i < length xk)%nat ->
  length (Dbarrier self xk) = length xk /\
  derivable_pt_lim (barr_point (wlimit self)) (nth i xk 0)
                   (nth i (Dbarrier self xk) 0).
Proof.
  intros Hwl Hi. unfold Dbarrier. split; [apply length_map|].
  rewrite (nth_indep (map (Dbarr_point (wlimit self)) xk) 0
                     (Dbarr_point (wlimit self) 0))
    by (rewrite length_map; exact Hi).
  rewrite map_nth.
  apply derivable_from_remainder. intros h.
  apply barr_point_remainder. exact Hwl.
Qed.

Lemma Dbarrier_is_gradient_witness :
  let self := opt_on_grid (1 / 20) 0 0 [] [] in
  let xk := [1 / 2; 3 / 2; - 1] in
  length (Dbarrier self xk) = length xk /\
  derivable_pt_lim (barr_point (wlimit self)) (nth 1 xk 0)
                   (nth 1 (Dbarrier self xk) 0).
Proof.
  intros self xk. apply (Dbarrier_is_gradient_of_penalty self xk 1).
  - simpl. lra.
  - simpl. lia.
Defined.

(** X2: [dldu_pointwise] is the derivative of [cost_pointwise] with respect
    to the control, and [dldx_pointwise] its derivative with respect to the
    state (the control cost does not depend on the state). *)
Theorem pointwise_cost_gradients (self : ErgodicOpt) (x u : R) :
  derivable_pt_lim (fun v => cost_pointwise self x v) u
                   (dldu_pointwise self x u) /\
  derivable_pt_lim (fun y => cost_pointwise self y u) x
                   (dldx_pointwise self x u).
Proof.
  split.
  - intros eps Heps.
    assert (Hd : 0 < eps / (Rabs (R_weight self) + 1)).
    { apply Rdiv_lt_0_compat; [exact Heps|].
      pose proof (Rabs_pos (R_weight self)). lra. }
    exists (mkposreal _ Hd). intros h Hh Hlt. simpl in Hlt.
    rewrite !cost_pointwise_quadratic. unfold dldu_pointwise, matmult.
    simpl fold_left.
    assert (Hhalf : 0.5 = 1 / 2) by lra. rewrite Hhalf.
    replace ((1 / 2 * (u + h) * R_weight self * (u + h)
              - 1 / 2 * u * R_weight self * u) / h - R_weight self * u)
      with (1 / 2 * R_weight self * h) by (field; exact Hh).
    rewrite !Rabs_mult. rewrite (Rabs_pos_eq (1 / 2)) by lra.
    pose proof (Rabs_pos (R_weight self)) as HR.
    pose proof (Rabs_pos h) as Hh0.
    assert (Hb : Rabs h * (Rabs (R_weight self) + 1) < eps).
    { apply (Rmult_lt_reg_r (/ (Rabs (R_weight self) + 1))).
      - apply Rinv_0_lt_compat. lra.
      - rewrite Rmult_assoc, Rinv_r, Rmult_1_r by lra. exact Hlt. }
    nra.
  - intros eps Heps. exists (mkposreal eps Heps). intros h Hh _.
    rewrite !cost_pointwise_quadratic. unfold dldx_pointwise.
    unfold Rminus at 2. rewrite Rplus_opp_r.
    unfold Rdiv. rewrite Rmult_0_l, Rminus_0_r.
    rewrite Rabs_R0. exact Heps.
Qed.

End PointwiseGradients.

(** ** The total cost and the samples that [cost] reads *)

Section TotalCost.

Lemma trapz_sum_map_nonneg (g : R -> R) (l tm : list R) :
  (forall x, 0 <= g x) -> increasing tm -> 0 <= trapz_sum (map g l) tm.
Proof.
  intros Hg Hinc. apply trapz_sum_nonneg; [|exact Hinc].
  apply Forall_map, Forall_forall. intros x _. apply Hg.
Qed.

(** X3: on a time grid, for a stored trajectory with one sample per grid
    point, coefficient arrays [Lambdak], [ck] and [uk] of [Nfourier] entries
    each, non-negative weights and positive spectral weights, [evalcost]
    returns the weighted sum of the barrier, the ergodic metric and the
    control cost, and each of the three terms, hence the total, is
    non-negative. *)
Theorem evalcost_nonnegative (self : ErgodicOpt) :
  time_grid (time self) ->
  length (X_current self) = length (time self) ->
  length (U_current self) = length (time self) ->
  length (Lambdak self) = Z.to_nat (Nfourier self) ->
  length (ck self) = Z.to_nat (Nfourier self) ->
  length (uk self) = Z.to_nat (Nfourier self) ->
  0 <= R_weight self -> 0 <= barrcost self -> 0 <= ergcost self ->
  Forall (fun l => 0 < l) (Lambdak self) ->
  exists c b,
    cost self (X_current self) (U_current self) = Some c /\
    barrier self (X_current self) = Some b /\
    evalcost self =
      Some (barrcost self * b + ergcost self * calculate_ergodicity self + c) /\
    0 <= c /\ 0 <= b /\ 0 <= calculate_ergodicity self /\
    0 <= barrcost self * b + ergcost self * calculate_ergodicity self + c.
Proof.
  intros [Hlen Hinc] HX HU _ _ _ HR Hb He HL.
  assert (Hc : cost self (X_current self) (U_current self) =
               Some (trapz_sum (map (fun u => 0.5 * u * R_weight self * u)
                                    (U_current self)) (time self))).
  { unfold cost. rewrite per_sample_defined by assumption. cbn [obind].
    rewrite trapz_defined
      by (rewrite length_map, length_combine; lia).
    f_equal. f_equal.
    rewrite <- (map_combine_snd _ (X_current self) (U_current self))
      by congruence.
    apply map_ext. intros [x u]. apply cost_pointwise_quadratic. }
  assert (Hbar : barrier self (X_current self) =
                 Some (trapz_sum (map (barr_point (wlimit self))
                                      (X_current self)) (time self))).
  { unfold barrier. apply trapz_defined. rewrite length_map. exact HX. }
  assert (Hc0 : 0 <= trapz_sum (map (fun u => 0.5 * u * R_weight self * u)
                                    (U_current self)) (time self)).
  { apply trapz_sum_map_nonneg; [|exact Hinc].
    intros u. assert (0 <= u * u) by nra. nra. }
  assert (Hb0 : 0 <= trapz_sum (map (barr_point (wlimit self))
                                    (X_current self)) (time self)).
  { apply trapz_sum_map_nonneg; [|exact Hinc]. apply barr_point_nonneg. }
  assert (He0 : 0 <= calculate_ergodicity self)
    by (apply np_sum_erg_nonneg; exact HL).
  eexists. eexists. split; [exact Hc|]. split; [exact Hbar|].
  split; [unfold evalcost; rewrite Hc, Hbar; reflexivity|].
  repeat split; auto. nra.
Qed.

Lemma evalcost_nonnegative_witness :
  let self :=
    set_ck [1; 0; 0]
      (set_uk [1; 1 / 2; 0]
         (opt_on_grid (1 / 20) 0 0 [1 / 2; 3 / 2; 1] [1; 1; 1])) in
  exists c b,
    cost self (X_current self) (U_current self) = Some c /\
    barrier self (X_current self) = Some b /\
    evalcost self =
      Some (barrcost self * b + ergcost self * calculate_ergodicity self + c) /\
    0 <= c /\ 0 <= b /\ 0 <= calculate_ergodicity self /\
    0 <= barrcost self * b + ergcost self * calculate_ergodicity self + c.
Proof.
  intros self. apply (evalcost_nonnegative self).
  - split; simpl; [lia | lra].
  - reflexivity.
  - reflexivity.
  - reflexivity.
  - reflexivity.
  - reflexivity.
  - simpl. lra.
  - simpl. lra.
  - simpl. lra.
  - simpl. repeat constructor; lra.
Defined.

Lemma per_sample_prefix (f : R -> R -> R) (tm X U : list R) :
  (length tm <= length X)%nat -> (length tm <= length U)%nat ->
  per_sample f tm X U =
  per_sample f tm (firstn (length tm) X) (firstn (length tm) U).
Proof.
  revert X U. induction tm as [|t0 tm IH]; intros X U HX HU; [reflexivity|].
  destruct X as [|x X]; [simpl in HX; lia|].
  destruct U as [|u U]; [simpl in HU; lia|].
  cbn [length firstn per_sample]. rewrite (IH X U) by (simpl in *; lia).
  reflexivity.
Qed.

Lemma per_sample_short (f : R -> R -> R) (tm X U : list R) :
  (length X < length tm)%nat \/ (length U < length tm)%nat ->
  per_sample f tm X U = None.
Proof.
  revert X U. induction tm as [|t0 tm IH]; intros X U H;
    [simpl in H; lia|].
  destruct X as [|x X]; [reflexivity|].
  destruct U as [|u U]; [reflexivity|].
  cbn [per_sample]. rewrite IH by (simpl in H; lia). reflexivity.
Qed.

(** X4: [cost] reads the control at the grid indices only: trajectories with
    at least one sample per grid point give the quadrature of the control
    effort over the first [len(time)] controls, whatever the states and the
    samples beyond the grid are; a state or control trajectory shorter than
    the grid raises. *)
Theorem cost_reads_controls_on_grid (self : ErgodicOpt) (X U : list R) :
  ((length (time self) <= length X)%nat ->
   (length (time self) <= length U)%nat ->
   cost self X U =
     trapz (map (fun u => 0.5 * u * R_weight self * u)
                (firstn (length (time self)) U)) (time self) /\
   forall X' U',
     (length (time self) <= length X')%nat ->
     firstn (length (time self)) U' = firstn (length (time self)) U ->
     cost self X' U' = cost self X U) /\
  ((length X < length (time self))%nat \/
   (length U < length (time self))%nat ->
   cost self X U = None).
Proof.
  assert (Hval : forall X0 U0,
    (length (time self) <= length X0)%nat ->
    (length (time self) <= length U0)%nat ->
    cost self X0 U0 =
      trapz (map (fun u => 0.5 * u * R_weight self * u)
                 (firstn (length (time self)) U0)) (time self)).
  { intros X0 U0 HX HU. unfold cost.
    rewrite per_sample_prefix by assumption.
    rewrite per_sample_defined by (rewrite length_firstn; lia).
    cbn [obind]. f_equal.
    rewrite <- (map_combine_snd _ (firstn (length (time self)) X0)
                                  (firstn (length (time self)) U0))
      by (rewrite !length_firstn; lia).
    apply map_ext. intros [x u]. apply cost_pointwise_quadratic. }
  split.
  - intros HX HU. split; [apply Hval; assumption|].
    intros X' U' HX' HU'.
    assert (HUl : (length (time self) <= length U')%nat).
    { pose proof (f_equal (@length R) HU') as Hl.
      rewrite !length_firstn in Hl. lia. }
    rewrite (Hval X' U' HX' HUl), (Hval X U HX HU), HU'. reflexivity.
  - intros Hshort. unfold cost. rewrite per_sample_short by exact Hshort.
    reflexivity.
Qed.

End TotalCost.

(** ** What the integrator returns *)

Section IntegratorShape.

Lemma rk23_steps_shape (f : R -> R -> option R) (h : R) (n : nat) (t y : R)
      (l : list R) :
  rk23_steps f h n t y = Some l -> length l = S n /\ hd 0 l = y.
Proof.
  revert t y l. induction n as [|n IH]; intros t y l H.
  - inversion H. split; reflexivity.
  - cbn [rk23_steps] in H.
    destruct (rk23_step f h t y) as [y1|]; [|discriminate].
    cbn [obind] in H.
    destruct (rk23_steps f h n (t + h) y1) as [rest|] eqn:Hr; [|discriminate].
    cbn [obind] in H. inversion H; subst.
    destruct (IH _ _ _ Hr) as [Hl _]. simpl. split; [lia | reflexivity].
Qed.

Lemma rk23_step_total (f : R -> R -> option R) (h t y : R) :
  (forall s z, exists v, f s z = Some v) ->
  exists y1, rk23_step f h t y = Some y1.
Proof.
  intros Hf. unfold rk23_step.
  destruct (Hf t y) as [k1 H1]. rewrite H1. cbn [obind].
  destruct (Hf (t + 1 / 2 * h) (y + h * (1 / 2 * k1))) as [k2 H2].
  rewrite H2. cbn [obind].
  destruct (Hf (t + 3 / 4 * h) (y + h * (3 / 4 * k2))) as [k3 H3].
  rewrite H3. cbn [obind].
  destruct (Hf (t + h) (y + h * (2 / 9 * k1 + 1 / 3 * k2 + 4 / 9 * k3)))
    as [k4 H4].
  rewrite H4. cbn [obind]. eexists; reflexivity.
Qed.

Lemma rk23_steps_total (f : R -> R -> option R) (h : R) (n : nat) (t y : R) :
  (forall s z, exists v, f s z = Some v) ->
  exists l, rk23_steps f h n t y = Some l.
Proof.
  intros Hf. revert t y. induction n as [|n IH]; intros t y.
  - eexists; reflexivity.
  - cbn [rk23_steps]. destruct (rk23_step_total f h t y Hf) as [y1 H1].
    rewrite H1. cbn [obind]. destruct (IH (t + h) y1) as [l Hl].
    rewrite Hl. cbn [obind]. eexists; reflexivity.
Qed.

(** A run that returns has evaluated the right-hand side at the start and at
    the end of its last step. *)
Lemma rk23_steps_first_eval (f : R -> R -> option R) (h : R) (m : nat)
      (t y : R) (l : list R) :
  rk23_steps f h (S m) t y = Some l -> exists v, f t y = Some v.
Proof.
  cbn [rk23_steps]. unfold rk23_step.
  destruct (f t y) as [v|]; [eexists; reflexivity | discriminate].
Qed.

Lemma rk23_steps_final_eval (f : R -> R -> option R) (h : R) (m : nat)
      (t y : R) (l : list R) :
  rk23_steps f h (S m) t y = Some l ->
  exists z v, f (t + INR (S m) * h) z = Some v.
Proof.
  revert t y l. induction m as [|m IH]; intros t y l H.
  - cbn [rk23_steps] in H. unfold rk23_step in H.
    destruct (f t y) as [k1|]; [|discriminate]. cbn [obind] in H.
    destruct (f (t + 1 / 2 * h) _) as [k2|]; [|discriminate].
    cbn [obind] in H.
    destruct (f (t + 3 / 4 * h) _) as [k3|]; [|discriminate].
    cbn [obind] in H.
    destruct (f (t + h) (y + h * (2 / 9 * k1 + 1 / 3 * k2 + 4 / 9 * k3)))
      as [k4|] eqn:H4; [|discriminate].
    exists (y + h * (2 / 9 * k1 + 1 / 3 * k2 + 4 / 9 * k3)), k4.
    replace (t + INR 1 * h) with (t + h) by (simpl; ring). exact H4.
  - remember (S m) as m' eqn:Hm. cbn [rk23_steps] in H.
    destruct (rk23_step f h t y) as [y1|]; [|discriminate].
    cbn [obind] in H.
    destruct (rk23_steps f h m' (t + h) y1) as [rest|] eqn:Hr;
      [|discriminate].
    subst m'. destruct (IH _ _ _ Hr) as (z & v & Hz).
    exists z, v. rewrite <- Hz. f_equal. rewrite (S_INR (S m)). ring.
Qed.

Lemma last_is_nth (l : list R) :
  last l 0 = nth (length l - 1) l 0.
Proof.
  induction l as [|x l IH]; [reflexivity|].
  destruct l as [|y l]; [reflexivity|].
  change (last (x :: y :: l) 0) with (last (y :: l) 0). rewrite IH.
  simpl. rewrite Nat.sub_0_r. reflexivity.
Qed.

Lemma last_rev_hd (l : list R) : last (rev l) 0 = hd 0 l.
Proof.
  destruct l as [|x l]; [reflexivity|].
  simpl rev. apply last_last.
Qed.

(** Inside the range of an increasing grid the interpolant of an aligned
    array has a value; outside it has none. *)
Lemma interp1d_in_range (xs ys : list R) :
  (2 <= length xs)%nat -> increasing xs -> length xs = length ys ->
  exists g, interp1d xs ys = Some g /\
    (forall x, hd 0 xs <= x <= last xs 0 -> exists v, g x = Some v) /\
    (forall x, x < hd 0 xs \/ last xs 0 < x -> g x = None).
Proof.
  intros Hlen Hinc Hl. unfold interp1d.
  rewrite (proj2 (Nat.eqb_eq _ _) Hl).
  eexists. split; [reflexivity|]. split.
  - intros x Hx. cbv beta.
    destruct (Rlt_dec x (hd 0 xs)); [lra|].
    destruct (Rlt_dec (last xs 0) x); [lra|].
    apply interp_segments_defined; assumption.
  - intros x Hx. cbv beta.
    destruct (Rlt_dec x (hd 0 xs)); [reflexivity|].
    destruct (Rlt_dec (last xs 0) x); [reflexivity|].
    destruct Hx; contradiction.
Qed.

Lemma interp1d_out_of_range (xs ys : list R) (g : R -> option R) (x : R) :
  interp1d xs ys = Some g ->
  x < hd 0 xs \/ last xs 0 < x -> g x = None.
Proof.
  unfold interp1d. destruct (Nat.eqb (length xs) (length ys));
    [|discriminate].
  intros H Hx. inversion H. 
  destruct (Rlt_dec x (hd 0 xs)); [reflexivity|].
  destruct (Rlt_dec (last xs 0) x); [reflexivity|].
  destruct Hx; contradiction.
Qed.

Lemma interp1d_misaligned (xs ys : list R) :
  length xs <> length ys -> interp1d xs ys = None.
Proof.
  intros H. unfold interp1d.
  destruct (Nat.eqb_spec (length xs) (length ys)); [contradiction|].
  reflexivity.
Qed.

Lemma interp1d_aligned (xs ys : list R) (g : R -> option R) :
  interp1d xs ys = Some g -> length xs = length ys.
Proof.
  unfold interp1d.
  destruct (Nat.eqb_spec (length xs) (length ys)); [auto | discriminate].
Qed.

(** X5: on a time grid, [simulate] returns exactly when the control array
    has one sample per grid point (otherwise building the interpolant
    raises); the trajectory it returns has one state per grid point and
    starts at [X0]. *)
Theorem simulate_defined_iff_aligned (self : ErgodicOpt) (X0 : R)
        (U : list R) :
  time_grid (time self) ->
  ((exists Xs, simulate self X0 U = Some Xs) <->
   length U = length (time self)) /\
  (length U <> length (time self) -> simulate self X0 U = None) /\
  (forall Xs, simulate self X0 U = Some Xs ->
     length Xs = length (time self) /\ hd 0 Xs = X0).
Proof.
  intros [Hlen Hinc].
  assert (Hnone : length U <> length (time self) ->
                  simulate self X0 U = None).
  { intros Hne. unfold simulate. rewrite interp1d_misaligned by congruence.
    reflexivity. }
  assert (Hshape : forall Xs, simulate self X0 U = Some Xs ->
     length Xs = length (time self) /\ hd 0 Xs = X0).
  { intros Xs H. unfold simulate in H.
    destruct (interp1d (time self) U) as [g|]; [|discriminate].
    cbn [obind] in H. unfold odeIntegrator in H.
    destruct (rk23_steps_shape _ _ _ _ _ _ H) as [Hl Hh].
    split; [lia | exact Hh]. }
  split; [|split; assumption].
  split.
  - intros [Xs H].
    destruct (Nat.eq_dec (length U) (length (time self))) as [He|Hne];
      [exact He|].
    rewrite (Hnone Hne) in H. discriminate.
  - intros HU.
    destruct (interp1d_in_range (time self) U Hlen Hinc (eq_sym HU))
      as (g & Hg & Hin & _).
    unfold simulate. rewrite Hg. cbn [obind]. unfold odeIntegrator.
    apply rk23_steps_total. intros s z. unfold fofx, out_of_horizon.
    destruct (Rlt_dec (last (time self) 0) s); [eexists; reflexivity|].
    destruct (Rlt_dec s (hd 0 (time self))); [eexists; reflexivity|].
    apply Hin. lra.
Qed.

Lemma simulate_defined_iff_aligned_witness :
  let self := opt_on_grid (1 / 20) 0 0 [] [] in
  ((exists Xs, simulate self 0 [1; 2; 3] = Some Xs) <->
   length [1; 2; 3] = length (time self)) /\
  (length [1; 2; 3] <> length (time self) ->
   simulate self 0 [1; 2; 3] = None) /\
  (forall Xs, simulate self 0 [1; 2; 3] = Some Xs ->
     length Xs = length (time self) /\ hd 0 Xs = 0).
Proof.
  intros self. apply (simulate_defined_iff_aligned self 0 [1; 2; 3]).
  split; simpl; [lia | lra].
Defined.

End IntegratorShape.

(** ** The adjoint solve and the grid origin *)

Section AdjointSolve.

Lemma grid_hd_le_last (tm : list R) :
  time_grid tm -> hd 0 tm <= last tm 0.
Proof.
  intros [Hlen Hinc]. destruct tm as [|t0 tm]; [simpl in Hlen; lia|].
  apply increasing_hd_le_last. exact Hinc.
Qed.

(** On a grid that starts at 0 the substituted time [T - t] stays on the
    grid, and the right-hand side of the adjoint equation has a value
    everywhere. *)
Lemma reqns_total_from_zero (self : ErgodicOpt)
      (Al Bl al bl P : R -> option R) (Rn0 Qn0 : R) :
  hd 0 (time self) = 0 ->
  (forall g, In g [Al; Bl; al; bl; P] ->
     forall x, 0 <= x <= last (time self) 0 -> exists v, g x = Some v) ->
  forall s z, exists v, reqns self s z Al Bl al bl P Rn0 Qn0 = Some v.
Proof.
  intros H0 Hg s z. unfold reqns, out_of_horizon.
  destruct (Rlt_dec (last (time self) 0) s); [eexists; reflexivity|].
  destruct (Rlt_dec s (hd 0 (time self))); [eexists; reflexivity|].
  assert (Hx : 0 <= last (time self) 0 - s <= last (time self) 0) by lra.
  destruct (Hg Al ltac:(simpl; auto) _ Hx) as [vA HA].
  destruct (Hg Bl ltac:(simpl; auto) _ Hx) as [vB HB].
  destruct (Hg al ltac:(simpl; auto) _ Hx) as [va Ha].
  destruct (Hg bl ltac:(simpl; auto 6) _ Hx) as [vb Hb].
  destruct (Hg P ltac:(simpl; auto 6) _ Hx) as [vP HP].
  rewrite HA, HB, HP, Ha, Hb. cbn [obind]. eexists; reflexivity.
Qed.

(** X6: on a time grid that starts at 0, with the linearisation and gradient
    arrays aligned with the grid and the gain interpolant defined on the
    horizon, [Rsol] returns one sample per grid point, and, the samples
    being flipped, the last one is the terminal value 0. *)
Theorem Rsol_terminal_value (self : ErgodicOpt) (X U : list R)
        (P_interp : R -> option R) :
  time_grid (time self) -> hd 0 (time self) = 0 ->
  length (A_current self) = length (time self) ->
  length (B_current self) = length (time self) ->
  length (a_current self) = length (time self) ->
  length (b_current self) = length (time self) ->
  (forall x, 0 <= x <= last (time self) 0 -> exists v, P_interp x = Some v) ->
  exists Rs, Rsol self X U P_interp (time self) = Some Rs /\
             length Rs = length (time self) /\ last Rs 0 = 0.
Proof.
  intros Hgrid H0 HA HB Ha Hb HP. pose proof Hgrid as [Hlen Hinc].
  destruct (interp1d_in_range _ (A_current self) Hlen Hinc (eq_sym HA))
    as (Al & HAl & HAv & _).
  destruct (interp1d_in_range _ (B_current self) Hlen Hinc (eq_sym HB))
    as (Bl & HBl & HBv & _).
  destruct (interp1d_in_range _ (a_current self) Hlen Hinc (eq_sym Ha))
    as (al & Hal & Hav & _).
  destruct (interp1d_in_range _ (b_current self) Hlen Hinc (eq_sym Hb))
    as (bl & Hbl & Hbv & _).
  unfold Rsol, A_interp, B_interp, a_interp, b_interp.
  rewrite HAl, HBl, Hal, Hbl. cbn [obind]. unfold odeIntegrator.
  destruct (rk23_steps_total
              (fun t y => reqns self t y Al Bl al bl P_interp 1 1)
              (odeDeltaT self) (length (time self) - 1)
              (hd 0 (time self)) 0) as [soln Hs].
  { apply reqns_total_from_zero; [exact H0|].
    intros g Hg x Hx. rewrite <- H0 in Hx at 1.
    simpl in Hg.
    destruct Hg as [<- | [<- | [<- | [<- | [<- | []]]]]]; auto.
    apply HP. rewrite <- H0 at 1. exact Hx. }
  rewrite Hs. cbn [obind]. exists (rev soln).
  destruct (rk23_steps_shape _ _ _ _ _ _ Hs) as [Hl Hh].
  split; [reflexivity|]. split.
  - rewrite length_rev. lia.
  - rewrite last_rev_hd. exact Hh.
Qed.

Lemma Rsol_terminal_value_witness :
  exists Rs,
    Rsol opt_fine_grid [0; 0] [0; 0] (fun _ => Some 1) (time opt_fine_grid)
      = Some Rs /\
    length Rs = length (time opt_fine_grid) /\ last Rs 0 = 0.
Proof.
  apply (Rsol_terminal_value opt_fine_grid [0; 0] [0; 0] (fun _ => Some 1)).
  - split; simpl; [lia | lra].
  - reflexivity.
  - reflexivity.
  - reflexivity.
  - reflexivity.
  - reflexivity.
  - intros x _. exists 1. reflexivity.
Defined.

(** X7: on a uniform grid that does not start at 0, [Rsol] raises: the
    substitution [T - t] takes the interpolants out of their range (above it
    at the first evaluation when the grid starts below 0, below it at the
    end of the last step when it starts above 0). *)
Theorem Rsol_needs_grid_from_zero (self : ErgodicOpt) (X U : list R)
        (P_interp : R -> option R) :
  uniform_grid (time self) -> hd 0 (time self) <> 0 ->
  Rsol self X U P_interp (time self) = None.
Proof.
  intros Hgrid H0. pose proof Hgrid as [[Hlen Hinc] Hu].
  pose proof (grid_hd_le_last _ (conj Hlen Hinc)) as Hle.
  unfold Rsol.
  destruct (A_interp self) as [Al|] eqn:HAl; [|reflexivity]. cbn [obind].
  destruct (B_interp self) as [Bl|]; [|reflexivity]. cbn [obind].
  destruct (a_interp self) as [al|]; [|reflexivity]. cbn [obind].
  destruct (b_interp self) as [bl|]; [|reflexivity]. cbn [obind].
  destruct (odeIntegrator self _ 0) as [soln|] eqn:Hs; [|reflexivity].
  exfalso. unfold odeIntegrator in Hs.
  destruct (length (time self) - 1)%nat as [|m] eqn:Hm; [lia|].
  assert (Hout : forall s z,
            hd 0 (time self) <= s <= last (time self) 0 ->
            (last (time self) 0 - s < hd 0 (time self) \/
             last (time self) 0 < last (time self) 0 - s) ->
            reqns self s z Al Bl al bl P_interp 1 1 = None).
  { intros s z Hin Hx. unfold reqns.
    rewrite out_of_horizon_false by exact Hin.
    unfold A_interp in HAl.
    rewrite (interp1d_out_of_range _ _ _ _ HAl Hx). reflexivity. }
  destruct (Rtotal_order (hd 0 (time self)) 0) as [Hneg | [Hz | Hpos]];
    [| contradiction |].
  - destruct (rk23_steps_first_eval _ _ _ _ _ _ Hs) as [v Hv].
    rewrite Hout in Hv by lra. discriminate.
  - destruct (rk23_steps_final_eval _ _ _ _ _ _ Hs) as (z & v & Hv).
    assert (Hend : hd 0 (time self) + INR (S m) * odeDeltaT self
                   = last (time self) 0).
    { rewrite last_is_nth, Hm. unfold odeDeltaT.
      symmetry. apply uniform_nth; [exact Hgrid | lia]. }
    rewrite Hend in Hv. rewrite Hout in Hv by lra. discriminate.
Qed.

Lemma Rsol_needs_grid_from_zero_witness :
  Rsol opt_shifted_grid [0; 0] [0; 0] (fun _ => Some 1)
       (time opt_shifted_grid) = None.
Proof.
  apply (Rsol_needs_grid_from_zero opt_shifted_grid).
  - split; [split; simpl; [lia | lra]|].
    intros i Hi. simpl in Hi. destruct i as [|i]; [reflexivity | lia].
  - simpl. lra.
Defined.

(** X8: [descentdirection] reads the gain and adjoint interpolants at the
    literal time 0, so it raises on every grid that does not contain
    [t = 0]. *)
Theorem descentdirection_needs_zero_on_grid (self : ErgodicOpt) :
  0 < hd 0 (time self) \/ last (time self) 0 < 0 ->
  descentdirection self = None.
Proof.
  intros H0. unfold descentdirection.
  destruct (Psol _ _ _ _) as [Ps|]; [|reflexivity]. cbn [obind].
  destruct (interp1d (time self) Ps) as [P_interp|] eqn:HP; [|reflexivity].
  cbn [obind].
  destruct (Rsol _ _ _ _ _) as [Rs|]; [|reflexivity]. cbn [obind].
  destruct (interp1d (time self) Rs) as [r_interp|]; [|reflexivity].
  cbn [obind].
  rewrite (interp1d_out_of_range _ _ _ 0 HP H0). reflexivity.
Qed.

Lemma descentdirection_needs_zero_witness :
  descentdirection opt_shifted_grid = None.
Proof.
  apply (descentdirection_needs_zero_on_grid opt_shifted_grid).
  left. simpl. lra.
Defined.

End AdjointSolve.

(** ** Projection: feedback law and fixed points *)

Section ProjectionLaw.

Lemma map_const_repeat {A : Type} (c : R) (l : list A) :
  map (fun _ => c) l = repeat c (length l).
Proof. induction l as [|a l IH]; simpl; [reflexivity | rewrite IH; reflexivity]. Qed.

Lemma proj_total (self : ErgodicOpt) (K mu alpha : R -> option R) :
  (forall g, In g [K; mu; alpha] ->
     forall x, hd 0 (time self) <= x <= last (time self) 0 ->
       exists v, g x = Some v) ->
  forall s z, exists v, proj self s z K mu alpha = Some v.
Proof.
  intros Hg s z. unfold proj, out_of_horizon.
  destruct (Rlt_dec (last (time self) 0) s); [eexists; reflexivity|].
  destruct (Rlt_dec s (hd 0 (time self))); [eexists; reflexivity|].
  assert (Hx : hd 0 (time self) <= s <= last (time self) 0) by lra.
  destruct (Hg mu ltac:(simpl; auto) _ Hx) as [vm Hm].
  destruct (Hg K ltac:(simpl; auto) _ Hx) as [vk Hk].
  destruct (Hg alpha ltac:(simpl; auto) _ Hx) as [va Ha].
  rewrite Hm, Hk, Ha. cbn [obind]. eexists; reflexivity.
Qed.

(** X9: on a time grid, with the linearisation current and the reference
    aligned with the grid, [project] returns a pair [(Xp, Up)] with one
    sample per grid point each; the states start at [X0], and every control
    is the feedback law with unit gain at the returned state,
    [Up[i] = mu[i] + (alpha[i] - Xp[i])]. *)
Theorem project_feedback_law (self : ErgodicOpt) (X0 : R)
        (alpha mu : list R) :
  time_grid (time self) -> linearised self -> Qk self = 1 ->
  length alpha = length (time self) -> length mu = length (time self) ->
  exists Xp Up,
    project self X0 (alpha, mu) = Some (Xp, Up) /\
    length Xp = length (time self) /\ length Up = length (time self) /\
    hd 0 Xp = X0 /\
    forall i, (i < length (time self))%nat ->
      nth i Up 0 = nth i mu 0 + (nth i alpha 0 - nth i Xp 0).
Proof.
  intros Hgrid Hlin HQk Ha Hm. pose proof Hgrid as [Hlen Hinc].
  set (n := length (time self)) in *.
  assert (HKl : length (time self) = length (repeat 1 n))
    by (rewrite repeat_length; reflexivity).
  destruct (interp1d_in_range _ (repeat 1 n) Hlen Hinc HKl)
    as (gK & HgK & HgKv & _).
  destruct (interp1d_in_range _ mu Hlen Hinc (eq_sym Hm))
    as (gm & Hgm & Hgmv & _).
  destruct (interp1d_in_range _ alpha Hlen Hinc (eq_sym Ha))
    as (ga & Hga & Hgav & _).
  destruct (rk23_steps_total (fun t y => proj self t y gK gm ga)
              (odeDeltaT self) (n - 1) (hd 0 (time self)) X0)
    as [Xp HXp].
  { apply proj_total. intros g Hg. simpl in Hg.
    destruct Hg as [<- | [<- | [<- | []]]]; assumption. }
  destruct (rk23_steps_shape _ _ _ _ _ _ HXp) as [HXl HXh].
  destruct (projcontrol_rows_defined (time self) Xp (repeat 1 n) mu alpha)
    as (Up & HUp & HUl & HUn);
    [fold n; lia | rewrite repeat_length; reflexivity | exact Hm | exact Ha |].
  exists Xp, Up. split; [|split; [lia | split; [exact HUl | split; [exact HXh|]]]].
  - unfold project. cbn [fst snd].
    rewrite (Ksol_ones self alpha mu (conj Hlen Hinc) Hlin HQk). fold n.
    cbn [obind]. rewrite HgK, Hgm, Hga. cbn [obind].
    unfold odeIntegrator. fold n. rewrite HXp. cbn [obind].
    rewrite HUp. reflexivity.
  - intros i Hi. rewrite (HUn i Hi). unfold projcontrol, matmult.
    rewrite nth_repeat_1 by exact Hi. simpl. ring.
Qed.

Lemma project_feedback_law_witness :
  exists Xp Up,
    project opt_fine_grid 0 ([1; 1], [0; 0]) = Some (Xp, Up) /\
    length Xp = length (time opt_fine_grid) /\
    length Up = length (time opt_fine_grid) /\
    hd 0 Xp = 0 /\
    forall i, (i < length (time opt_fine_grid))%nat ->
      nth i Up 0 = nth i [0; 0] 0 + (nth i [1; 1] 0 - nth i Xp 0).
Proof.
  apply (project_feedback_law opt_fine_grid 0 [1; 1] [0; 0]).
  - split; simpl; [lia | lra].
  - split; reflexivity.
  - reflexivity.
  - reflexivity.
  - reflexivity.
Defined.

(** A reference that moves at the constant speed of its control is followed
    without error: the closed-loop samples are the reference states. *)
Lemma rk23_samples_on_ramp (alpha mu : list R) (h c : R) (m k : nat) :
  (forall i, (i < length alpha)%nat -> nth i mu 0 = c) ->
  (forall i, (S i < length alpha)%nat ->
     nth (S i) alpha 0 = nth i alpha 0 + h * c) ->
  (k + m = length alpha - 1)%nat -> (1 <= length alpha)%nat ->
  rk23_samples (feedback_rhs alpha mu) h m k (nth k alpha 0) = skipn k alpha.
Proof.
  intros Hmu Hramp. revert k. induction m as [|m IH]; intros k Hkm Hlen.
  - rewrite (skipn_nth_cons alpha k) by lia.
    rewrite (skipn_all2 alpha) by lia. reflexivity.
  - rewrite (skipn_nth_cons alpha k) by lia.
    cbn [rk23_samples]. f_equal.
    rewrite <- (IH (S k)) by lia. f_equal.
    unfold rk23_value, feedback_rhs.
    rewrite (Hramp k) by lia.
    rewrite (Hmu k), (Hmu (S k)) by lia. field.
Qed.

(** X10: [project] leaves a constant-speed reference unchanged: on a uniform
    grid, when the reference control is the constant [c] and the reference
    states start at [X0] and advance by [dt·c] per grid interval, the
    returned pair is the reference itself. *)
Theorem project_fixes_constant_speed_reference (self : ErgodicOpt)
        (X0 c : R) (alpha mu : list R) :
  uniform_grid (time self) -> linearised self -> Qk self = 1 ->
  length alpha = length (time self) -> length mu = length (time self) ->
  hd 0 alpha = X0 ->
  (forall i, (i < length (time self))%nat -> nth i mu 0 = c) ->
  (forall i, (S i < length (time self))%nat ->
     nth (S i) alpha 0 = nth i alpha 0 + odeDeltaT self * c) ->
  project self X0 (alpha, mu) = Some (alpha, mu).
Proof.
  intros Hgrid Hlin HQk Ha Hm Hhd Hmu Hramp.
  pose proof Hgrid as [[Hlen _] _].
  destruct (project_closed_form self X0 alpha mu Hgrid Hlin HQk Ha Hm)
    as (Up & Hproj & HUl & HUn).
  assert (HXp : rk23_samples (feedback_rhs alpha mu) (odeDeltaT self)
                  (length (time self) - 1) 0 X0 = alpha).
  { rewrite <- Hhd, <- nth_0_hd.
    rewrite (rk23_samples_on_ramp alpha mu _ c); try lia.
    - reflexivity.
    - rewrite Ha. exact Hmu.
    - rewrite Ha. exact Hramp. }
  rewrite HXp in Hproj, HUn. rewrite Hproj. f_equal. f_equal.
  apply (nth_ext _ _ 0 0); [congruence|].
  intros i Hi. rewrite HUl in Hi. rewrite (HUn i Hi). ring.
Qed.

Lemma project_fixes_constant_speed_witness :
  project opt_fine_grid 1 ([1; 1 + 1 / 100 * 3], [3; 3])
  = Some ([1; 1 + 1 / 100 * 3], [3; 3]).
Proof.
  apply (project_fixes_constant_speed_reference opt_fine_grid 1 3).
  - exact uniform_grid_fine.
  - exact linearised_fine.
  - reflexivity.
  - reflexivity.
  - reflexivity.
  - reflexivity.
  - intros i Hi. simpl in Hi.
    destruct i as [|[|i]]; [reflexivity | reflexivity | lia].
  - intros i Hi. simpl in Hi. destruct i as [|i]; [|lia].
    unfold odeDeltaT. simpl. lra.
Defined.

End ProjectionLaw.

(** ** The descent direction on a grid from 0 *)

Section DescentDirection.

Lemma Psol_ones (self : ErgodicOpt) (X U : list R) :
  time_grid (time self) -> linearised self -> Qn self = 1 ->
  Psol self X U (time self) = Some (repeat 1 (length (time self))).
Proof.
  intros Hgrid Hlin HQn.
  destruct (linearised_interpolants self Hgrid Hlin)
    as (Al & Bl & HAl & HBl & HA & HB).
  destruct Hgrid as [Hlen Hinc].
  unfold Psol. rewrite HAl, HBl. cbn [obind]. rewrite HQn.
  unfold odeIntegrator.
  rewrite rk23_steps_stationary
    by (intros s; apply peqns_stationary; assumption).
  replace (S (length (time self) - 1)) with (length (time self)) by lia.
  reflexivity.
Qed.

Lemma nth_map_const (c : R) (l : list R) (i : nat) :
  (i < length l)%nat -> nth i (map (fun _ => c) l) 0 = c.
Proof.
  revert i. induction l as [|x l IH]; intros i Hi; [simpl in Hi; lia|].
  destruct i as [|i]; [reflexivity|]. simpl. apply IH. simpl in Hi. lia.
Qed.

Lemma zeqns_total (self : ErgodicOpt)
      (Al Bl al bl P r : R -> option R) (Rn0 Qn0 : R) :
  (forall g, In g [Al; Bl; al; bl; P; r] ->
     forall x, hd 0 (time self) <= x <= last (time self) 0 ->
       exists v, g x = Some v) ->
  forall s z, exists v, zeqns self s z Al Bl al bl P r Rn0 Qn0 = Some v.
Proof.
  intros Hg s z. unfold zeqns, out_of_horizon.
  destruct (Rlt_dec (last (time self) 0) s); [eexists; reflexivity|].
  destruct (Rlt_dec s (hd 0 (time self))); [eexists; reflexivity|].
  assert (Hx : hd 0 (time self) <= s <= last (time self) 0) by lra.
  destruct (Hg Al ltac:(simpl; auto) _ Hx) as [vA HA].
  destruct (Hg Bl ltac:(simpl; auto) _ Hx) as [vB HB].
  destruct (Hg al ltac:(simpl; auto) _ Hx) as [va Ha].
  destruct (Hg bl ltac:(simpl; auto 6) _ Hx) as [vb Hb].
  destruct (Hg P ltac:(simpl; auto 6) _ Hx) as [vP HP].
  destruct (Hg r ltac:(simpl; auto 7) _ Hx) as [vr Hr].
  rewrite HA, HB, Ha, Hb, HP, Hr. cbn [obind]. eexists; reflexivity.
Qed.

Lemma veqns_rows_defined (tm zs Ac Bc ac bc Ps Rs : list R) (Rn0 Qn0 : R) :
  length zs = length tm -> length Ac = length tm -> length Bc = length tm ->
  length ac = length tm -> length bc = length tm ->
  length Ps = length tm -> length Rs = length tm ->
  exists v, veqns_rows tm zs Ac Bc ac bc Ps Rs Rn0 Qn0 = Some v /\
    length v = length tm /\
    forall i, (i < length tm)%nat ->
      nth i v 0 =
      veqns (nth i zs 0) (nth i Ac 0) (nth i Bc 0) (nth i ac 0) (nth i bc 0)
            (nth i Ps 0) (nth i Rs 0) Rn0 Qn0.
Proof.
  revert zs Ac Bc ac bc Ps Rs.
  induction tm as [|t0 tm IH]; intros zs Ac Bc ac bc Ps Rs Hz HA HB Ha Hb HP HR.
  - exists []. split; [reflexivity|]. split; [reflexivity|].
    intros i Hi. simpl in Hi. lia.
  - destruct zs as [|z zs]; [discriminate|].
    destruct Ac as [|A Ac]; [discriminate|].
    destruct Bc as [|B Bc]; [discriminate|].
    destruct ac as [|a ac]; [discriminate|].
    destruct bc as [|b bc]; [discriminate|].
    destruct Ps as [|P Ps]; [discriminate|].
    destruct Rs as [|r Rs]; [discriminate|].
    simpl in Hz, HA, HB, Ha, Hb, HP, HR.
    destruct (IH zs Ac Bc ac bc Ps Rs) as (v & Hv & Hl & Hn); try lia.
    exists (veqns z A B a b P r Rn0 Qn0 :: v).
    split; [cbn [veqns_rows]; rewrite Hv; reflexivity|].
    split; [simpl; lia|].
    intros i Hi. destruct i as [|i]; [reflexivity|].
    simpl in Hi. cbn [nth]. apply Hn. lia.
Qed.

Lemma Rsol_defined_from_zero (self : ErgodicOpt) (X U : list R)
      (P_interp : R -> option R) :
  time_grid (time self) -> hd 0 (time self) = 0 ->
  length (A_current self) = length (time self) ->
  length (B_current self) = length (time self) ->
  length (a_current self) = length (time self) ->
  length (b_current self) = length (time self) ->
  (forall x, 0 <= x <= last (time self) 0 -> exists v, P_interp x = Some v) ->
  exists Rs, Rsol self X U P_interp (time self) = Some Rs /\
             length Rs = length (time self).
Proof.
  intros Hgrid H0 HA HB Ha Hb HP. pose proof Hgrid as [Hlen Hinc].
  destruct (interp1d_in_range _ (A_current self) Hlen Hinc (eq_sym HA))
    as (Al & HAl & HAv & _).
  destruct (interp1d_in_range _ (B_current self) Hlen Hinc (eq_sym HB))
    as (Bl & HBl & HBv & _).
  destruct (interp1d_in_range _ (a_current self) Hlen Hinc (eq_sym Ha))
    as (al & Hal & Hav & _).
  destruct (interp1d_in_range _ (b_current self) Hlen Hinc (eq_sym Hb))
    as (bl & Hbl & Hbv & _).
  unfold Rsol, A_interp, B_interp, a_interp, b_interp.
  rewrite HAl, HBl, Hal, Hbl. cbn [obind]. unfold odeIntegrator.
  destruct (rk23_steps_total
              (fun t y => reqns self t y Al Bl al bl P_interp 1 1)
              (odeDeltaT self) (length (time self) - 1)
              (hd 0 (time self)) 0) as [soln Hs].
  { apply reqns_total_from_zero; [exact H0|].
    intros g Hg x Hx. rewrite <- H0 in Hx at 1.
    simpl in Hg.
    destruct Hg as [<- | [<- | [<- | [<- | [<- | []]]]]]; auto.
    apply HP. rewrite <- H0 at 1. exact Hx. }
  rewrite Hs. cbn [obind]. exists (rev soln).
  destruct (rk23_steps_shape _ _ _ _ _ _ Hs) as [Hl Hh].
  split; [reflexivity|]. rewrite length_rev. lia.
Qed.

(** X11: on a time grid that starts at 0, after the linearisation, with the
    gradient arrays aligned with the grid and a stored control array of at
    least one row per grid point, [descentdirection] returns a pair
    [(z, v)]: [z] has one sample per grid point and [v] one row per row of
    [U_current].  With [Rs] the adjoint that [Rsol] returns for the unit
    gain, the state perturbation starts at [z[0] = -Rs[0]], the rows of [v]
    at the grid indices are [v[i] = -z[i] - Rs[i] - b_current[i]], and the
    rows beyond the grid are never written. *)
Theorem descentdirection_on_grid_from_zero (self : ErgodicOpt) :
  time_grid (time self) -> hd 0 (time self) = 0 ->
  linearised self -> Qn self = 1 ->
  length (a_current self) = length (time self) ->
  length (b_current self) = length (time self) ->
  (length (time self) <= length (U_current self))%nat ->
  exists P_interp Rs z v,
    interp1d (time self) (repeat 1 (length (time self))) = Some P_interp /\
    Rsol self (X_current self) (U_current self) P_interp (time self)
      = Some Rs /\
    descentdirection self = Some (z, v) /\
    length z = length (time self) /\
    length v = length (U_current self) /\
    hd 0 z = - hd 0 Rs /\
    (forall i, (i < length (time self))%nat ->
       nth i v None =
       Some (- nth i z 0 - nth i Rs 0 - nth i (b_current self) 0)) /\
    (forall i, (length (time self) <= i)%nat -> nth i v None = None).
Proof.
  intros Hgrid H0 Hlin HQn Ha Hb HUlen. pose proof Hgrid as [Hlen Hinc].
  pose proof (grid_hd_le_last _ Hgrid) as Hle.
  set (n := length (time self)) in *.
  destruct (linearised_interpolants self Hgrid Hlin)
    as (Al & Bl & HAl & HBl & HAv & HBv).
  pose proof Hlin as [HAc HBc]. simpl in HAc, HBc.
  assert (HAlen : length (A_current self) = n)
    by (rewrite HAc; apply length_map).
  assert (HBlen : length (B_current self) = n)
    by (rewrite HBc; apply length_map).
  destruct (interp1d_const 1 (time self) Hlen Hinc) as (Pi & HPi & HPv).
  rewrite map_const_repeat in HPi. fold n in HPi.
  destruct (Rsol_defined_from_zero self (X_current self) (U_current self) Pi
              Hgrid H0 HAlen HBlen Ha Hb) as (Rs & HRs & HRl).
  { intros x Hx. exists 1. apply HPv. rewrite H0. exact Hx. }
  fold n in HRl.
  destruct (interp1d_in_range _ Rs Hlen Hinc (eq_sym HRl))
    as (ri & Hri & Hrv & _).
  destruct (interp1d_fraction (time self) Rs Hinc (eq_sym HRl))
    as (ri' & Hri' & Hfrac).
  rewrite Hri in Hri'. injection Hri' as <-.
  assert (Hr0 : ri 0 = Some (nth 0 Rs 0)).
  { pose proof (Hfrac 0%nat 0 ltac:(fold n; lia) ltac:(lra)) as H.
    rewrite nth_0_hd, H0 in H.
    replace (0 + 0 * (nth 1 (time self) 0 - 0)) with 0 in H by ring.
    rewrite H. f_equal. ring. }
  destruct (interp1d_in_range _ (a_current self) Hlen Hinc (eq_sym Ha))
    as (al & Hal & Hav & _).
  destruct (interp1d_in_range _ (b_current self) Hlen Hinc (eq_sym Hb))
    as (bl & Hbl & Hbv & _).
  set (zinit := - matmult [/ 1; nth 0 Rs 0]).
  destruct (rk23_steps_total
              (fun t y => zeqns self t y Al Bl al bl Pi ri (Rn self) (Qn self))
              (odeDeltaT self) (n - 1) (hd 0 (time self)) zinit)
    as [zs Hzs].
  { apply zeqns_total. intros g Hg x Hx. simpl in Hg.
    destruct Hg as [<- | [<- | [<- | [<- | [<- | [<- | []]]]]]]; auto.
    - exists 0. apply HAv. exact Hx.
    - exists 1. apply HBv. exact Hx.
    - exists 1. apply HPv. exact Hx. }
  destruct (rk23_steps_shape _ _ _ _ _ _ Hzs) as [Hzl Hzh].
  destruct (veqns_rows_defined (time self) zs (A_current self)
              (B_current self) (a_current self) (b_current self)
              (repeat 1 n) Rs (Rn self) (Qn self))
    as (v & Hv & Hvl & Hvn); try assumption;
    [fold n; lia | rewrite repeat_length; reflexivity |].
  exists Pi, Rs, zs,
    (map Some v ++ repeat None (length (U_current self) - n)).
  split; [exact HPi|]. split; [exact HRs|].
  split; [|split; [fold n; lia | split; [|split; [|split]]]].
  - unfold descentdirection.
    rewrite (Psol_ones self _ _ Hgrid Hlin HQn). fold n. cbn [obind].
    rewrite HPi. cbn [obind]. rewrite HRs. cbn [obind].
    rewrite Hri. cbn [obind].
    rewrite (HPv 0) by (rewrite H0; lra). cbn [obind].
    rewrite (float_power_m1 1) by lra. cbn [obind].
    rewrite Hr0. cbn [obind].
    unfold A_interp, B_interp, a_interp, b_interp in *.
    rewrite HAl, HBl, Hal, Hbl. cbn [obind].
    unfold odeIntegrator. fold n. fold zinit. rewrite Hzs. cbn [obind].
    destruct (Nat.ltb_spec (length (U_current self)) n) as [Hc|_]; [lia|].
    rewrite Hv. reflexivity.
  - rewrite length_app, length_map, repeat_length. fold n in Hvl. lia.
  - rewrite Hzh, <- nth_0_hd. unfold zinit, matmult. simpl.
    rewrite Rinv_1. ring.
  - intros i Hi. fold n in Hvl.
    rewrite app_nth1 by (rewrite length_map; lia).
    rewrite (nth_indep (map Some v) None (Some 0))
      by (rewrite length_map; lia).
    rewrite map_nth. f_equal.
    rewrite (Hvn i Hi). unfold veqns, matmult.
    rewrite nth_repeat_1 by exact Hi.
    rewrite HBc, nth_map_const by exact Hi. simpl. ring.
  - intros i Hi. fold n in Hvl.
    rewrite app_nth2 by (rewrite length_map; lia).
    destruct (Nat.lt_ge_cases (i - length (map Some v))
                              (length (U_current self) - n)) as [Hlt|Hge].
    + apply nth_repeat_lt. exact Hlt.
    + apply nth_overflow. rewrite repeat_length. exact Hge.
Qed.

Lemma descentdirection_on_grid_witness :
  exists P_interp Rs z v,
    interp1d (time opt_fine_grid) (repeat 1 (length (time opt_fine_grid)))
      = Some P_interp /\
    Rsol opt_fine_grid (X_current opt_fine_grid) (U_current opt_fine_grid)
         P_interp (time opt_fine_grid) = Some Rs /\
    descentdirection opt_fine_grid = Some (z, v) /\
    length z = length (time opt_fine_grid) /\
    length v = length (U_current opt_fine_grid) /\
    hd 0 z = - hd 0 Rs /\
    (forall i, (i < length (time opt_fine_grid))%nat ->
       nth i v None =
       Some (- nth i z 0 - nth i Rs 0 - nth i (b_current opt_fine_grid) 0)) /\
    (forall i, (length (time opt_fine_grid) <= i)%nat -> nth i v None = None).
Proof.
  apply (descentdirection_on_grid_from_zero opt_fine_grid).
  - split; simpl; [lia | lra].
  - reflexivity.
  - exact linearised_fine.
  - reflexivity.
  - reflexivity.
  - reflexivity.
  - simpl. lia.
Defined.

End DescentDirection.

(** ** Realised Fourier coefficients and their gradient *)

Section FourierCoefficients.

Lemma omap_seq_values {B : Type} (d : B) (body : nat -> option B)
      (g : nat -> B) (N : nat) :
  (forall k, (k < N)%nat -> body k = Some (g k)) ->
  exists r, omap_list body (seq 0 N) = Some r /\ length r = N /\
    forall k, (k < N)%nat -> nth k r d = g k.
Proof.
  intros Hbody.
  destruct (omap_list_total body (seq 0 N)) as [r Hr].
  { intros k Hk. apply in_seq in Hk. rewrite Hbody by lia.
    eexists; reflexivity. }
  exists r. split; [exact Hr|].
  pose proof (omap_list_length _ _ _ Hr) as Hl. rewrite length_seq in Hl.
  split; [exact Hl|]. intros k Hk.
  pose proof (omap_list_nth body _ _ 0%nat d k Hr) as Hn.
  rewrite length_seq in Hn. specialize (Hn Hk).
  rewrite seq_nth in Hn by lia. simpl in Hn.
  rewrite Hbody in Hn by exact Hk. inversion Hn. reflexivity.
Qed.

Lemma trapz_sum_const (c : R) (y x : list R) :
  length y = length x -> Forall (fun v => v = c) y ->
  trapz_sum y x = c * (last x 0 - hd 0 x).
Proof.
  revert x. induction y as [|y0 y IH]; intros x Hlen Hall.
  - destruct x; [simpl; ring | discriminate].
  - destruct x as [|x0 x]; [discriminate|].
    destruct y as [|y1 y]; destruct x as [|x1 x]; try discriminate.
    + simpl. ring.
    + rewrite trapz_sum_cons2.
      inversion Hall as [|? ? H0 Hall']; subst.
      rewrite (IH (x1 :: x)) by (simpl in *; auto; lia).
      inversion Hall' as [|? ? H1 _]; subst.
      change (last (x0 :: x1 :: x) 0) with (last (x1 :: x) 0).
      simpl hd. field.
Qed.

Lemma trapz_sum_bounds (M : R) (y x : list R) :
  length y = length x -> increasing x ->
  Forall (fun v => - M <= v <= M) y ->
  - (M * (last x 0 - hd 0 x)) <= trapz_sum y x <= M * (last x 0 - hd 0 x).
Proof.
  revert x. induction y as [|y0 y IH]; intros x Hlen Hinc Hall.
  - destruct x; [simpl; lra | discriminate].
  - destruct x as [|x0 x]; [discriminate|].
    destruct y as [|y1 y]; destruct x as [|x1 x]; try discriminate.
    + simpl. lra.
    + rewrite trapz_sum_cons2.
      inversion Hall as [|? ? H0 Hall']; subst.
      pose proof (IH (x1 :: x) ltac:(simpl in *; lia)
                     (increasing_tail _ _ Hinc) Hall') as Hb.
      inversion Hall' as [|? ? H1 _]; subst.
      change (last (x0 :: x1 :: x) 0) with (last (x1 :: x) 0).
      destruct Hinc as [Hlt _].
      simpl hd in *. nra.
Qed.

Lemma ck_entry_value (self : ErgodicOpt) (kv hkv : R) :
  length (X_current self) = length (time self) ->
  hkv <> 0 -> last (time self) 0 <> 0 ->
  ck_entry self kv hkv =
    Some (trapz_sum
            (map (fun w => 1 / (hkv * last (time self) 0) * cos (kv * w))
                 (X_current self))
            (time self)).
Proof.
  intros HX Hh HT. unfold ck_entry.
  rewrite fdiv_defined
    by (apply Rmult_integral_contrapositive_currified; assumption).
  cbn [obind]. apply trapz_defined. rewrite length_map. exact HX.
Qed.

Lemma ckeval_values (self : ErgodicOpt) :
  length (X_current self) = length (time self) ->
  last (time self) 0 <> 0 ->
  length (klist self) = Z.to_nat (Nfourier self) ->
  length (hk self) = Z.to_nat (Nfourier self) ->
  Forall (fun h => h <> 0) (hk self) ->
  exists cks, ckeval self = Some (set_ck cks self) /\
    length cks = Z.to_nat (Nfourier self) /\
    forall k, (k < Z.to_nat (Nfourier self))%nat ->
      nth k cks 0 =
      trapz_sum
        (map (fun w => 1 / (nth k (hk self) 0 * last (time self) 0)
                       * cos (nth k (klist self) 0 * w))
             (X_current self))
        (time self).
Proof.
  intros HX HT Hkl Hhk Hnz. unfold ckeval.
  set (body := fun index =>
          kv <- nth_error (klist self) index ;;
          hkv <- nth_error (hk self) index ;;
          ck_entry self kv hkv).
  destruct (omap_seq_values 0 body
              (fun k => trapz_sum
                 (map (fun w => 1 / (nth k (hk self) 0 * last (time self) 0)
                                * cos (nth k (klist self) 0 * w))
                      (X_current self))
                 (time self))
              (Z.to_nat (Nfourier self))) as (cks & Hcks & Hl & Hn).
  { intros k Hk. unfold body.
    rewrite (nth_error_nth' (klist self) 0) by lia.
    rewrite (nth_error_nth' (hk self) 0) by lia. cbn [obind].
    apply ck_entry_value; auto.
    rewrite Forall_forall in Hnz. apply Hnz, nth_In. lia. }
  exists cks. rewrite Hcks. split; [reflexivity|]. split; assumption.
Qed.

Lemma grid_from_zero_horizon (tm : list R) :
  time_grid tm -> hd 0 tm = 0 -> 0 < last tm 0.
Proof.
  intros [Hlen Hinc] H0.
  pose proof (increasing_nth_lt_succ tm 0 Hinc ltac:(lia)) as H1.
  pose proof (increasing_nth_le_last tm 1 Hinc ltac:(lia)) as H2.
  rewrite nth_0_hd, H0 in H1. lra.
Qed.

(** X12: on a time grid that starts at 0, with the stored trajectory aligned
    with the grid and positive basis norms, [ckeval] stores one coefficient
    per mode; each coefficient is at most [1 / hk[k]] in absolute value,
    whatever the trajectory, and a mode whose wavenumber is 0 has exactly
    the coefficient [1 / hk[k]]. *)
Theorem ckeval_coefficients_bounded (self : ErgodicOpt) :
  time_grid (time self) -> hd 0 (time self) = 0 ->
  length (X_current self) = length (time self) ->
  length (klist self) = Z.to_nat (Nfourier self) ->
  length (hk self) = Z.to_nat (Nfourier self) ->
  Forall (fun h => 0 < h) (hk self) ->
  exists self',
    ckeval self = Some self' /\
    length (ck self') = Z.to_nat (Nfourier self) /\
    (forall k, (k < Z.to_nat (Nfourier self))%nat ->
       Rabs (nth k (ck self') 0) <= 1 / nth k (hk self) 0) /\
    (forall k, (k < Z.to_nat (Nfourier self))%nat ->
       nth k (klist self) 0 = 0 ->
       nth k (ck self') 0 = 1 / nth k (hk self) 0).
Proof.
  intros Hgrid H0 HX Hkl Hhk Hpos.
  pose proof (grid_from_zero_horizon _ Hgrid H0) as HT.
  destruct (ckeval_values self HX ltac:(lra) Hkl Hhk)
    as (cks & Hck & Hl & Hn).
  { eapply Forall_impl; [|exact Hpos]. intros h Hh. simpl in Hh. lra. }
  exists (set_ck cks self). split; [exact Hck|].
  cbn [ck set_ck]. split; [exact Hl|].
  assert (Hhpos : forall k, (k < Z.to_nat (Nfourier self))%nat ->
                    0 < nth k (hk self) 0).
  { intros k Hk. rewrite Forall_forall in Hpos. apply Hpos, nth_In. lia. }
  split.
  - intros k Hk. rewrite (Hn k Hk). specialize (Hhpos k Hk).
    set (h := nth k (hk self) 0) in *.
    set (T := last (time self) 0) in *.
    assert (Hc : 0 < 1 / (h * T)).
    { apply Rdiv_lt_0_compat; [lra | apply Rmult_lt_0_compat; assumption]. }
    pose proof (trapz_sum_bounds (1 / (h * T))
                  (map (fun w => 1 / (h * T)
                                 * cos (nth k (klist self) 0 * w))
                       (X_current self))
                  (time self)) as Hb.
    rewrite length_map in Hb. specialize (Hb HX (proj2 Hgrid)).
    fold T in Hb. rewrite H0 in Hb.
    assert (Hall : Forall (fun v => - (1 / (h * T)) <= v <= 1 / (h * T))
                     (map (fun w => 1 / (h * T)
                                    * cos (nth k (klist self) 0 * w))
                          (X_current self))).
    { rewrite Forall_forall. intros v Hv. apply in_map_iff in Hv.
      destruct Hv as (w & <- & _).
      pose proof (COS_bound (nth k (klist self) 0 * w)) as [Hlo Hhi].
      split; nra. }
    specialize (Hb Hall).
    assert (Heq : 1 / (h * T) * (T - 0) = 1 / h) by (field; lra).
    rewrite Heq in Hb. apply Rabs_le. lra.
  - intros k Hk Hzero. rewrite (Hn k Hk), Hzero.
    specialize (Hhpos k Hk).
    set (h := nth k (hk self) 0) in *.
    rewrite (trapz_sum_const (1 / (h * last (time self) 0))).
    + rewrite H0. field. lra.
    + rewrite length_map. exact HX.
    + rewrite Forall_forall. intros v Hv. apply in_map_iff in Hv.
      destruct Hv as (w & <- & _).
      rewrite Rmult_0_l, cos_0. ring.
Qed.

Lemma ckeval_coefficients_bounded_witness :
  exists self',
    ckeval (opt_on_grid 1 0 0 [0; 1; 2] [0; 0; 0]) = Some self' /\
    length (ck self') = 3%nat /\
    (forall k, (k < 3)%nat ->
       Rabs (nth k (ck self') 0) <= 1 / nth k [1; sqrt (1 / 2); sqrt (1 / 2)] 0) /\
    (forall k, (k < 3)%nat ->
       nth k [0; PI; 2 * PI] 0 = 0 ->
       nth k (ck self') 0 = 1 / nth k [1; sqrt (1 / 2); sqrt (1 / 2)] 0).
Proof.
  apply (ckeval_coefficients_bounded (opt_on_grid 1 0 0 [0; 1; 2] [0; 0; 0])).
  - split; simpl; [lia | lra].
  - reflexivity.
  - reflexivity.
  - reflexivity.
  - reflexivity.
  - assert (0 < sqrt (1 / 2)) by (apply sqrt_lt_R0; lra).
    simpl. repeat constructor; lra || assumption.
Defined.

(** X13: for an instance made by the constructor with at least one Fourier
    mode, on an increasing grid from 0, [ckeval] of any aligned trajectory
    stores the zeroth coefficient 1: the mode [k = 0] has wavenumber 0 and
    basis norm 1, so it does not see the trajectory. *)
Theorem ckeval_zeroth_coefficient_is_one (p : ErgodicParameters.t) (u0 : R)
        (s0 : ErgodicOpt) (X : list R) :
  ErgodicOpt_init p u0 = Some s0 ->
  (0 < ErgodicParameters.nFourier p)%Z ->
  increasing (ErgodicParameters.time p) ->
  hd 0 (ErgodicParameters.time p) = 0 ->
  length X = length (ErgodicParameters.time p) ->
  exists self',
    ckeval (set_X_current X s0) = Some self' /\
    nth 0 (ck self') 0 = 1.
Proof.
  intros Hinit HN Hinc H0 HX.
  destruct (ErgodicOpt_init_basis p u0 s0 Hinit)
    as (Hlen & Hkl & Hhk & Hval & Hnz & _).
  destruct (ErgodicOpt_init_inv p u0 s0 Hinit)
    as (_ & _ & Htime & HNs & _).
  assert (Hk0 : (0 < Z.to_nat (Nfourier s0))%nat) by (rewrite HNs; lia).
  rewrite <- Htime in Hinc, H0, HX.
  pose proof (grid_from_zero_horizon _ (conj Hlen Hinc) H0) as HT.
  set (self := set_X_current X s0).
  destruct (ckeval_values self HX) as (cks & Hck & Hl & Hn);
    try assumption; [change (last (time s0) 0 <> 0); lra |].
  exists (set_ck cks self). split; [exact Hck|].
  cbn [ck set_ck]. rewrite (Hn 0%nat Hk0).
  change (klist self) with (klist s0). change (hk self) with (hk s0).
  change (time self) with (time s0). change (X_current self) with X.
  destruct (Hval 0%nat Hk0) as [Hkv Hhv]. rewrite Hkv, Hhv.
  simpl Nat.eqb. cbv iota. rewrite sqrt_1.
  rewrite (trapz_sum_const (1 / (1 * last (time s0) 0))).
  - rewrite H0. field. lra.
  - rewrite length_map. exact HX.
  - rewrite Forall_forall. intros v Hv. apply in_map_iff in Hv.
    destruct Hv as (w & <- & _).
    simpl INR. rewrite !Rmult_0_l, cos_0. ring.
Qed.

Lemma ckeval_zeroth_coefficient_witness :
  exists s0,
    ErgodicOpt_init params_small 0 = Some s0 /\
    exists self',
      ckeval (set_X_current [0; 1; 2] s0) = Some self' /\
      nth 0 (ck self') 0 = 1.
Proof.
  destruct (ErgodicOpt_init_defined params_small 0)
    as (Lk & kl & s0 & _ & _ & Hinit & _); [simpl; lia | simpl; lia |].
  exists s0. split; [exact Hinit|].
  apply (ckeval_zeroth_coefficient_is_one params_small 0 s0 [0; 1; 2] Hinit).
  - reflexivity.
  - simpl. lra.
  - reflexivity.
  - reflexivity.
Defined.

End FourierCoefficients.

(** ** The ergodic gradient and the order of the calls *)

Section ErgodicGradient.

Lemma np_sum_map_zero {A : Type} (f : A -> R) (l : list A) :
  (forall a, In a l -> f a = 0) -> np_sum (map f l) = 0.
Proof.
  induction l as [|a l IH]; intros H; [reflexivity|].
  change (np_sum (map f (a :: l))) with (f a + np_sum (map f l)).
  rewrite (H a (or_introl eq_refl)), IH by (intros b Hb; apply H; right; exact Hb).
  ring.
Qed.

(** X14: with at least one Fourier mode, when the realised coefficients
    equal the target coefficients, [akeval] stores the zero gradient, one
    entry per sample of the stored trajectory: every chain-rule factor
    [2·Lambdak·(ck - uk)/(hk·T)] is 0. *)
Theorem akeval_vanishes_when_coefficients_match (self : ErgodicOpt) :
  (0 < Nfourier self)%Z ->
  ck self = uk self ->
  length (Lambdak self) = Z.to_nat (Nfourier self) ->
  length (ck self) = Z.to_nat (Nfourier self) ->
  length (hk self) = Z.to_nat (Nfourier self) ->
  length (klist self) = Z.to_nat (Nfourier self) ->
  Forall (fun h => h <> 0) (hk self) ->
  last (time self) 0 <> 0 ->
  exists self',
    akeval self = Some self' /\
    ak self' = map (fun _ => 0) (X_current self).
Proof.
  intros HN Heq HL Hc Hh Hk Hnz HT. unfold akeval.
  set (body := fun index =>
          o <- outerchain_entry self index ;;
          kv <- nth_error (klist self) index ;;
          Some (o, kv)).
  destruct (omap_seq_values (0, 0) body
              (fun k => (0, nth k (klist self) 0))
              (Z.to_nat (Nfourier self))) as (terms & Ht & Hl & Hn).
  { intros k Hlt. unfold body, outerchain_entry.
    rewrite (nth_error_nth' (Lambdak self) 0) by lia. cbn [obind].
    rewrite (nth_error_nth' (ck self) 0) by lia. cbn [obind].
    rewrite <- Heq.
    rewrite (nth_error_nth' (ck self) 0) by lia. cbn [obind].
    rewrite (nth_error_nth' (hk self) 0) by lia. cbn [obind].
    rewrite fdiv_defined.
    - cbn [obind].
      rewrite (nth_error_nth' (klist self) 0) by lia. cbn [obind].
      f_equal. f_equal. unfold Rminus. rewrite Rplus_opp_r, Rmult_0_r.
      unfold Rdiv. apply Rmult_0_l.
    - apply Rmult_integral_contrapositive_currified; [|exact HT].
      rewrite Forall_forall in Hnz. apply Hnz, nth_In. lia. }
  rewrite Ht. cbn [obind]. eexists. split; [reflexivity|].
  cbn [ak set_ak].
  destruct terms as [|t0 terms'] eqn:Hterms; [simpl in Hl; lia|].
  rewrite <- Hterms in *. clear Hterms.
  apply map_ext. intros x.
  apply np_sum_map_zero. intros [o kv] Hin.
  destruct (In_nth _ _ (0, 0) Hin) as (k & Hlt & Hnth).
  rewrite Hl in Hlt. rewrite (Hn k Hlt) in Hnth.
  inversion Hnth; subst. simpl. ring.
Qed.

Lemma akeval_vanishes_witness :
  exists self',
    akeval (set_ck [1; 0; 0] (set_uk [1; 0; 0] opt_fine_grid)) = Some self' /\
    ak self' =
    map (fun _ => 0)
        (X_current (set_ck [1; 0; 0] (set_uk [1; 0; 0] opt_fine_grid))).
Proof.
  apply (akeval_vanishes_when_coefficients_match
           (set_ck [1; 0; 0] (set_uk [1; 0; 0] opt_fine_grid))).
  - simpl. lia.
  - reflexivity.
  - reflexivity.
  - reflexivity.
  - reflexivity.
  - reflexivity.
  - assert (0 < sqrt (1 / 2)) by (apply sqrt_lt_R0; lra).
    simpl. repeat constructor; lra.
  - simpl. lra.
Defined.

(** X15: [update_traj] needs the target coefficients: on an instance that
    comes straight from the constructor, with at least one Fourier mode,
    it raises for every trajectory, because [akeval] reads [uk], which only
    [set_pdf] assigns. *)
Theorem update_traj_before_set_pdf (p : ErgodicParameters.t) (u0 : R)
        (self : ErgodicOpt) (X U : list R) :
  ErgodicOpt_init p u0 = Some self ->
  (0 < ErgodicParameters.nFourier p)%Z ->
  update_traj self X U = None.
Proof.
  intros Hinit HN.
  destruct (ErgodicOpt_init_inv p u0 self Hinit)
    as (_ & _ & _ & HNf & Huk & _).
  unfold update_traj.
  set (s0 := set_U_current U (set_X_current X self)).
  assert (H0 : uk s0 = [] /\ Nfourier s0 = ErgodicParameters.nFourier p)
    by (split; assumption).
  clearbody s0.
  destruct (ckeval s0) as [s1|] eqn:H1; [|reflexivity]. cbn [obind].
  assert (H1' : uk s1 = [] /\ Nfourier s1 = ErgodicParameters.nFourier p).
  { unfold ckeval in H1.
    destruct (omap_list _ _) as [cks|]; [|discriminate].
    cbn [obind] in H1. inversion H1. cbn [uk Nfourier set_ck]. exact H0. }
  clear H1 H0. destruct H1' as [Huk1 HN1].
  assert (Hak : akeval s1 = None).
  { unfold akeval. rewrite HN1.
    destruct (Z.to_nat (ErgodicParameters.nFourier p)) as [|m] eqn:Hm; [lia|].
    cbn [seq omap_list]. unfold outerchain_entry at 1. rewrite Huk1.
    destruct (nth_error (Lambdak s1) 0); [|reflexivity]. cbn [obind].
    destruct (nth_error (ck s1) 0); reflexivity. }
  rewrite Hak. reflexivity.
Qed.

Lemma update_traj_before_set_pdf_witness :
  exists self,
    ErgodicOpt_init params_small 0 = Some self /\
    update_traj self [0; 0; 0] [0; 0; 0] = None.
Proof.
  destruct (ErgodicOpt_init_defined params_small 0)
    as (Lk & kl & self & _ & _ & Hinit & _); [simpl; lia | simpl; lia |].
  exists self. split; [exact Hinit|].
  apply (update_traj_before_set_pdf params_small 0 self _ _ Hinit).
  reflexivity.
Defined.

End ErgodicGradient.

(** ** The stages of [update_traj] *)

Section UpdateTrajectory.

Lemma zip_with_opt_values (g : R -> R -> R) (a b : list R) :
  length a = length b ->
  exists r, zip_with_opt (fun x y => Some (g x y)) a b = Some r /\
    length r = length a /\
    forall i, (i < length a)%nat ->
      nth i r 0 = g (nth i a 0) (nth i b 0).
Proof.
  revert b. induction a as [|x a IH]; intros b Hlen.
  - destruct b; [|discriminate]. exists []. split; [reflexivity|].
    split; [reflexivity|]. intros i Hi. simpl in Hi. lia.
  - destruct b as [|y b]; [discriminate|].
    destruct (IH b ltac:(simpl in Hlen; lia)) as (r & Hr & Hl & Hn).
    exists (g x y :: r). split; [cbn [zip_with_opt obind]; rewrite Hr; reflexivity|].
    split; [simpl; lia|].
    intros i Hi. destruct i as [|i]; [reflexivity|].
    cbn [nth]. apply Hn. simpl in Hi. lia.
Qed.

Lemma interp1d_some (xs ys : list R) :
  length xs = length ys -> exists g, interp1d xs ys = Some g.
Proof.
  intros H. unfold interp1d. rewrite (proj2 (Nat.eqb_eq _ _) H).
  eexists; reflexivity.
Qed.

Lemma ckeval_step (s : ErgodicOpt) :
  length (X_current s) = length (time s) ->
  last (time s) 0 <> 0 ->
  length (klist s) = Z.to_nat (Nfourier s) ->
  length (hk s) = Z.to_nat (Nfourier s) ->
  Forall (fun h => h <> 0) (hk s) ->
  exists s', ckeval s = Some s' /\ same_parameters s s' /\
    X_current s' = X_current s /\ U_current s' = U_current s /\
    length (ck s') = Z.to_nat (Nfourier s).
Proof.
  intros HX HT Hkl Hhk Hnz.
  destruct (ckeval_values s HX HT Hkl Hhk Hnz) as (cks & Hck & Hl & _).
  exists (set_ck cks s). split; [exact Hck|].
  split; [unfold same_parameters; repeat split; reflexivity|].
  split; [reflexivity|]. split; [reflexivity | exact Hl].
Qed.

Lemma akeval_step (s : ErgodicOpt) :
  (0 < Z.to_nat (Nfourier s))%nat ->
  length (Lambdak s) = Z.to_nat (Nfourier s) ->
  length (ck s) = Z.to_nat (Nfourier s) ->
  length (uk s) = Z.to_nat (Nfourier s) ->
  length (hk s) = Z.to_nat (Nfourier s) ->
  length (klist s) = Z.to_nat (Nfourier s) ->
  Forall (fun h => h <> 0) (hk s) ->
  last (time s) 0 <> 0 ->
  exists s', akeval s = Some s' /\ same_parameters s s' /\
    X_current s' = X_current s /\ U_current s' = U_current s /\
    ck s' = ck s /\
    length (ak s') = length (X_current s).
Proof.
  intros HN HL Hc Hu Hh Hk Hnz HT. unfold akeval.
  set (body := fun index =>
          o <- outerchain_entry s index ;;
          kv <- nth_error (klist s) index ;;
          Some (o, kv)).
  destruct (omap_list_total body (seq 0 (Z.to_nat (Nfourier s))))
    as [terms Ht].
  { intros k Hin. apply in_seq in Hin. unfold body, outerchain_entry.
    rewrite (nth_error_nth' (Lambdak s) 0) by lia. cbn [obind].
    rewrite (nth_error_nth' (ck s) 0) by lia. cbn [obind].
    rewrite (nth_error_nth' (uk s) 0) by lia. cbn [obind].
    rewrite (nth_error_nth' (hk s) 0) by lia. cbn [obind].
    rewrite fdiv_defined.
    - cbn [obind].
      rewrite (nth_error_nth' (klist s) 0) by lia. cbn [obind].
      eexists; reflexivity.
    - apply Rmult_integral_contrapositive_currified; [|exact HT].
      rewrite Forall_forall in Hnz. apply Hnz, nth_In. lia. }
  rewrite Ht. cbn [obind]. eexists. split; [reflexivity|].
  split; [unfold same_parameters; repeat split; reflexivity|].
  split; [reflexivity|]. split; [reflexivity|]. split; [reflexivity|].
  cbn [ak set_ak].
  pose proof (omap_list_length _ _ _ Ht) as Hl. rewrite length_seq in Hl.
  destruct terms as [|t0 terms']; [simpl in Hl; lia|].
  apply length_map.
Qed.

Lemma broadcast_with_aligned (g : R -> R -> R) (a b : list R) :
  length a = length b ->
  exists r, broadcast_with g a b = Some r /\
    length r = length a /\
    forall i, (i < length a)%nat ->
      nth i r 0 = g (nth i a 0) (nth i b 0).
Proof.
  intros Hlen.
  destruct (zip_with_opt_values g a b Hlen) as (r & Hr & Hl & Hn).
  exists r. split; [|split; assumption].
  unfold broadcast_with.
  destruct a as [|x [|x' a]]; destruct b as [|y [|y' b]];
    try discriminate; exact Hr.
Qed.

Lemma dldx_step (s : ErgodicOpt) :
  length (ak s) = length (X_current s) ->
  exists s', dldx s = Some s' /\ same_parameters s s' /\
    X_current s' = X_current s /\ U_current s' = U_current s /\
    A_current s' = A_current s /\ B_current s' = B_current s /\
    ck s' = ck s /\ ak s' = ak s /\
    length (a_current s') = length (X_current s) /\
    forall i, (i < length (X_current s))%nat ->
      nth i (a_current s') 0 =
      ergcost s * nth i (ak s) 0 +
      barrcost s * Dbarr_point (wlimit s) (nth i (X_current s) 0).
Proof.
  intros Hak. unfold dldx.
  destruct (broadcast_with_aligned
              (fun g d => ergcost s * g + barrcost s * d)
              (ak s) (Dbarrier s (X_current s))) as (a & Ha & Hl & Hn).
  { unfold Dbarrier. rewrite length_map. exact Hak. }
  rewrite Ha. cbn [obind]. eexists. split; [reflexivity|].
  split; [unfold same_parameters; repeat split; reflexivity|].
  do 6 (split; [reflexivity|]).
  cbn [a_current set_a_current]. split; [congruence|].
  intros i Hi. rewrite Hn by lia. unfold Dbarrier.
  rewrite (nth_indep (map (Dbarr_point (wlimit s)) (X_current s)) 0
                     (Dbarr_point (wlimit s) 0))
    by (rewrite length_map; exact Hi).
  rewrite map_nth. reflexivity.
Qed.

Lemma per_sample_values (f : R -> R -> R) (tm X U : list R) :
  length X = length tm -> length U = length tm ->
  exists r, per_sample f tm X U = Some r /\ length r = length tm /\
    forall i, (i < length tm)%nat -> nth i r 0 = f (nth i X 0) (nth i U 0).
Proof.
  revert X U. induction tm as [|t0 tm IH]; intros X U HX HU.
  - exists []. split; [reflexivity|]. split; [reflexivity|].
    intros i Hi. simpl in Hi. lia.
  - destruct X as [|x X]; [discriminate|].
    destruct U as [|u U]; [discriminate|].
    destruct (IH X U ltac:(simpl in HX; lia) ltac:(simpl in HU; lia))
      as (r & Hr & Hl & Hn).
    exists (f x u :: r).
    split; [cbn [per_sample]; rewrite Hr; reflexivity|].
    split; [simpl; lia|].
    intros i Hi. destruct i as [|i]; [reflexivity|].
    cbn [nth]. apply Hn. simpl in Hi. lia.
Qed.

Lemma dldu_step (s : ErgodicOpt) :
  length (X_current s) = length (time s) ->
  length (U_current s) = length (time s) ->
  (1 <= length (time s))%nat ->
  exists s', dldu s = Some s' /\ same_parameters s s' /\
    X_current s' = X_current s /\ U_current s' = U_current s /\
    A_current s' = A_current s /\ B_current s' = B_current s /\
    ck s' = ck s /\ ak s' = ak s /\ a_current s' = a_current s /\
    length (b_current s') = length (time s) /\
    forall i, (i < length (time s))%nat ->
      nth i (b_current s') 0 =
      R_weight s * nth i (U_current s) 0 +
      (if Nat.eqb i 0 then uinit s * Quinit s else 0).
Proof.
  intros HX HU Hlen. unfold dldu.
  destruct (per_sample_values (dldu_pointwise s) (time s)
              (X_current s) (U_current s) HX HU) as (r & Hr & Hl & Hn).
  rewrite Hr. cbn [obind].
  destruct r as [|d0 rest]; [simpl in Hl; lia|].
  eexists. split; [reflexivity|].
  split; [unfold same_parameters; repeat split; reflexivity|].
  do 7 (split; [reflexivity|]).
  cbn [b_current set_b_current]. split; [exact Hl|].
  intros i Hi. specialize (Hn i Hi). destruct i as [|i].
  - cbn [nth] in *. rewrite Hn. unfold dldu_pointwise, matmult. simpl. ring.
  - cbn [nth] in *. rewrite Hn. unfold dldu_pointwise, matmult. simpl. ring.
Qed.

(** X16: with at least one Fourier mode and the target coefficients set,
    [update_traj] accepts every trajectory that has one state and one
    control per grid point: it stores
    the trajectory, the linearisation [A = 0], [B = 1] of the single
    integrator, one realised coefficient per mode, the state gradient
    [a[i] = ergcost·ak[i] + barrcost·Dbarrier(X)[i]] and the control gradient
    [b[i] = R·U[i]], to which [uinit·Quinit] is added at the first sample. *)
Theorem update_traj_stores_gradients (self : ErgodicOpt) (X U : list R) :
  (0 < Nfourier self)%Z ->
  time_grid (time self) -> last (time self) 0 <> 0 ->
  length X = length (time self) -> length U = length (time self) ->
  length (Lambdak self) = Z.to_nat (Nfourier self) ->
  length (uk self) = Z.to_nat (Nfourier self) ->
  length (hk self) = Z.to_nat (Nfourier self) ->
  length (klist self) = Z.to_nat (Nfourier self) ->
  Forall (fun h => h <> 0) (hk self) ->
  exists self',
    update_traj self X U = Some self' /\
    X_current self' = X /\ U_current self' = U /\
    A_current self' = map (fun _ => 0) (time self) /\
    B_current self' = map (fun _ => 1) (time self) /\
    length (ck self') = Z.to_nat (Nfourier self) /\
    length (ak self') = length X /\
    length (a_current self') = length X /\
    length (b_current self') = length U /\
    (forall i, (i < length X)%nat ->
       nth i (a_current self') 0 =
       ergcost self * nth i (ak self') 0 +
       barrcost self * Dbarr_point (wlimit self) (nth i X 0)) /\
    (forall i, (i < length U)%nat ->
       nth i (b_current self') 0 =
       R_weight self * nth i U 0 +
       (if Nat.eqb i 0 then uinit self * Quinit self else 0)).
Proof.
  intros HNpos [Hlen _] HT HX HU HL Huk Hhk Hkl Hnz. unfold update_traj.
  set (s0 := set_U_current U (set_X_current X self)).
  assert (P0 : same_parameters self s0)
    by (unfold same_parameters; repeat split; reflexivity).
  assert (X0 : X_current s0 = X) by reflexivity.
  assert (U0 : U_current s0 = U) by reflexivity.
  clearbody s0. unfold same_parameters in P0.
  destruct P0 as (T0 & L0 & u0 & h0 & k0 & N0 & R0 & i0 & Q0 & e0 & b0 & w0).
  destruct (ckeval_step s0) as (s1 & H1 & P1' & X1 & U1 & C1);
    try congruence.
  rewrite H1. cbn [obind]. unfold same_parameters in P1'.
  destruct P1' as (T1 & L1 & u1 & h1 & k1 & N1 & R1 & i1 & Q1 & e1 & b1 & w1).
  destruct (akeval_step s1) as (s2 & H2 & P2 & X2 & U2 & C2 & A2);
    try congruence; [rewrite N1, N0; lia|].
  rewrite H2. cbn [obind]. unfold same_parameters in P2.
  destruct P2 as (T2 & L2 & u2 & h2 & k2 & N2 & R2 & i2 & Q2 & e2 & b2 & w2).
  set (s3 := dfdu (dfdx s2)).
  assert (P3 : same_parameters s2 s3)
    by (unfold same_parameters; repeat split; reflexivity).
  assert (F3 : X_current s3 = X_current s2 /\ U_current s3 = U_current s2 /\
               ck s3 = ck s2 /\ ak s3 = ak s2 /\
               A_current s3 = map (fun _ => 0) (time s2) /\
               B_current s3 = map (fun _ => 1) (time s2))
    by (repeat split; reflexivity).
  clearbody s3. unfold same_parameters in P3.
  destruct P3 as (T3 & L3 & u3 & h3 & k3 & N3 & R3 & i3 & Q3 & e3 & b3 & w3).
  destruct F3 as (X3 & U3 & C3 & A3 & Ac3 & Bc3).
  destruct (dldx_step s3) as
    (s4 & H4 & P4 & X4 & U4 & Ac4 & Bc4 & C4 & A4 & La4 & Na4);
    [congruence|].
  rewrite H4. cbn [obind]. unfold same_parameters in P4.
  destruct P4 as (T4 & L4 & u4 & h4 & k4 & N4 & R4 & i4 & Q4 & e4 & b4 & w4).
  destruct (dldu_step s4) as
    (s5 & H5 & P5 & X5 & U5 & Ac5 & Bc5 & C5 & A5 & a5 & Lb5 & Nb5);
    [congruence | congruence | rewrite T4, T3, T2, T1, T0; lia |].
  rewrite H5. cbn [obind]. unfold same_parameters in P5.
  destruct P5 as (T5 & L5 & u5 & h5 & k5 & N5 & R5 & i5 & Q5 & e5 & b5 & w5).
  assert (HTs : time s5 = time self) by congruence.
  assert (HXs : X_current s3 = X) by congruence.
  assert (HUs : U_current s4 = U) by congruence.
  unfold A_interp, B_interp, a_interp, b_interp.
  destruct (interp1d_some (time s5) (A_current s5)) as [gA HgA].
  { rewrite Ac5, Ac4, Ac3, length_map. congruence. }
  destruct (interp1d_some (time s5) (B_current s5)) as [gB HgB].
  { rewrite Bc5, Bc4, Bc3, length_map. congruence. }
  destruct (interp1d_some (time s5) (a_current s5)) as [ga Hga].
  { rewrite a5, La4. congruence. }
  destruct (interp1d_some (time s5) (b_current s5)) as [gb Hgb].
  { rewrite Lb5. congruence. }
  rewrite HgA, HgB, Hga, Hgb. cbn [obind].
  exists s5. split; [reflexivity|].
  split; [congruence|]. split; [congruence|].
  split; [rewrite Ac5, Ac4, Ac3; congruence|].
  split; [rewrite Bc5, Bc4, Bc3; congruence|].
  split; [congruence|]. split; [congruence|].
  split; [rewrite a5, La4; congruence|].
  split; [rewrite Lb5; congruence|]. split.
  - intros i Hi. rewrite a5, Na4 by (rewrite HXs; exact Hi).
    rewrite HXs. replace (ak s5) with (ak s3) by congruence.
    replace (ergcost s3) with (ergcost self) by congruence.
    replace (barrcost s3) with (barrcost self) by congruence.
    replace (wlimit s3) with (wlimit self) by congruence.
    reflexivity.
  - intros i Hi. rewrite Nb5 by (rewrite T4, T3, T2, T1, T0; lia).
    rewrite HUs.
    replace (R_weight s4) with (R_weight self) by congruence.
    replace (uinit s4) with (uinit self) by congruence.
    replace (Quinit s4) with (Quinit self) by congruence.
    reflexivity.
Qed.

Lemma update_traj_stores_gradients_witness :
  exists self',
    update_traj (set_uk [1; 0; 0] (opt_on_grid 1 0 0 [] []))
                [0; 1; 2] [0; 0; 0] = Some self' /\
    X_current self' = [0; 1; 2] /\ U_current self' = [0; 0; 0] /\
    A_current self' =
      map (fun _ => 0) (time (set_uk [1; 0; 0] (opt_on_grid 1 0 0 [] []))) /\
    B_current self' =
      map (fun _ => 1) (time (set_uk [1; 0; 0] (opt_on_grid 1 0 0 [] []))) /\
    length (ck self') =
      Z.to_nat (Nfourier (set_uk [1; 0; 0] (opt_on_grid 1 0 0 [] []))) /\
    length (ak self') = length [0; 1; 2] /\
    length (a_current self') = length [0; 1; 2] /\
    length (b_current self') = length [0; 0; 0] /\
    (forall i, (i < length [0; 1; 2])%nat ->
       nth i (a_current self') 0 =
       ergcost (set_uk [1; 0; 0] (opt_on_grid 1 0 0 [] []))
         * nth i (ak self') 0 +
       barrcost (set_uk [1; 0; 0] (opt_on_grid 1 0 0 [] []))
         * Dbarr_point (wlimit (set_uk [1; 0; 0] (opt_on_grid 1 0 0 [] [])))
                       (nth i [0; 1; 2] 0)) /\
    (forall i, (i < length [0; 0; 0])%nat ->
       nth i (b_current self') 0 =
       R_weight (set_uk [1; 0; 0] (opt_on_grid 1 0 0 [] []))
         * nth i [0; 0; 0] 0 +
       (if Nat.eqb i 0
        then uinit (set_uk [1; 0; 0] (opt_on_grid 1 0 0 [] []))
             * Quinit (set_uk [1; 0; 0] (opt_on_grid 1 0 0 [] []))
        else 0)).
Proof.
  apply (update_traj_stores_gradients
           (set_uk [1; 0; 0] (opt_on_grid 1 0 0 [] [])) [0; 1; 2] [0; 0; 0]).
  - simpl. lia.
  - split; simpl; [lia | lra].
  - simpl. lra.
  - reflexivity.
  - reflexivity.
  - reflexivity.
  - reflexivity.
  - reflexivity.
  - reflexivity.
  - assert (0 < sqrt (1 / 2)) by (apply sqrt_lt_R0; lra).
    simpl. repeat constructor; lra.
Defined.

End UpdateTrajectory.

(** ** Normalising twice, and the zeroth target coefficient *)

Section NormalizeAgain.

Lemma normalized_mean_and_deviation (s : list R) (mid gain m M : R) :
  np_mean s = Some m ->
  np_max (map (fun x => x - m) s) = Some M ->
  0 < M -> 0 < gain ->
  np_mean (map (fun x => (x - m) * gain / M + mid) s) = Some mid /\
  np_max (map (fun x => x - mid)
              (map (fun x => (x - m) * gain / M + mid) s)) = Some gain.
Proof.
  intros Hm HM HMpos Hg.
  destruct (np_mean_inv _ _ Hm) as [Hn Hs].
  set (f := fun x => (x - m) * gain / M + mid).
  split.
  - unfold np_mean, fdiv. rewrite length_map.
    destruct (Req_dec_T (INR (length s)) 0) as [|_]; [contradiction|].
    f_equal.
    rewrite (map_ext f (fun x => gain / M * x + (mid - m * gain / M)))
      by (intros; unfold f; field; lra).
    rewrite np_sum_map_affine, Hs. field. split; auto; lra.
  - assert (Hmax : np_max (map (fun d => d * gain / M)
                               (map (fun x => x - m) s))
                   = Some (M * gain / M)).
    { apply (np_max_map_mono (fun d => d * gain / M)); [|exact HM].
      intros x y Hxy.
      assert (0 < gain / M) by (apply Rdiv_lt_0_compat; assumption).
      unfold Rdiv in *. rewrite !Rmult_assoc. nra. }
    rewrite !map_map in *.
    rewrite (map_ext (fun x => f x - mid) (fun x => (x - m) * gain / M))
      by (intros; unfold f; ring).
    rewrite Hmax. f_equal. field. lra.
Qed.

(** X18: [normalize] is idempotent: when [max (s - mean s)] is nonzero and
    the gain is positive, normalising the returned pair again with the same
    [mid] and [gain] returns it unchanged. *)
Theorem normalize_idempotent (s t : list R) (mid gain m M : R) :
  np_mean s = Some m ->
  np_max (map (fun x => x - m) s) = Some M ->
  M <> 0 -> 0 < gain ->
  exists s' t',
    normalize s t mid gain = Some (s', t') /\
    normalize s' t' mid gain = Some (s', t').
Proof.
  intros Hm HM HM0 Hg.
  pose proof (max_deviation_nonneg s m M Hm HM) as HMge.
  assert (HMpos : 0 < M) by lra.
  destruct (normalized_mean_and_deviation s mid gain m M Hm HM HMpos Hg)
    as [Hm' HM'].
  set (f := fun x => (x - m) * gain / M + mid) in *.
  exists (map f s), (map f t).
  split; [apply normalize_affine; auto; lra|].
  rewrite (normalize_affine (map f s) (map f t) mid gain mid gain Hm' HM')
    by lra.
  f_equal. f_equal.
  - rewrite <- (map_id (map f s)) at 2. apply map_ext.
    intros x. field. lra.
  - rewrite <- (map_id (map f t)) at 2. apply map_ext.
    intros x. field. lra.
Qed.

Lemma normalize_idempotent_witness :
  exists s' t',
    normalize [0; 2] [1; 4] (1 / 2) (1 / 10) = Some (s', t') /\
    normalize s' t' (1 / 2) (1 / 10) = Some (s', t').
Proof.
  apply (normalize_idempotent [0; 2] [1; 4] (1 / 2) (1 / 10) 1 1).
  - unfold np_mean, fdiv. simpl.
    destruct (Req_dec_T (1 + 1) 0) as [H|_]; [lra|]. f_equal. lra.
  - simpl. f_equal. unfold Rmax.
    destruct (Rle_dec (0 - 1) (2 - 1)); lra.
  - lra.
  - lra.
Defined.

Lemma cos_sum_zero_wavenumber (p xs : list R) :
  length p = length xs -> cos_sum 0 p xs = np_sum p.
Proof.
  revert xs. induction p as [|q p IH]; intros xs Hlen.
  - destruct xs; reflexivity.
  - destruct xs as [|x xs]; [discriminate|].
    cbn [cos_sum]. change (np_sum (q :: p)) with (q + np_sum p).
    rewrite IH by (simpl in Hlen; lia).
    rewrite Rmult_0_l, cos_0. ring.
Qed.

(** X19: the target coefficient of a mode with wavenumber 0 does not depend
    on the density: after [set_pdf] it is
    [len(xlist)·wlimit / res / hk[k]], because the stored density has
    mean 1. *)
Theorem set_pdf_zero_wavenumber_coefficient
        (self : ErgodicOpt) (pdf0 p : list R) (k : nat) :
  resample_pdf self pdf0 = Some p ->
  np_sum p <> 0 ->
  res self <> 0%Z ->
  length (klist self) = Z.to_nat (Nfourier self) ->
  length (hk self) = Z.to_nat (Nfourier self) ->
  Forall (fun h => h <> 0) (hk self) ->
  (k < Z.to_nat (Nfourier self))%nat ->
  nth k (klist self) 0 = 0 ->
  exists self',
    set_pdf self pdf0 = Some self' /\
    nth k (uk self') 0 =
    INR (length (xlist self)) * wlimit self / IZR (res self)
      / nth k (hk self) 0.
Proof.
  intros Hp Hs Hres Hkl Hhk Hnz Hk Hzero.
  pose proof (resample_pdf_length self pdf0 p Hp) as Hpl.
  destruct (normalize_pdf_mean self p Hs) as [Hnorm Hmean].
  set (q := map (fun x => x / (np_sum p / INR (length p))) p) in *.
  set (self1 := set_pdf_array q (set_pdf_array p self)) in *.
  assert (Hql : length q = length (xlist self))
    by (unfold q; rewrite length_map; exact Hpl).
  destruct (calculate_uk_values self1 q) as (uks & Huk & Hukl & Hukv); auto.
  exists (set_uk uks self1). split.
  - unfold set_pdf. rewrite Hp. cbn [obind].
    rewrite Hnorm. cbn [obind]. exact Huk.
  - cbn [uk set_uk]. rewrite (Hukv k Hk).
    change (klist self1) with (klist self).
    change (xlist self1) with (xlist self).
    change (wlimit self1) with (wlimit self).
    change (res self1) with (res self).
    change (hk self1) with (hk self).
    rewrite Hzero, (cos_sum_zero_wavenumber q (xlist self) Hql).
    destruct (np_mean_inv _ _ Hmean) as [_ Hsum].
    rewrite Hsum, Hql. f_equal. f_equal. ring.
Qed.

Lemma set_pdf_zero_wavenumber_witness :
  exists self',
    set_pdf (opt_on_grid (1 / 20) 0 0 [] []) [1; 2; 1] = Some self' /\
    nth 0 (uk self') 0 =
    INR (length (xlist (opt_on_grid (1 / 20) 0 0 [] [])))
      * wlimit (opt_on_grid (1 / 20) 0 0 [] [])
      / IZR (res (opt_on_grid (1 / 20) 0 0 [] []))
      / nth 0 (hk (opt_on_grid (1 / 20) 0 0 [] [])) 0.
Proof.
  apply (set_pdf_zero_wavenumber_coefficient
           (opt_on_grid (1 / 20) 0 0 [] []) [1; 2; 1] [1; 2; 1] 0).
  - exact resample_pdf_example.
  - simpl. lra.
  - simpl. lia.
  - reflexivity.
  - reflexivity.
  - assert (0 < sqrt (1 / 2)) by (apply sqrt_lt_R0; lra).
    simpl. repeat constructor; lra.
  - simpl. lia.
  - reflexivity.
Defined.

End NormalizeAgain.

(** ** The directional derivative of the cost *)

Section DirectionalDerivative.

Variable c : R.

Lemma dcost_rows_linear (tm a b dX dU dX' dU' r r' : list R) :
  dcost_rows tm a b dX dU = Some r ->
  dcost_rows tm a b dX' dU' = Some r' ->
  dcost_rows tm a b
    (map (fun p => c * fst p + snd p) (combine dX dX'))
    (map (fun p => c * fst p + snd p) (combine dU dU'))
  = Some (map (fun p => c * fst p + snd p) (combine r r')) /\
  length r = length tm /\ length r' = length tm.
Proof.
  revert a b dX dU dX' dU' r r'.
  induction tm as [|t0 tm IH]; intros a b dX dU dX' dU' r r' Hr Hr'.
  - simpl in Hr, Hr'. inversion Hr; inversion Hr'; subst.
    repeat split; reflexivity.
  - destruct a as [|a0 a]; [discriminate|].
    destruct b as [|b0 b]; [discriminate|].
    destruct dX as [|x dX]; [discriminate|].
    destruct dU as [|u dU]; [discriminate|].
    destruct dX' as [|x' dX']; [discriminate|].
    destruct dU' as [|u' dU']; [discriminate|].
    cbn [dcost_rows] in Hr, Hr'.
    destruct (dcost_rows tm a b dX dU) as [q|] eqn:Hq; [|discriminate].
    destruct (dcost_rows tm a b dX' dU') as [q'|] eqn:Hq'; [|discriminate].
    cbn [obind] in Hr, Hr'. inversion Hr; inversion Hr'; subst.
    destruct (IH a b dX dU dX' dU' q q' Hq Hq') as (Hc & Hl & Hl').
    cbn [combine map dcost_rows fst snd]. rewrite Hc. cbn [obind].
    split; [|simpl; split; lia].
    f_equal. f_equal. unfold matmult. simpl. ring.
Qed.

Lemma trapz_sum_linear (y y' x : list R) :
  length y = length y' ->
  trapz_sum (map (fun p => c * fst p + snd p) (combine y y')) x =
  c * trapz_sum y x + trapz_sum y' x.
Proof.
  revert y' x. induction y as [|y0 y IH]; intros y' x Hlen.
  - destruct y'; [|discriminate]. simpl. ring.
  - destruct y' as [|y0' y']; [discriminate|].
    destruct y as [|y1 y]; destruct y' as [|y1' y']; try discriminate.
    + destruct x as [|x0 [|x1 x]]; simpl; ring.
    + destruct x as [|x0 [|x1 x]]; try (simpl; ring).
      specialize (IH (y1' :: y') (x1 :: x) ltac:(simpl in Hlen |- *; lia)).
      cbn [combine map fst snd] in *.
      rewrite !trapz_sum_cons2. rewrite IH. field.
Qed.

(** X20: [dcost] is linear in the direction: when it is defined for the
    directions [(dX, dU)] and [(dX', dU')], it is defined for
    [(c·dX + dX', c·dU + dU')], with the value [c·dcost(dX, dU) +
    dcost(dX', dU')]. *)
Theorem dcost_linear_in_direction (self : ErgodicOpt)
        (dX dU dX' dU' : list R) (d d' : R) :
  dcost self (dX, dU) = Some d ->
  dcost self (dX', dU') = Some d' ->
  dcost self (map (fun p => c * fst p + snd p) (combine dX dX'),
              map (fun p => c * fst p + snd p) (combine dU dU'))
  = Some (c * d + d').
Proof.
  unfold dcost. cbn [fst snd]. intros Hd Hd'.
  destruct (dcost_rows (time self) (a_current self) (b_current self) dX dU)
    as [r|] eqn:Hr; [|discriminate].
  destruct (dcost_rows (time self) (a_current self) (b_current self) dX' dU')
    as [r'|] eqn:Hr'; [|discriminate].
  cbn [obind] in Hd, Hd'.
  destruct (dcost_rows_linear _ _ _ _ _ _ _ _ _ Hr Hr') as (Hc & Hl & Hl').
  rewrite Hc. cbn [obind].
  rewrite trapz_defined in Hd by exact Hl.
  rewrite trapz_defined in Hd' by exact Hl'.
  inversion Hd; inversion Hd'; subst.
  rewrite trapz_defined.
  - f_equal. apply trapz_sum_linear. congruence.
  - rewrite length_map, length_combine, Hl, Hl'. apply Nat.min_id.
Qed.

End DirectionalDerivative.

Section DirectionalDerivativeExample.

Lemma dcost_linear_in_direction_witness :
  dcost opt_fine_grid
        (map (fun p => 2 * fst p + snd p) (combine [1; 1] [0; 1]),
         map (fun p => 2 * fst p + snd p) (combine [1; 0] [1; 1]))
  = Some (2 * 0 + 0).
Proof.
  apply (dcost_linear_in_direction 2 opt_fine_grid [1; 1] [1; 0] [0; 1] [1; 1]).
  - unfold dcost, trapz. simpl. f_equal. unfold matmult. simpl. lra.
  - unfold dcost, trapz. simpl. f_equal. unfold matmult. simpl. lra.
Defined.

End DirectionalDerivativeExample.
